(** * Top-word extraction of [plot_top_words] (Python Text Analysis, topic modeling)

    The notebooks of the repository delegate all numerical work to numpy,
    scikit-learn and matplotlib.  The routine with most logic of its own is
    [plot_top_words] (lessons/03_topic_modeling.ipynb and its solutions copy):

    <<
    def plot_top_words(model, feature_names, n_top_words=10, n_row=2, n_col=5,
                       normalize=False):
        fig, axes = plt.subplots(n_row, n_col, figsize=(...), sharex=True)
        axes = axes.flatten()
        components = model.components_
        if normalize:
            components = components / components.sum(axis=1)[:, np.newaxis]
        for topic_idx, topic in enumerate(components):
            top_features_ind = topic.argsort()[: -n_top_words - 1 : -1]
            top_features = [feature_names[i] for i in top_features_ind]
            weights = topic[top_features_ind]
            ax = axes[topic_idx]
            ax.barh(top_features, weights, height=0.7)
            ...                       # title, ticks and spines of [ax]
        plt.subplots_adjust(...)
        return fig, axes
    >>

    The model has four parts:
    - [Float64]: numpy's float64 values in exact arithmetic (no rounding),
      with the IEEE special values that unguarded division produces;
    - [Numpy]: the array operations the routine calls ([sum], broadcast
      division, [argsort], slicing with a negative step, fancy indexing);
    - [top_words]: the routine on values, from [components] to the labels
      and weights handed to [ax.barh], one chart per topic;
    - [Store.plot_top_words]: the whole routine on a store of Python
      objects, where identity, aliasing and the writes are visible.
    [StoreFacts.plot_top_words_draws] links the last two.

    Two more routines of the notebooks follow, each with its own model:
    [Featurizer.featurizer], the document embeddings of the word-embedding
    solutions, and [Preprocess], the tweet preprocessing of the
    bag-of-words and word-embedding notebooks, over a model of Python's
    regular expressions ([Re]). *)

From Stdlib Require Import QArith Qcanon ZArith Lia Lqa.
From stdpp Require Import base tactics option list sorting strings gmap.

Local Open Scope Z_scope.
Local Open Scope nat_scope.

(** ** float64 values *)

Module Float64.

(** A float64 is a real number, an infinity or NaN.  Reals are exact
    rationals in lowest terms ([Qc]), so equality of values is Leibniz
    equality; rounding and the sign of zero are not modelled. *)
Inductive float64 : Type :=
  | Fin (q : Qc)
  | PInf
  | NInf
  | NaN.

Definition zero : float64 := Fin 0%Qc.
Definition one : float64 := Fin 1%Qc.

Definition isnan (x : float64) : bool :=
  match x with NaN => true | _ => false end.

Definition isfinite (x : float64) : bool :=
  match x with Fin _ => true | _ => false end.

Definition Qc_eqb (a b : Qc) : bool := Qeq_bool a b.
Definition Qc_leb (a b : Qc) : bool := Qle_bool a b.
Definition Qc_ltb (a b : Qc) : bool := negb (Qle_bool b a).

(** [x + y] *)
Definition add (x y : float64) : float64 :=
  match x, y with
  | NaN, _ | _, NaN => NaN
  | PInf, NInf | NInf, PInf => NaN
  | PInf, _ | _, PInf => PInf
  | NInf, _ | _, NInf => NInf
  | Fin a, Fin b => Fin (a + b)%Qc
  end.

(** [x / y] as numpy computes it: division by zero is no exception (numpy
    prints a RuntimeWarning at most), [0/0] is NaN and [a/0] is an infinity
    of the sign of [a]. *)
Definition div (x y : float64) : float64 :=
  match x, y with
  | NaN, _ | _, NaN => NaN
  | Fin a, Fin b =>
      if Qc_eqb b 0 then
        if Qc_eqb a 0 then NaN else if Qc_ltb 0 a then PInf else NInf
      else Fin (a / b)%Qc
  | Fin _, (PInf | NInf) => zero
  | (PInf | NInf), (PInf | NInf) => NaN
  | PInf, Fin b => if Qc_leb 0 b then PInf else NInf
  | NInf, Fin b => if Qc_leb 0 b then NInf else PInf
  end.

(** IEEE comparison [x <= y]: false as soon as one side is NaN. *)
Definition le (x y : float64) : bool :=
  match x, y with
  | NaN, _ | _, NaN => false
  | NInf, _ => true
  | _, PInf => true
  | Fin a, Fin b => Qc_leb a b
  | _, _ => false
  end.

(** IEEE comparison [x < y]. *)
Definition lt (x y : float64) : bool :=
  match x, y with
  | NaN, _ | _, NaN => false
  | Fin a, Fin b => Qc_ltb a b
  | NInf, NInf | PInf, PInf => false
  | NInf, _ => true
  | _, PInf => true
  | _, _ => false
  end.

(** The order numpy sorts floats by: the IEEE order on the other values,
    and NaN after all of them. *)
Definition sort_le (x y : float64) : bool := isnan y || le x y.

End Float64.
Export Float64.

(** ** Python exceptions *)

Inductive exn : Type :=
  | IndexError
  | TypeError
  | ValueError
  | AttributeError.

(** A call either raises or returns. *)
Definition result (A : Type) : Type := exn + A.

Definition raise {A} (e : exn) : result A := inl e.

#[export] Instance result_ret : MRet result := λ A x, inr x.
#[export] Instance result_bind : MBind result := λ A B f m,
  match m with inl e => inl e | inr x => f x end.

(** [[f(x) for x in l]]: the first exception ends the comprehension. *)
Fixpoint for_each {A B} (f : A → result B) (l : list A) : result (list B) :=
  match l with
  | [] => mret []
  | x :: l => y ← f x; ys ← for_each f l; mret (y :: ys)
  end.

(** [l[i]] for an index [i >= 0]. *)
Definition getitem {A} (l : list A) (i : nat) : result A :=
  match l !! i with
  | Some x => mret x
  | None => raise IndexError
  end.

(** ** The numpy operations of the routine *)

Module Numpy.

(** [a.sum()] of a one-dimensional array. *)
Definition sum (a : list float64) : float64 := foldr add zero a.

(** [m.sum(axis=1)]: one sum per row. *)
Definition sum_axis1 (m : list (list float64)) : list float64 := sum <$> m.

(** [m / s[:, np.newaxis]]: the column [s] is broadcast along the rows, so
    every entry of row [k] is divided by [s[k]].  The result is a new array. *)
Definition divide_column (m : list (list float64)) (s : list float64)
  : list (list float64) :=
  zip_with (λ row d, (λ x, div x d) <$> row) m s.

(** The value [a[i]] the sort compares; indices out of range do not occur
    in a permutation of the positions of [a]. *)
Definition key (a : list float64) (i : nat) : float64 := default NaN (a !! i).

(** [a.argsort()] is numpy's: the source fixes no [kind], so the result is
    some permutation of the positions of [a] along which the values ascend
    in numpy's sort order.  How ties are ordered is not part of the
    interface (the default [kind] is not stable). *)
Class Argsort : Type := {
  argsort : list float64 → list nat;
  argsort_perm (a : list float64) : argsort a ≡ₚ seq 0 (length a);
  argsort_sorted (a : list float64) :
    StronglySorted (λ i j, sort_le (key a i) (key a j) = true) (argsort a)
}.

(** [a[:stop:-1]]: CPython's slice adjustment for step [-1] and no start.
    The walk starts at the last position and goes down to [stop],
    exclusive; a negative [stop] counts from the end, and what is out of
    range is clamped, never an error. *)
Definition slice_down_to {A} (a : list A) (stop : Z) : list A :=
  let n := Z.of_nat (length a) in
  let start := (n - 1)%Z in
  let stop :=
    if (stop <? 0)%Z then
      if (stop + n <? 0)%Z then (-1)%Z else (stop + n)%Z
    else if (n <=? stop)%Z then (n - 1)%Z else stop in
  take (Z.to_nat (start - stop)) (reverse a).

(** [a[ind]] for an integer array [ind] (fancy indexing): a new array. *)
Definition take_along (a : list float64) (ind : list nat) : result (list float64) :=
  for_each (getitem a) ind.

End Numpy.
Export Numpy.

(** ** The routine on values *)

(** [components] after the optional normalisation. *)
Definition components (components_ : list (list float64)) (normalize : bool)
  : list (list float64) :=
  if normalize then divide_column components_ (sum_axis1 components_)
  else components_.

Section extraction.
Context `{Argsort}.

(** [topic.argsort()[: -n_top_words - 1 : -1]] *)
Definition top_features_ind (topic : list float64) (n_top_words : Z) : list nat :=
  slice_down_to (argsort topic) (- n_top_words - 1)%Z.

(** [[feature_names[i] for i in top_features_ind]] *)
Definition top_features (feature_names : list string) (ind : list nat)
  : result (list string) :=
  for_each (getitem feature_names) ind.

(** [topic[top_features_ind]] *)
Definition weights (topic : list float64) (ind : list nat) : result (list float64) :=
  take_along topic ind.

(** One turn of the loop: the labels and the bar lengths handed to
    [ax.barh]. *)
Definition top_words_topic (feature_names : list string) (n_top_words : Z)
  (topic : list float64) : result (list string * list float64) :=
  let ind := top_features_ind topic n_top_words in
  feats ← top_features feature_names ind;
  ws ← weights topic ind;
  mret (feats, ws).

(** The whole loop: one chart per topic, in row order; the first exception
    ends it. *)
Definition top_words (components_ : list (list float64))
  (feature_names : list string) (n_top_words : Z) (normalize : bool)
  : result (list (list string * list float64)) :=
  for_each (top_words_topic feature_names n_top_words)
    (components components_ normalize).

End extraction.

(** The (term, weight) pairs of one chart. *)
Definition summary (chart : list string * list float64) : list (string * float64) :=
  zip chart.1 chart.2.

(** ** The routine on a store of Python objects

    Arrays, lists and axes are objects with an identity; a variable holds a
    reference.  Every numpy operation of the routine returns a new object
    (or a view that is only read), and the one object the routine writes to
    is an axes of the figure it has just created. *)

Module Store.

Definition loc : Type := positive.

Inductive obj : Type :=
  | Array2 (m : list (list float64))
  | Array1 (a : list float64)
  | IntArray (ind : list nat)
  | StrList (names : list string)
  | Model (components_ : loc)
  | Axes (bars : option (list string * list float64))
  | Figure (axes : list loc).

(** A computation over the store; an exception keeps the store as it is
    when raised. *)
Definition M (A : Type) : Type := gmap loc obj → gmap loc obj * result A.

#[export] Instance M_ret : MRet M := λ A x σ, (σ, inr x).
#[export] Instance M_bind : MBind M := λ A B k c σ,
  match c σ with
  | (σ', inl e) => (σ', inl e)
  | (σ', inr x) => k x σ'
  end.

Definition throw {A} (e : exn) : M A := λ σ, (σ, inl e).

(** The outcome of a call on values, in the store monad. *)
Definition lift {A} (r : result A) : M A := λ σ, (σ, r).

(** A new object. *)
Definition alloc (o : obj) : M loc := λ σ,
  let l := fresh (dom σ) in (<[l:=o]> σ, inr l).

(** The object a reference points to (a reference to nothing does not
    occur in Python; the model answers it with an exception). *)
Definition load (l : loc) : M obj := λ σ,
  (σ, match σ !! l with Some o => inr o | None => inl TypeError end).

(** The one write: [ax.barh(labels, widths)] draws on the axes object.
    The calls that follow it in the loop (title, ticks, spines) write to
    the same axes and are not told apart. *)
Definition barh (ax : loc) (labels : list string) (widths : list float64) : M unit :=
  o ← load ax;
  match o with
  | Axes _ => λ σ, (<[ax:=Axes (Some (labels, widths))]> σ, inr ())
  | _ => throw AttributeError
  end.

(** [model.components_] *)
Definition get_components_ (model : loc) : M loc :=
  o ← load model;
  match o with Model c => mret c | _ => throw AttributeError end.

Definition load_array2 (l : loc) : M (list (list float64)) :=
  o ← load l;
  match o with Array2 m => mret m | _ => throw TypeError end.

Definition load_names (l : loc) : M (list string) :=
  o ← load l;
  match o with StrList names => mret names | _ => throw TypeError end.

Fixpoint alloc_axes (k : nat) : M (list loc) :=
  match k with
  | 0 => mret []
  | S k => ax ← alloc (Axes None); axs ← alloc_axes k; mret (ax :: axs)
  end.

(** [plt.subplots(n_row, n_col, ...)]: matplotlib refuses a grid without
    rows or columns, and otherwise creates the figure and its axes. *)
Definition subplots (n_row n_col : Z) : M (loc * list loc) :=
  if ((n_row <=? 0) || (n_col <=? 0))%Z then throw ValueError
  else
    axes ← alloc_axes (Z.to_nat (n_row * n_col));
    fig ← alloc (Figure axes);
    mret (fig, axes).

(** [axes.flatten()]: for a grid of one cell [subplots] returns the lone
    axes, which has no [flatten]. *)
Definition flatten (n_row n_col : Z) (axes : list loc) : M (list loc) :=
  if (n_row * n_col =? 1)%Z then throw AttributeError else mret axes.

(** [for topic_idx, topic in enumerate(rows)] *)
Fixpoint for_topics (body : nat → list float64 → M unit) (topic_idx : nat)
  (rows : list (list float64)) : M unit :=
  match rows with
  | [] => mret ()
  | topic :: rows =>
      _ ← body topic_idx topic; for_topics body (S topic_idx) rows
  end.

Section plot.
Context `{Argsort}.

(** One turn of the loop. *)
Definition plot_topic (feature_names : loc) (n_top_words : Z) (axes : list loc)
  (topic_idx : nat) (topic : list float64) : M unit :=
  ind ← alloc (IntArray (argsort topic));
  names ← load_names feature_names;
  feats ← lift (top_features names (top_features_ind topic n_top_words));
  _ ← alloc (StrList feats);
  ws ← lift (weights topic (top_features_ind topic n_top_words));
  _ ← alloc (Array1 ws);
  ax ← lift (getitem axes topic_idx);
  barh ax feats ws.

Definition plot_top_words (model feature_names : loc)
  (n_top_words n_row n_col : Z) (normalize : bool) : M (loc * list loc) :=
  '(fig, axes) ← subplots n_row n_col;
  axes ← flatten n_row n_col axes;
  c ← get_components_ model;
  c ← (if normalize then
         m ← load_array2 c;
         _ ← alloc (Array1 (sum_axis1 m));
         alloc (Array2 (divide_column m (sum_axis1 m)))
       else mret c);
  rows ← load_array2 c;
  _ ← for_topics (plot_topic feature_names n_top_words axes) 0 rows;
  mret (fig, axes).

End plot.

End Store.

(** ** A stable argsort

    Insertion of the positions from the last to the first, each one put
    before the first position whose value is not smaller: positions of
    equal value stay in ascending order.  This is what numpy's default
    sort does on short arrays, and what [kind='stable'] does on all. *)

Fixpoint insert_position (a : list float64) (i : nat) (l : list nat) : list nat :=
  match l with
  | [] => [i]
  | j :: l' =>
      if sort_le (key a i) (key a j) then i :: l
      else j :: insert_position a i l'
  end.

Definition stable_argsort (a : list float64) : list nat :=
  foldr (insert_position a) [] (seq 0 (length a)).

(** ** The vocabulary of the statements *)

(** A weight matrix of [numTerms] columns. *)
Definition has_columns (m : list (list float64)) (numTerms : nat) : Prop :=
  Forall (λ row, length row = numTerms) m.

(** Weights that never go up along the list: no weight is below a later
    one, and a weight that is a number is at least every later one (NaN,
    which compares with nothing, can only come first). *)
Definition non_increasing (ws : list float64) : Prop :=
  ∀ p q w1 w2, p < q → ws !! p = Some w1 → ws !! q = Some w2 →
    lt w1 w2 = false ∧ (isnan w1 = false → le w2 w1 = true).

(** The decimal literal [n/d]. *)
Definition dec (n : Z) (d : positive) : float64 := Fin (Q2Qc (n # d)).

(** [row / row.sum()] *)
Definition normalize_row (row : list float64) : list float64 :=
  (λ x, div x (sum row)) <$> row.

(** How many entries [a[: -n - 1 : -1]] keeps of an array of [len]: the
    last [n] when [n >= 0], and all but the first [-n] when [n < 0]; never
    more than there are, never fewer than none. *)
Definition kept (n : Z) (len : nat) : nat :=
  if (n <? 0)%Z then Z.to_nat (Z.of_nat len + n) else Z.to_nat n `min` len.

(** The label [feature_names[i]] of a column within range. *)
Definition name_at (feature_names : list string) (i : nat) : string :=
  default EmptyString (feature_names !! i).

(** The chart of a topic all of whose labels exist. *)
Definition chart_of `{Argsort} (feature_names : list string) (n_top_words : Z)
  (topic : list float64) : list string * list float64 :=
  (name_at feature_names <$> top_features_ind topic n_top_words,
   key topic <$> top_features_ind topic n_top_words).

(** Position [i] holds a value that sorts no later than the one at [j]. *)
Definition key_le (a : list float64) (i j : nat) : Prop :=
  sort_le (key a i) (key a j) = true.

(** The order of a stable sort: by value, and by position among equals. *)
Definition stable_le (a : list float64) (i j : nat) : Prop :=
  key_le a i j ∧ (key_le a j i → i < j).



(** * The featurizer of the word-embedding notebooks

    <<
    def featurizer(documents, to_train, vector_size=50, window=6, sg=0):
        sentences = [word_tokenize(doc) for doc in documents]
        model = Word2Vec(sentences=sentences, vector_size=vector_size,
                         window=window, min_count=1, sg=sg)
        X = np.zeros((len(to_train), vector_size))
        for idx, doc in enumerate(to_train):
            tokens = word_tokenize(doc)
            n_tokens = len(tokens)
            for token in tokens:
                X[idx] += model.wv.get_vector(token)
            X[idx] /= n_tokens
        return X
    >>

    The lesson notebook runs the same loop at top level on a model trained
    with [min_count=1].  nltk's tokenizer and gensim's training are the
    libraries': they are taken as an interface. *)

Module Featurizer.

Inductive exc : Type :=
  | KeyError (token : string)
  | BroadcastError
  | TrainingError.

(** [nltk.tokenize.word_tokenize] *)
Class Tokenizer : Type := {
  word_tokenize : string → list string
}.

(** [gensim.models.Word2Vec(sentences, vector_size, window, min_count, sg)]
    and its [wv]: training may fail; when it returns with [min_count = 1],
    every token of the sentences has a vector, and every vector has
    [vector_size] entries. *)
Class Word2Vec : Type := {
  fit : list (list string) → nat → Z → Z → Z → exc + gmap string (list float64);
  fit_vocabulary sentences vector_size window sg wv token :
    fit sentences vector_size window 1 sg = inr wv →
    token ∈ mjoin sentences → is_Some (wv !! token);
  fit_vector_size sentences vector_size window min_count sg wv token v :
    fit sentences vector_size window min_count sg = inr wv →
    wv !! token = Some v → length v = vector_size
}.

(** [wv.get_vector(token)] *)
Definition get_vector (wv : gmap string (list float64)) (token : string)
  : exc + list float64 :=
  match wv !! token with
  | Some v => inr v
  | None => inl (KeyError token)
  end.

(** [np.zeros(d)] *)
Definition zeros (d : nat) : list float64 := replicate d zero.

(** [row += v] on a row of a float array: [v] has the length of the row,
    or one entry that is added to every entry of the row. *)
Definition iadd (row v : list float64) : exc + list float64 :=
  if decide (length v = length row) then inr (zip_with add row v)
  else match v with
       | [y] => inr ((λ x, add x y) <$> row)
       | _ => inl BroadcastError
       end.

(** The integer [n] as a float. *)
Definition of_nat (n : nat) : float64 := Fin (Q2Qc (inject_Z (Z.of_nat n))).

(** [row /= n] *)
Definition idiv (row : list float64) (n : nat) : list float64 :=
  (λ x, div x (of_nat n)) <$> row.

(** [for token in tokens: row += wv.get_vector(token)] *)
Fixpoint accumulate (wv : gmap string (list float64)) (row : list float64)
  (tokens : list string) : exc + list float64 :=
  match tokens with
  | [] => inr row
  | token :: tokens =>
      match get_vector wv token with
      | inl e => inl e
      | inr v =>
          match iadd row v with
          | inl e => inl e
          | inr row => accumulate wv row tokens
          end
      end
  end.

Section featurizer.
Context `{Tokenizer} `{Word2Vec}.

(** One turn of the outer loop: the row of [doc]. *)
Definition featurize (wv : gmap string (list float64)) (vector_size : nat)
  (doc : string) : exc + list float64 :=
  let tokens := word_tokenize doc in
  let n_tokens := length tokens in
  match accumulate wv (zeros vector_size) tokens with
  | inl e => inl e
  | inr row => inr (idiv row n_tokens)
  end.

(** The outer loop. *)
Fixpoint featurize_all (wv : gmap string (list float64)) (vector_size : nat)
  (to_train : list string) : exc + list (list float64) :=
  match to_train with
  | [] => inr []
  | doc :: to_train =>
      match featurize wv vector_size doc with
      | inl e => inl e
      | inr row =>
          match featurize_all wv vector_size to_train with
          | inl e => inl e
          | inr X => inr (row :: X)
          end
      end
  end.

Definition featurizer (documents to_train : list string)
  (vector_size : nat) (window sg : Z) : exc + list (list float64) :=
  let sentences := word_tokenize <$> documents in
  match fit sentences vector_size window 1 sg with
  | inl e => inl e
  | inr wv => featurize_all wv vector_size to_train
  end.

End featurizer.

End Featurizer.

(** * The tweet preprocessing of the bag-of-words and embedding notebooks

    <<
    def preprocess(text):
        text = text.lower()
        url_pattern = r'...'
        text = re.sub(url_pattern, ' URL ', text)
        text = re.sub('\d+', ' DIGIT ', text)
        text = re.sub(r'(?:^|\s)[???#]{1}(\w+)', ' HASHTAG ', text)
        text = re.sub(r'@(\w+)', ' USER ', text)
        text = re.sub(r'\s+', ' ', text).strip()
        return text
    >>

    The bag-of-words solutions use the URL pattern
    [(http|ftp|https):\/\/([\w_-]+(?:(?:\.[\w_-]+)+))([\w.,@?^=%&:\/~+#-]*[\w@?^=%&\/~+#-])],
    the two embedding notebooks use [https?:\/\/.*[\r\n]*]. *)

(** ** Python strings *)

Module Str.
Import Stdlib.Strings.Ascii.

(** A [str] is a sequence of code points.  What Python knows of a code
    point comes from the Unicode database, which is taken as an interface;
    only the classes of the ASCII characters are pinned down. *)
Definition between (a b c : N) : bool := (a <=? c)%N && (c <=? b)%N.

Class Unicode : Type := {
  isalnum : N → bool;
  isdecimal : N → bool;
  isspace : N → bool;
  lower : list N → list N;
  isdecimal_ascii (c : N) : (c < 128)%N → isdecimal c = between 48 57 c;
  isalnum_ascii (c : N) :
    (c < 128)%N →
    isalnum c = between 48 57 c || between 65 90 c || between 97 122 c;
  isspace_ascii (c : N) :
    (c < 128)%N → isspace c = between 9 13 c || between 28 32 c
}.

(** A string literal of the source. *)
Definition str (s : string) : list N :=
  Ascii.N_of_ascii <$> String.list_ascii_of_string s.

(** The code point of a one-character literal. *)
Definition ord (c : Ascii.ascii) : N := Ascii.N_of_ascii c.
Arguments ord c%_char.

(** [w in text] *)
Definition contains (text w : list N) : Prop :=
  ∃ l1 l2, text = l1 ++ w ++ l2.

(** [text.strip()]: without the whitespace at both ends. *)
Fixpoint drop_while (p : N → bool) (text : list N) : list N :=
  match text with
  | c :: text' => if p c then drop_while p text' else text
  | [] => []
  end.

Definition lstrip `{Unicode} (text : list N) : list N :=
  drop_while isspace text.

Definition strip `{Unicode} (text : list N) : list N :=
  reverse (lstrip (reverse (lstrip text))).

End Str.

(** ** Python regular expressions *)

Module Re.
Import Stdlib.Strings.Ascii.
Import Str.

(** The patterns of the source need sets of characters (a literal, a class
    such as [\w], a bracket expression), the start of the string [^],
    sequence, ordered alternation and greedy repetition [{min,max}].
    Groups only delimit: nothing refers back to them. *)
Inductive regex : Type :=
  | Eps
  | Set_ (p : N → bool)
  | Bol
  | Seq (r1 r2 : regex)
  | Alt (r1 r2 : regex)
  | Rep (r : regex) (min : nat) (max : option nat).

Definition Star (r : regex) : regex := Rep r 0 None.
Definition Plus (r : regex) : regex := Rep r 1 None.
Definition Opt (r : regex) : regex := Rep r 0 (Some 1).

(** A literal character, a literal string, a bracket expression of
    literal characters. *)
Definition Chr (c : Ascii.ascii) : regex := Set_ (λ x, bool_decide (x = ord c)).
Arguments Chr c%_char.

Definition Lit (s : string) : regex :=
  foldr (λ c r, Seq (Chr c) r) Eps (String.list_ascii_of_string s).

Definition one_of (s : string) (x : N) : bool := bool_decide (x ∈ str s).

(** What a match continues with: the position and the rest of the text. *)
Definition cont : Type := nat → list N → option (list N).

(** Greedy repetition of [body]: one more turn is tried first, and a turn
    has to consume something; giving up the turn comes second.  At most
    [length s] turns consume something, which is what [fuel] counts. *)
Fixpoint rep (body : nat → list N → cont → option (list N)) (fuel : nat)
  (min : nat) (max : option nat) (pos : nat) (s : list N) (k : cont)
  : option (list N) :=
  match max with
  | Some 0 => k pos s
  | _ =>
      match fuel with
      | 0 => match min with 0 => k pos s | S _ => None end
      | S fuel =>
          match body pos s (λ pos' s',
                  if bool_decide (length s' < length s)
                  then rep body fuel (pred min) (pred <$> max) pos' s' k
                  else None) with
          | Some rest => Some rest
          | None => match min with 0 => k pos s | S _ => None end
          end
      end
  end.

(** The backtracking matcher: [exec r pos s k] is the first way, in the
    order Python tries them, to match [r] at position [pos] with [s] to
    read such that [k] accepts what follows. *)
Fixpoint exec (r : regex) (pos : nat) (s : list N) (k : cont)
  : option (list N) :=
  match r with
  | Eps => k pos s
  | Set_ p =>
      match s with
      | c :: s' => if p c then k (S pos) s' else None
      | [] => None
      end
  | Bol => match pos with 0 => k pos s | S _ => None end
  | Seq r1 r2 => exec r1 pos s (λ pos' s', exec r2 pos' s' k)
  | Alt r1 r2 =>
      match exec r1 pos s k with
      | Some rest => Some rest
      | None => exec r2 pos s k
      end
  | Rep r min max => rep (exec r) (length s) min max pos s k
  end.

(** [pattern.match(text, pos)]: the text after the match, if any. *)
Definition match_at (r : regex) (pos : nat) (s : list N) : option (list N) :=
  exec r pos s (λ _ rest, Some rest).

(** [re.sub(pattern, repl, text)] for a replacement without escapes: the
    text is read from the left; where the pattern matches, the match is
    replaced and reading resumes after it ([skip] counts what is left of
    it), elsewhere the character is kept.  A match of nothing is not
    looked at: the patterns of the source never match the empty string. *)
Fixpoint sub_from (r : regex) (repl : list N) (pos skip : nat) (s : list N)
  : list N :=
  match s with
  | [] => []
  | c :: s' =>
      match skip with
      | S skip => sub_from r repl (S pos) skip s'
      | 0 =>
          match match_at r pos s with
          | Some rest =>
              match length s - length rest with
              | 0 => c :: sub_from r repl (S pos) 0 s'
              | S len => repl ++ sub_from r repl (S pos) len s'
              end
          | None => c :: sub_from r repl (S pos) 0 s'
          end
      end
  end.

Definition sub (r : regex) (repl : list N) (text : list N) : list N :=
  sub_from r repl 0 0 text.

(** Whether a pattern can match without consuming anything. *)
Fixpoint nullable (r : regex) : bool :=
  match r with
  | Eps | Bol => true
  | Set_ _ => false
  | Seq r1 r2 => nullable r1 && nullable r2
  | Alt r1 r2 => nullable r1 || nullable r2
  | Rep r min max =>
      match min, max with
      | 0, _ | _, Some 0 => true
      | S _, _ => nullable r
      end
  end.

(** What a pattern may match, whatever the order in which Python tries:
    [matches r pos s pos' rest] when [r] matches at [pos] the part of [s]
    before [rest]. *)
Inductive matches : regex → nat → list N → nat → list N → Prop :=
  | matches_Eps pos s : matches Eps pos s pos s
  | matches_Set (p : N → bool) pos c s :
      p c = true → matches (Set_ p) pos (c :: s) (S pos) s
  | matches_Bol s : matches Bol 0 s 0 s
  | matches_Seq r1 r2 pos s pos1 s1 pos2 s2 :
      matches r1 pos s pos1 s1 → matches r2 pos1 s1 pos2 s2 →
      matches (Seq r1 r2) pos s pos2 s2
  | matches_Alt_l r1 r2 pos s pos1 s1 :
      matches r1 pos s pos1 s1 → matches (Alt r1 r2) pos s pos1 s1
  | matches_Alt_r r1 r2 pos s pos2 s2 :
      matches r2 pos s pos2 s2 → matches (Alt r1 r2) pos s pos2 s2
  | matches_Rep_stop r max pos s : matches (Rep r 0 max) pos s pos s
  | matches_Rep_none r min pos s : matches (Rep r min (Some 0)) pos s pos s
  | matches_Rep_turn r min max pos s pos1 s1 pos2 s2 :
      max ≠ Some 0 →
      matches r pos s pos1 s1 →
      length s1 < length s →
      matches (Rep r (pred min) (pred <$> max)) pos1 s1 pos2 s2 →
      matches (Rep r min max) pos s pos2 s2.

(** Whether every repetition repeats something that consumes. *)
Fixpoint consuming (r : regex) : bool :=
  match r with
  | Eps | Bol | Set_ _ => true
  | Seq r1 r2 | Alt r1 r2 => consuming r1 && consuming r2
  | Rep r _ _ => negb (nullable r) && consuming r
  end.

End Re.

(** ** The patterns and the two versions of [preprocess] *)

Module Preprocess.
Import Stdlib.Strings.Ascii.
Import Str Re.

Section patterns.
Context `{Unicode}.

(** [\w] and [.] on a [str] pattern; [\d] is [isdecimal] and [\s] is
    [isspace]. *)
Definition word (c : N) : bool := isalnum c || bool_decide (c = ord "_").
Definition any_but_newline (c : N) : bool := negb (bool_decide (c = 10%N)).

(** ['\d+'] *)
Definition digit_pattern : regex := Plus (Set_ isdecimal).

(** [r'(?:^|\s)[???#]{1}(\w+)'] *)
Definition hashtag_pattern : regex :=
  Seq (Alt Bol (Set_ isspace))
    (Seq (Rep (Set_ (one_of "???#")) 1 (Some 1)) (Plus (Set_ word))).

(** [r'@(\w+)'] *)
Definition user_pattern : regex := Seq (Chr "@") (Plus (Set_ word)).

(** [r'\s+'] *)
Definition blankspace_pattern : regex := Plus (Set_ isspace).

(** The steps after the URLs, the same in every notebook. *)
Definition after_urls (text : list N) : list N :=
  let text := sub digit_pattern (str " DIGIT ") text in
  let text := sub hashtag_pattern (str " HASHTAG ") text in
  let text := sub user_pattern (str " USER ") text in
  strip (sub blankspace_pattern (str " ") text).

(** A text in which blank space is single spaces between other
    characters. *)
Definition single_spaced (text : list N) : Prop :=
  Forall (λ c, isspace c = true → c = ord " ") text ∧
  (∀ l1 a b l2, text = l1 ++ a :: b :: l2 →
     isspace a = true → isspace b = false) ∧
  (∀ c, head text = Some c → isspace c = false) ∧
  (∀ c, last text = Some c → isspace c = false).

End patterns.

(** The bag-of-words solutions. *)
Module BagOfWords.
Section preprocess.
Context `{Unicode}.

(** [[\w_-]], [[\w.,@?^=%&:\/~+#-]] and [[\w@?^=%&\/~+#-]] *)
Definition host_char (c : N) : bool := word c || one_of "_-" c.
Definition path_char (c : N) : bool := word c || one_of ".,@?^=%&:/~+#-" c.
Definition last_char (c : N) : bool := word c || one_of "@?^=%&/~+#-" c.

Definition url_pattern : regex :=
  Seq (Alt (Lit "http") (Alt (Lit "ftp") (Lit "https")))
    (Seq (Lit "://")
       (Seq (Seq (Plus (Set_ host_char))
               (Plus (Seq (Chr ".") (Plus (Set_ host_char)))))
          (Seq (Star (Set_ path_char)) (Set_ last_char)))).

Definition preprocess (text : list N) : list N :=
  let text := lower text in
  let text := sub url_pattern (str " URL ") text in
  after_urls text.

End preprocess.
End BagOfWords.

(** The two embedding notebooks. *)
Module Embeddings.
Section preprocess.
Context `{Unicode}.

Definition url_pattern : regex :=
  Seq (Lit "http")
    (Seq (Opt (Chr "s"))
       (Seq (Lit "://")
          (Seq (Star (Set_ any_but_newline))
             (Star (Set_ (λ c, bool_decide (c = 13%N) || bool_decide (c = 10%N))))))).

Definition preprocess (text : list N) : list N :=
  let text := lower text in
  let text := sub url_pattern (str " URL ") text in
  after_urls text.

End preprocess.
End Embeddings.

End Preprocess.

(** * Facts *)

(** ** float64 *)

Module Float64Facts.

Lemma Qc_eqb_eq (a b : Qc) : Qc_eqb a b = true ↔ a = b.
Proof.
  unfold Qc_eqb. rewrite Qeq_bool_iff. split.
  - apply Qc_is_canon.
  - intros ->. reflexivity.
Qed.

Lemma Qc_leb_le (a b : Qc) : Qc_leb a b = true ↔ (a <= b)%Qc.
Proof. unfold Qc_leb, Qcle. apply Qle_bool_iff. Qed.

Lemma Qc_ltb_lt (a b : Qc) : Qc_ltb a b = true ↔ (a < b)%Qc.
Proof.
  unfold Qc_ltb, Qclt. rewrite negb_true_iff, <- not_true_iff_false, Qle_bool_iff.
  split; [apply Qnot_le_lt | apply Qlt_not_le].
Qed.

Lemma Qc_leb_refl (a : Qc) : Qc_leb a a = true.
Proof. apply Qc_leb_le, Qcle_refl. Qed.

Lemma Qc_leb_trans (a b c : Qc) :
  Qc_leb a b = true → Qc_leb b c = true → Qc_leb a c = true.
Proof. rewrite !Qc_leb_le. apply Qcle_trans. Qed.

Lemma Qc_leb_total (a b : Qc) : Qc_leb a b = true ∨ Qc_leb b a = true.
Proof.
  rewrite !Qc_leb_le. destruct (Qclt_le_dec a b) as [Hlt|Hle]; [left|right]; [|done].
  by apply Qclt_le_weak.
Qed.

Lemma Qc_leb_antisym (a b : Qc) :
  Qc_leb a b = true → Qc_leb b a = true → a = b.
Proof. rewrite !Qc_leb_le. apply Qcle_antisym. Qed.

Lemma Qc_ltb_leb (a b : Qc) : Qc_ltb a b = negb (Qc_leb b a).
Proof. reflexivity. Qed.

Lemma sort_le_refl (x : float64) : sort_le x x = true.
Proof. destruct x; try reflexivity. apply Qc_leb_refl. Qed.

Lemma sort_le_trans (x y z : float64) :
  sort_le x y = true → sort_le y z = true → sort_le x z = true.
Proof.
  destruct x, y, z; simpl; try done. apply Qc_leb_trans.
Qed.

Lemma sort_le_total (x y : float64) : sort_le x y = true ∨ sort_le y x = true.
Proof.
  destruct x, y; simpl; auto. apply Qc_leb_total.
Qed.

Lemma sort_le_antisym (x y : float64) :
  sort_le x y = true → sort_le y x = true → x = y.
Proof.
  destruct x, y; simpl; try done.
  intros H1 H2. f_equal. by apply Qc_leb_antisym.
Qed.

(** Apart from NaN, numpy's sort order is the IEEE order. *)
Lemma sort_le_le (x y : float64) :
  isnan y = false → sort_le x y = le x y.
Proof. unfold sort_le. by intros ->. Qed.

Lemma sort_le_nan (x : float64) : sort_le NaN x = true → x = NaN.
Proof. by destruct x. Qed.

(** [x < y] fails as soon as [y] comes before [x] in the sort order. *)
Lemma sort_le_not_lt (x y : float64) : sort_le y x = true → lt x y = false.
Proof.
  unfold sort_le. destruct x, y; simpl; try done.
  rewrite Qc_ltb_leb. by intros ->.
Qed.

Lemma add_comm (x y : float64) : add x y = add y x.
Proof. destruct x, y; simpl; try done. f_equal. apply Qcplus_comm. Qed.

Lemma add_assoc (x y z : float64) : add x (add y z) = add (add x y) z.
Proof. destruct x, y, z; simpl; try done. f_equal. apply Qcplus_assoc. Qed.

(** Without rounding the order of the additions is immaterial: summing
    from the left gives the same. *)
Lemma sum_left_to_right (a : list float64) : sum a = fold_left add a zero.
Proof.
  unfold sum. symmetry. apply (fold_symmetric add); [|apply add_comm].
  intros x y z. apply add_assoc.
Qed.

End Float64Facts.
Import Float64Facts.

(** ** Sorting positions *)

Section sorting.
Variable a : list float64.

Lemma key_le_refl i : key_le a i i.
Proof. apply sort_le_refl. Qed.

Lemma key_le_trans i j k : key_le a i j → key_le a j k → key_le a i k.
Proof. apply sort_le_trans. Qed.

Lemma key_le_total i j : key_le a i j ∨ key_le a j i.
Proof. apply sort_le_total. Qed.

Lemma StronglySorted_weaken {A} (R S : relation A) (l : list A) :
  (∀ x y, R x y → S x y) → StronglySorted R l → StronglySorted S l.
Proof.
  intros HRS. induction 1 as [|x l _ IH Hall]; constructor; [done|].
  eapply Forall_impl; [exact Hall|]. auto.
Qed.

Lemma insert_position_perm i l : insert_position a i l ≡ₚ i :: l.
Proof.
  induction l as [|j l IH]; simpl; [done|].
  destruct (sort_le _ _); [done|].
  rewrite IH. apply Permutation_swap.
Qed.

Lemma foldr_insert_position_perm l : foldr (insert_position a) [] l ≡ₚ l.
Proof.
  induction l as [|i l IH]; simpl; [done|].
  by rewrite insert_position_perm, IH.
Qed.

Lemma insert_position_stable i l :
  Forall (λ j, i < j) l →
  StronglySorted (stable_le a) l →
  StronglySorted (stable_le a) (insert_position a i l).
Proof.
  intros Hlt Hs. induction Hs as [|j l Hs IH Hall]; simpl.
  { repeat constructor. }
  apply Forall_cons in Hlt as [Hij Hlt].
  destruct (sort_le (key a i) (key a j)) eqn:Hle.
  - constructor; [by constructor|].
    constructor; [by split|].
    rewrite Forall_forall in Hall, Hlt |- *. intros k Hk. split.
    + eapply key_le_trans; [exact Hle|]. by apply Hall.
    + intros _. by apply Hlt.
  - constructor; [by apply IH|].
    rewrite insert_position_perm. constructor; [|done]. split.
    + destruct (key_le_total i j) as [Hc|Hc]; [|done].
      unfold key_le in Hc. congruence.
    + unfold key_le. congruence.
Qed.

Lemma foldr_insert_position_stable s n :
  StronglySorted (stable_le a) (foldr (insert_position a) [] (seq s n)).
Proof.
  revert s. induction n as [|n IH]; intros s; simpl; [constructor|].
  apply insert_position_stable; [|apply IH].
  rewrite foldr_insert_position_perm. apply Forall_forall.
  intros j Hj%elem_of_seq. lia.
Qed.

End sorting.

Lemma stable_argsort_perm a : stable_argsort a ≡ₚ seq 0 (length a).
Proof. apply foldr_insert_position_perm. Qed.

Lemma stable_argsort_stable a : StronglySorted (stable_le a) (stable_argsort a).
Proof. apply foldr_insert_position_stable. Qed.

Lemma stable_argsort_sorted a :
  StronglySorted (λ i j, sort_le (key a i) (key a j) = true) (stable_argsort a).
Proof.
  eapply StronglySorted_weaken; [|apply stable_argsort_stable].
  by intros i j [? _].
Qed.

(** The stable sort is an argsort. *)
Definition Stable : Argsort :=
  {| argsort := stable_argsort;
     argsort_perm := stable_argsort_perm;
     argsort_sorted := stable_argsort_sorted |}.

(** ** Comprehensions and indexing *)

(** Unfolds the plumbing of [result]. *)
Ltac unfold_result :=
  unfold mret, result_ret, mbind, result_bind, raise in *; simpl in *.

Section for_each.
Context {A B : Type} (f : A → result B).

Lemma for_each_inr l out :
  for_each f l = inr out ↔ Forall2 (λ x y, f x = inr y) l out.
Proof.
  revert out. induction l as [|x l IH]; intros out; simpl.
  - split; [intros [= <-]; constructor | by inversion 1].
  - destruct (f x) as [e|y] eqn:Hx; simpl.
    { split; [done | inversion 1; congruence]. }
    destruct (for_each f l) as [e|ys] eqn:Hl; simpl.
    + split; [done|]. inversion 1 as [|???? _ Hys]; subst.
      apply IH in Hys. congruence.
    + split.
      * intros [= <-]. constructor; [done | by apply IH].
      * inversion 1 as [|???? Hy Hys]; subst.
        apply IH in Hys. unfold_result. congruence.
Qed.

(** A comprehension raises exactly when some element does, after the ones
    before it went through. *)
Lemma for_each_inl l e :
  for_each f l = inl e ↔
  ∃ l1 x l2 ys, l = l1 ++ x :: l2 ∧ for_each f l1 = inr ys ∧ f x = inl e.
Proof.
  split.
  - induction l as [|x l IH]; simpl; [done|].
    destruct (f x) as [e'|y] eqn:Hx; simpl.
    { intros [= <-]. by exists [], x, l, []. }
    destruct (for_each f l) as [e'|ys] eqn:Hl; simpl; [|done].
    intros [= <-]. destruct IH as (l1 & x2 & l2 & ys & -> & Hl1 & Hx2); [done|].
    exists (x :: l1), x2, l2, (y :: ys). simpl. by rewrite Hx, Hl1.
  - intros (l1 & x & l2 & ys & -> & Hl1 & Hx). revert ys Hl1.
    induction l1 as [|x1 l1 IH]; intros ys Hl1; simpl.
    { by rewrite Hx. }
    simpl in Hl1. destruct (f x1) as [|y1]; [done|simpl in *].
    destruct (for_each f l1) as [|ys1]; [done|].
    by rewrite (IH ys1).
Qed.

Lemma for_each_fmap (g : A → B) l :
  Forall (λ x, f x = inr (g x)) l → for_each f l = inr (g <$> l).
Proof.
  induction 1 as [|x l Hx _ IH]; simpl; [done|]. by rewrite Hx, IH.
Qed.

Lemma for_each_length l out : for_each f l = inr out → length out = length l.
Proof. rewrite for_each_inr. intros Hall. symmetry. by eapply Forall2_length. Qed.

End for_each.

Lemma getitem_inr {A} (l : list A) i x : getitem l i = inr x ↔ l !! i = Some x.
Proof. unfold getitem. destruct (l !! i); unfold_result; naive_solver. Qed.

Lemma getitem_inl {A} (l : list A) i e :
  getitem l i = inl e ↔ e = IndexError ∧ length l ≤ i.
Proof.
  unfold getitem. destruct (l !! i) eqn:Hi; simpl.
  - apply lookup_lt_Some in Hi. unfold_result. split; [done | lia].
  - apply lookup_ge_None in Hi. unfold_result.
    split; [by intros [= <-] | by intros [-> _]].
Qed.

(** Within range, indexing returns the entry. *)
Lemma getitem_lt {A} (d : A) (l : list A) i :
  i < length l → getitem l i = inr (default d (l !! i)).
Proof.
  intros Hi. apply getitem_inr.
  destruct (lookup_lt_is_Some_2 l i Hi) as [x ->]. done.
Qed.

(** ** The selection *)

Lemma kept_le n len : kept n len ≤ len.
Proof. unfold kept. case_match; lia. Qed.

Lemma slice_down_to_take {A} (a : list A) (n : Z) :
  slice_down_to a (- n - 1) = take (kept n (length a)) (reverse a).
Proof.
  unfold slice_down_to, kept. f_equal.
  destruct (Z.ltb_spec n 0), (Z.ltb_spec (- n - 1) 0); try lia.
  - destruct (Z.leb_spec (Z.of_nat (length a)) (- n - 1)); lia.
  - destruct (Z.ltb_spec (- n - 1 + Z.of_nat (length a)) 0); lia.
Qed.

Section sorted_lists.
Context {A : Type} (R : relation A).

Lemma StronglySorted_reverse l :
  StronglySorted R l → StronglySorted (flip R) (reverse l).
Proof.
  induction 1 as [|x l _ IH Hall]; [constructor|].
  rewrite reverse_cons. apply StronglySorted_app_2; [|done|repeat constructor].
  intros y ? Hy ->%list_elem_of_singleton. rewrite elem_of_reverse in Hy.
  rewrite Forall_forall in Hall. by apply Hall.
Qed.

Lemma StronglySorted_take n l :
  StronglySorted R l → StronglySorted R (take n l).
Proof.
  intros Hs. rewrite <- (take_drop n l) in Hs.
  by apply StronglySorted_app_1_l in Hs.
Qed.

(** In a sorted list the relation holds between any two positions. *)
Lemma StronglySorted_lookup l p q x y :
  StronglySorted R l → p < q → l !! p = Some x → l !! q = Some y → R x y.
Proof.
  intros Hs. revert p q. induction Hs as [|z l _ IH Hall]; intros p q Hpq Hp Hq.
  { done. }
  destruct q as [|q]; [lia|]. simpl in Hq. destruct p as [|p]; simpl in Hp.
  - simplify_eq. rewrite Forall_forall in Hall.
    apply Hall. by eapply list_elem_of_lookup_2.
  - apply (IH p q); [lia|done..].
Qed.

End sorted_lists.

Section selection.
Context `{Argsort}.
Implicit Types (topic : list float64) (n : Z) (names : list string).

Lemma argsort_length topic : length (argsort topic) = length topic.
Proof. by rewrite (Permutation_length (argsort_perm topic)), length_seq. Qed.

Lemma argsort_NoDup topic : NoDup (argsort topic).
Proof. rewrite argsort_perm. apply NoDup_seq. Qed.

Lemma argsort_lt topic i : i ∈ argsort topic → i < length topic.
Proof. rewrite argsort_perm, elem_of_seq. lia. Qed.

Lemma top_features_ind_take topic n :
  top_features_ind topic n = take (kept n (length topic)) (reverse (argsort topic)).
Proof.
  unfold top_features_ind. by rewrite slice_down_to_take, argsort_length.
Qed.

Lemma top_features_ind_length topic n :
  length (top_features_ind topic n) = kept n (length topic).
Proof.
  rewrite top_features_ind_take, length_take, length_reverse, argsort_length.
  pose proof (kept_le n (length topic)). lia.
Qed.

Lemma top_features_ind_elem_of topic n i :
  i ∈ top_features_ind topic n → i ∈ argsort topic.
Proof.
  rewrite top_features_ind_take. intros Hi.
  by apply elem_of_reverse, (subseteq_take (kept n (length topic))).
Qed.

Lemma top_features_ind_lt topic n i :
  i ∈ top_features_ind topic n → i < length topic.
Proof. intros Hi. by eapply argsort_lt, top_features_ind_elem_of. Qed.

Lemma top_features_ind_NoDup topic n : NoDup (top_features_ind topic n).
Proof.
  rewrite top_features_ind_take.
  eapply sublist_NoDup; [|apply sublist_take].
  rewrite reverse_Permutation. apply argsort_NoDup.
Qed.

Lemma top_features_ind_sorted topic n :
  StronglySorted (flip (key_le topic)) (top_features_ind topic n).
Proof.
  rewrite top_features_ind_take.
  apply StronglySorted_take, StronglySorted_reverse, argsort_sorted.
Qed.

(** Asking for as many as there are, or more, selects every position. *)
Lemma top_features_ind_all topic n :
  (Z.of_nat (length topic) ≤ n)%Z →
  top_features_ind topic n = reverse (argsort topic).
Proof.
  intros Hn. rewrite top_features_ind_take. apply take_ge.
  rewrite length_reverse, argsort_length. unfold kept.
  destruct (Z.ltb_spec n 0); lia.
Qed.

Lemma weights_inr topic n :
  weights topic (top_features_ind topic n)
  = inr (key topic <$> top_features_ind topic n).
Proof.
  apply for_each_fmap, Forall_forall. intros i Hi.
  by apply getitem_lt, (top_features_ind_lt _ n).
Qed.

Lemma top_features_inr names ind :
  Forall (λ i, i < length names) ind →
  top_features names ind = inr (name_at names <$> ind).
Proof.
  intros Hall. apply for_each_fmap. eapply Forall_impl; [exact Hall|].
  intros i Hi. by apply getitem_lt.
Qed.

Lemma top_features_inl names ind e :
  top_features names ind = inl e ↔
  e = IndexError ∧ ∃ i, i ∈ ind ∧ length names ≤ i.
Proof.
  unfold top_features. rewrite for_each_inl. split.
  - intros (l1 & i & l2 & ys & -> & _ & [-> Hi]%getitem_inl).
    split; [done|]. exists i. split; [|done]. set_solver.
  - intros [-> (i & Hi & Hle)].
    destruct (decide (Forall (λ i, i < length names) ind)) as [Hall|Hex].
    { rewrite Forall_forall in Hall. apply Hall in Hi. lia. }
    clear i Hi Hle. induction ind as [|j ind IH]; [by destruct Hex|].
    destruct (decide (j < length names)) as [Hj|Hj].
    + destruct IH as (l1 & i & l2 & ys & -> & Hl1 & Hi).
      { intros Hall. apply Hex. by constructor. }
      exists (j :: l1), i, l2, (name_at names j :: ys).
      split; [done|]. split; [|done].
      simpl. rewrite (getitem_lt EmptyString) by done. simpl.
      by rewrite Hl1.
    + exists [], j, ind, []. split; [done|]. split; [done|].
      apply getitem_inl. split; [done|lia].
Qed.

End selection.

(** ** The charts *)

Lemma components_true m : components m true = normalize_row <$> m.
Proof.
  unfold components, divide_column, sum_axis1.
  by rewrite zip_with_fmap_r, zip_with_diag.
Qed.

Lemma components_length m normalize : length (components m normalize) = length m.
Proof. destruct normalize; [|done]. by rewrite components_true, length_fmap. Qed.

Lemma components_lookup m normalize k :
  components m normalize !! k
  = (λ row, if normalize then normalize_row row else row) <$> m !! k.
Proof.
  destruct normalize; [by rewrite components_true, list_lookup_fmap|].
  unfold components. by destruct (m !! k).
Qed.

(** Normalisation keeps the shape. *)
Lemma components_row_length m normalize (P : nat → Prop) :
  Forall (λ row, P (length row)) m →
  Forall (λ row, P (length row)) (components m normalize).
Proof.
  destruct normalize; [|done]. rewrite components_true, Forall_fmap.
  intros Hm. eapply Forall_impl; [exact Hm|].
  intros row Hrow. simpl. unfold normalize_row. by rewrite length_fmap.
Qed.

Section charts.
Context `{Argsort}.
Implicit Types (topic : list float64) (n : Z) (names : list string).

Lemma top_words_topic_inr names n topic :
  Forall (λ i, i < length names) (top_features_ind topic n) →
  top_words_topic names n topic = inr (chart_of names n topic).
Proof.
  intros Hall. unfold top_words_topic.
  by rewrite top_features_inr, weights_inr.
Qed.

Lemma top_words_topic_inl names n topic e :
  top_words_topic names n topic = inl e ↔
  e = IndexError ∧ ∃ i, i ∈ top_features_ind topic n ∧ length names ≤ i.
Proof.
  rewrite <- top_features_inl. unfold top_words_topic. cbv zeta.
  rewrite weights_inr. destruct (top_features _ _); unfold_result;
    [split; by intros [= ->] | by split].
Qed.

Lemma top_words_inr m names n normalize :
  Forall (λ row, length row ≤ length names) m →
  top_words m names n normalize
  = inr (chart_of names n <$> components m normalize).
Proof.
  intros Hm. apply for_each_fmap.
  apply (components_row_length _ normalize (λ k, k ≤ length names)) in Hm.
  eapply Forall_impl; [exact Hm|]. intros topic Hlen. simpl in Hlen.
  apply top_words_topic_inr, Forall_forall. intros i Hi%top_features_ind_lt. lia.
Qed.

Lemma summary_chart_of names n topic :
  summary (chart_of names n topic)
  = (λ i, (name_at names i, key topic i)) <$> top_features_ind topic n.
Proof.
  unfold summary, chart_of. cbn [fst snd].
  by rewrite zip_with_fmap_l, zip_with_fmap_r, zip_with_diag.
Qed.

End charts.

(** * Properties of the extraction *)

Section properties.
Context `{Argsort}.
Implicit Types (topic : list float64) (n : Z) (names : list string).

Lemma chart_of_non_increasing names n topic :
  non_increasing (chart_of names n topic).2.
Proof.
  intros p q w1 w2 Hpq Hp Hq. unfold chart_of in Hp, Hq. cbn [snd] in Hp, Hq.
  apply list_lookup_fmap_Some in Hp as (i & -> & Hi).
  apply list_lookup_fmap_Some in Hq as (j & -> & Hj).
  pose proof (StronglySorted_lookup _ _ _ _ _ _
    (top_features_ind_sorted topic n) Hpq Hi Hj) as Hle.
  unfold flip, key_le in Hle. split.
  - by apply sort_le_not_lt.
  - intros Hnan. by rewrite <- sort_le_le.
Qed.

Lemma chart_of_lengths names n topic :
  length (chart_of names n topic).1 = kept n (length topic) ∧
  length (chart_of names n topic).2 = kept n (length topic) ∧
  length (summary (chart_of names n topic)) = kept n (length topic).
Proof.
  rewrite summary_chart_of. simpl.
  by rewrite !length_fmap, top_features_ind_length.
Qed.

Lemma zip_positions names topic :
  length names = length topic →
  (λ i, (name_at names i, key topic i)) <$> seq 0 (length topic)
  = zip names topic.
Proof.
  intros Hlen. apply list_eq. intros i.
  rewrite list_lookup_fmap, lookup_zip_with.
  destruct (decide (i < length topic)) as [Hi|Hi].
  - rewrite lookup_seq_lt by done. unfold name_at, key. simpl.
    destruct (lookup_lt_is_Some_2 names i) as [s ->]; [lia|].
    by destruct (lookup_lt_is_Some_2 topic i) as [x ->].
  - rewrite lookup_seq_ge by lia. simpl.
    rewrite (proj2 (lookup_ge_None names i)) by lia. done.
Qed.

(** Selecting every position lists every (term, weight) pair of the row. *)
Lemma chart_of_all names n topic :
  length names = length topic →
  (Z.of_nat (length topic) ≤ n)%Z →
  summary (chart_of names n topic) ≡ₚ zip names topic.
Proof.
  intros Hlen Hn.
  rewrite summary_chart_of, top_features_ind_all by done.
  by rewrite reverse_Permutation, argsort_perm, zip_positions.
Qed.

(** C5 (output shape and order): on a matrix of [numTerms] columns with a
    vocabulary of that length and [1 <= topN <= numTerms], the extraction
    returns one chart per topic; each has exactly [min topN numTerms]
    (term, weight) pairs, its weights never go up along the sequence, and
    for [topN = numTerms] it holds every pair of the (normalised) row. *)
Theorem top_words_length_and_order m names topN normalize numTerms :
  has_columns m numTerms →
  length names = numTerms →
  (1 ≤ topN ≤ Z.of_nat numTerms)%Z →
  ∃ charts,
    top_words m names topN normalize = inr charts ∧
    length charts = length m ∧
    ∀ k chart, charts !! k = Some chart →
      length (summary chart) = Z.to_nat topN `min` numTerms ∧
      non_increasing chart.2 ∧
      (topN = Z.of_nat numTerms →
       ∃ topic, components m normalize !! k = Some topic ∧
                summary chart ≡ₚ zip names topic).
Proof.
  intros Hm Hnames HtopN. eexists. split.
  { apply top_words_inr. eapply Forall_impl; [exact Hm|]. simpl. lia. }
  split; [by rewrite length_fmap, components_length|].
  intros k chart (topic & -> & Htopic)%list_lookup_fmap_Some.
  assert (length topic = numTerms) as Hlen.
  { pose proof (components_row_length m normalize (λ k, k = numTerms) Hm) as Hc.
    rewrite Forall_forall in Hc. eapply Hc, list_elem_of_lookup_2, Htopic. }
  split; [|split].
  - destruct (chart_of_lengths names topN topic) as (_ & _ & ->).
    rewrite Hlen. unfold kept. destruct (Z.ltb_spec topN 0); lia.
  - apply chart_of_non_increasing.
  - intros ->. exists topic. split; [done|].
    apply chart_of_all; lia.
Qed.

End properties.

(** The theorem at the matrix [[0.1, 0.0, 0.4, 0.5]] with [topN = 2]. *)
Lemma top_words_length_and_order_witness :
  ∃ charts,
    @top_words Stable [[dec 1 10; dec 0 1; dec 4 10; dec 5 10]]
      ["a"; "b"; "c"; "d"] 2 false = inr charts ∧
    length charts = 1 ∧
    ∀ k chart, charts !! k = Some chart →
      length (summary chart) = 2 ∧
      non_increasing chart.2 ∧
      (2%Z = Z.of_nat 4 →
       ∃ topic,
         components [[dec 1 10; dec 0 1; dec 4 10; dec 5 10]] false !! k
           = Some topic ∧
         summary chart ≡ₚ zip ["a"; "b"; "c"; "d"] topic).
Proof.
  apply (@top_words_length_and_order Stable
           [[dec 1 10; dec 0 1; dec 4 10; dec 5 10]] ["a"; "b"; "c"; "d"]
           2 false 4).
  - repeat constructor.
  - reflexivity.
  - lia.
Defined.

Section pairing.
Context `{Argsort}.
Implicit Types (topic : list float64) (n : Z) (names : list string).

Lemma chart_of_lookup names n topic p i :
  length topic ≤ length names →
  top_features_ind topic n !! p = Some i →
  (chart_of names n topic).1 !! p = names !! i ∧
  (chart_of names n topic).2 !! p = topic !! i ∧
  i < length topic.
Proof.
  intros Hlen Hp.
  assert (i < length topic) as Hi.
  { eapply top_features_ind_lt, list_elem_of_lookup_2, Hp. }
  unfold chart_of. cbn [fst snd]. rewrite !list_lookup_fmap, Hp. simpl.
  unfold name_at, key.
  destruct (lookup_lt_is_Some_2 names i) as [s ->]; [lia|].
  by destruct (lookup_lt_is_Some_2 topic i) as [x ->].
Qed.

(** C10 (pairing consistency): on a matrix of [numTerms] columns with a
    vocabulary of that length, every topic gets a chart; the selected
    column indices of the topic are pairwise distinct, the chart has one
    label and one weight per selected index, and at each position the
    label is [feature_names[i]] and the weight is the (normalised) row's
    entry [topic[i]] for the same selected index [i]. *)
Theorem top_words_pairing m names topN normalize numTerms :
  has_columns m numTerms →
  length names = numTerms →
  ∃ charts,
    top_words m names topN normalize = inr charts ∧
    ∀ k topic, components m normalize !! k = Some topic →
      ∃ chart,
        charts !! k = Some chart ∧
        NoDup (top_features_ind topic topN) ∧
        length chart.1 = length (top_features_ind topic topN) ∧
        length chart.2 = length (top_features_ind topic topN) ∧
        ∀ p i, top_features_ind topic topN !! p = Some i →
          i < numTerms ∧
          chart.1 !! p = names !! i ∧
          chart.2 !! p = topic !! i.
Proof.
  intros Hm Hnames. eexists. split.
  { apply top_words_inr. eapply Forall_impl; [exact Hm|]. simpl. lia. }
  intros k topic Htopic. exists (chart_of names topN topic).
  assert (length topic = numTerms) as Hlen.
  { pose proof (components_row_length m normalize (λ k, k = numTerms) Hm) as Hc.
    rewrite Forall_forall in Hc. eapply Hc, list_elem_of_lookup_2, Htopic. }
  split; [by rewrite list_lookup_fmap, Htopic|].
  split; [apply top_features_ind_NoDup|].
  destruct (chart_of_lengths names topN topic) as (-> & -> & _).
  rewrite top_features_ind_length.
  split; [done|]. split; [done|]. intros p i Hp.
  destruct (chart_of_lookup names topN topic p i) as (? & ? & ?); [lia|done|].
  split; [lia|done].
Qed.

(** C9 (silent clamping): with [n_top_words] above the number of columns
    the extraction raises nothing, and returns what it returns for
    [n_top_words = numTerms]: for every topic all [numTerms] pairs of the
    row, weights never going up. *)
Theorem top_words_clamps m names n_top_words normalize numTerms :
  has_columns m numTerms →
  length names = numTerms →
  (Z.of_nat numTerms < n_top_words)%Z →
  ∃ charts,
    top_words m names n_top_words normalize = inr charts ∧
    top_words m names (Z.of_nat numTerms) normalize = inr charts ∧
    length charts = length m ∧
    ∀ k chart, charts !! k = Some chart →
      length (summary chart) = numTerms ∧
      non_increasing chart.2 ∧
      ∃ topic, components m normalize !! k = Some topic ∧
               summary chart ≡ₚ zip names topic.
Proof.
  intros Hm Hnames Hn.
  assert (Forall (λ row, length row ≤ length names) m) as Hle.
  { eapply Forall_impl; [exact Hm|]. simpl. lia. }
  pose proof (components_row_length m normalize (λ k, k = numTerms) Hm) as Hc.
  rewrite Forall_forall in Hc.
  exists (chart_of names n_top_words <$> components m normalize).
  split; [by apply top_words_inr|]. split.
  { rewrite top_words_inr by done. f_equal.
    apply Forall_fmap_ext, Forall_forall. intros topic Htopic%Hc.
    unfold chart_of. rewrite !top_features_ind_all; [done|lia..]. }
  split; [by rewrite length_fmap, components_length|].
  intros k chart (topic & -> & Htopic)%list_lookup_fmap_Some.
  assert (length topic = numTerms) as Hlen.
  { eapply Hc, list_elem_of_lookup_2, Htopic. }
  split; [|split].
  - destruct (chart_of_lengths names n_top_words topic) as (_ & _ & ->).
    rewrite Hlen. unfold kept. destruct (Z.ltb_spec n_top_words 0); lia.
  - apply chart_of_non_increasing.
  - exists topic. split; [done|]. apply chart_of_all; lia.
Qed.

End pairing.

(** The pairing at [[0.1, 0.0, 0.4, 0.5]] with [topN = 2], normalised. *)
Lemma top_words_pairing_witness :
  ∃ charts,
    @top_words Stable [[dec 1 10; dec 0 1; dec 4 10; dec 5 10]]
      ["a"; "b"; "c"; "d"] 2 true = inr charts ∧
    ∀ k topic,
      components [[dec 1 10; dec 0 1; dec 4 10; dec 5 10]] true !! k
        = Some topic →
      ∃ chart,
        charts !! k = Some chart ∧
        NoDup (@top_features_ind Stable topic 2) ∧
        length chart.1 = length (@top_features_ind Stable topic 2) ∧
        length chart.2 = length (@top_features_ind Stable topic 2) ∧
        ∀ p i, @top_features_ind Stable topic 2 !! p = Some i →
          i < 4 ∧
          chart.1 !! p = ["a"; "b"; "c"; "d"] !! i ∧
          chart.2 !! p = topic !! i.
Proof.
  apply (@top_words_pairing Stable
           [[dec 1 10; dec 0 1; dec 4 10; dec 5 10]] ["a"; "b"; "c"; "d"]
           2 true 4).
  - repeat constructor.
  - reflexivity.
Defined.

(** Asking for 9 words of a vocabulary of 4. *)
Lemma top_words_clamps_witness :
  ∃ charts,
    @top_words Stable [[dec 1 10; dec 0 1; dec 4 10; dec 5 10]]
      ["a"; "b"; "c"; "d"] 9 false = inr charts ∧
    @top_words Stable [[dec 1 10; dec 0 1; dec 4 10; dec 5 10]]
      ["a"; "b"; "c"; "d"] 4 false = inr charts ∧
    length charts = 1 ∧
    ∀ k chart, charts !! k = Some chart →
      length (summary chart) = 4 ∧
      non_increasing chart.2 ∧
      ∃ topic,
        components [[dec 1 10; dec 0 1; dec 4 10; dec 5 10]] false !! k
          = Some topic ∧
        summary chart ≡ₚ zip ["a"; "b"; "c"; "d"] topic.
Proof.
  apply (@top_words_clamps Stable
           [[dec 1 10; dec 0 1; dec 4 10; dec 5 10]] ["a"; "b"; "c"; "d"]
           9 false 4).
  - repeat constructor.
  - reflexivity.
  - lia.
Defined.

(** ** What the routine does not check *)

Section unchecked.
Context `{Argsort}.
Implicit Types (topic : list float64) (n : Z) (names : list string).

(** C4, as the code has it: [topN] is never validated.  On a matrix of
    [numTerms] columns with a vocabulary of that length no [topN] raises
    anything, in or out of [1 .. numTerms]; every topic gets a chart, which
    has all [numTerms] pairs when [topN > numTerms], none when [topN = 0],
    and [max 0 (numTerms + topN)] pairs when [topN < 0]. *)
Theorem top_words_any_topN m names topN normalize numTerms :
  has_columns m numTerms →
  length names = numTerms →
  ∃ charts,
    top_words m names topN normalize = inr charts ∧
    length charts = length m ∧
    ∀ k chart, charts !! k = Some chart →
      ((Z.of_nat numTerms < topN)%Z → length (summary chart) = numTerms) ∧
      (topN = 0%Z → summary chart = []) ∧
      ((topN < 0)%Z →
       length (summary chart) = Z.to_nat (Z.of_nat numTerms + topN)).
Proof.
  intros Hm Hnames. eexists. split.
  { apply top_words_inr. eapply Forall_impl; [exact Hm|]. simpl. lia. }
  split; [by rewrite length_fmap, components_length|].
  intros k chart (topic & -> & Htopic)%list_lookup_fmap_Some.
  assert (length topic = numTerms) as Hlen.
  { pose proof (components_row_length m normalize (λ k, k = numTerms) Hm) as Hc.
    rewrite Forall_forall in Hc. eapply Hc, list_elem_of_lookup_2, Htopic. }
  destruct (chart_of_lengths names topN topic) as (_ & _ & Hsum).
  rewrite Hlen in Hsum. unfold kept in Hsum.
  split; [|split].
  - intros Hn. rewrite Hsum. destruct (Z.ltb_spec topN 0); lia.
  - intros ->. simpl in Hsum. by apply length_zero_iff_nil.
  - intros Hn. rewrite Hsum. destruct (Z.ltb_spec topN 0); lia.
Qed.

(** C3, as the code has it: the shapes are never compared.  The only
    exception of the extraction is the [IndexError] of a label lookup, and
    it is raised exactly when some topic selects a column index that the
    vocabulary does not have; a vocabulary at least as long as the rows
    raises nothing, whatever its length. *)
Theorem top_words_raises_iff m names topN normalize :
  (∀ e,
     top_words m names topN normalize = inl e ↔
     e = IndexError ∧
     ∃ topic i, topic ∈ components m normalize ∧
                i ∈ top_features_ind topic topN ∧ length names ≤ i) ∧
  (Forall (λ row, length row ≤ length names) m →
   ∃ charts, top_words m names topN normalize = inr charts).
Proof.
  split; [|intros Hm; eexists; by apply top_words_inr].
  assert (∀ e, top_words m names topN normalize = inl e →
    e = IndexError ∧
    ∃ topic i, topic ∈ components m normalize ∧
               i ∈ top_features_ind topic topN ∧ length names ≤ i) as Hraise.
  { intros e (l1 & topic & l2 & ys & Heq & _ & Htopic)%for_each_inl.
    apply top_words_topic_inl in Htopic as [-> (i & Hi & Hle)].
    split; [done|]. exists topic, i. rewrite Heq. split; [set_solver|done]. }
  intros e. split; [apply Hraise|].
  intros [-> (topic & i & Htopic & Hi & Hle)].
  destruct (top_words m names topN normalize) as [e|charts] eqn:Hrun.
  { by destruct (Hraise e eq_refl) as [-> _]. }
  apply for_each_inr in Hrun.
  apply list_elem_of_lookup in Htopic as [k Hk].
  destruct (Forall2_lookup_l _ _ _ _ _ Hrun Hk) as (chart & _ & Hchart).
  assert (top_words_topic names topN topic = inl IndexError) as Hbad.
  { apply top_words_topic_inl. eauto. }
  congruence.
Qed.

End unchecked.

(** Three words asked of two columns, then none. *)
Lemma top_words_any_topN_witness :
  ∃ charts,
    @top_words Stable [[dec 1 1; dec 2 1]] ["a"; "b"] 3 false = inr charts ∧
    length charts = 1 ∧
    ∀ k chart, charts !! k = Some chart →
      ((Z.of_nat 2 < 3)%Z → length (summary chart) = 2) ∧
      (3%Z = 0%Z → summary chart = []) ∧
      ((3 < 0)%Z → length (summary chart) = Z.to_nat (Z.of_nat 2 + 3)).
Proof.
  apply (@top_words_any_topN Stable [[dec 1 1; dec 2 1]] ["a"; "b"] 3 false 2).
  - repeat constructor.
  - reflexivity.
Defined.

(** C4 as stated fails: [topN = 5] on two columns, then [topN = 0] and
    [topN = -1], are all accepted. *)
Lemma top_words_accepts_invalid_topN :
  @top_words Stable [[dec 1 1; dec 2 1]] ["a"; "b"] 5 false
    = inr [(["b"; "a"], [dec 2 1; dec 1 1])] ∧
  @top_words Stable [[dec 1 1; dec 2 1]] ["a"; "b"] 0 false
    = inr [([], [])] ∧
  @top_words Stable [[dec 1 1; dec 2 1]] ["a"; "b"] (-1) false
    = inr [(["b"], [dec 2 1])].
Proof. repeat split; vm_compute; reflexivity. Qed.

(** C3 as stated fails: a vocabulary of three words on two columns is
    accepted, and so is a vocabulary of one word as long as no selected
    column lies beyond it. *)
Lemma top_words_accepts_shape_mismatch :
  @top_words Stable [[dec 1 1; dec 2 1]] ["a"; "b"; "c"] 1 false
    = inr [(["b"], [dec 2 1])] ∧
  @top_words Stable [[dec 2 1; dec 1 1]] ["a"] 1 false
    = inr [(["a"], [dec 2 1])] ∧
  @top_words Stable [[dec 1 1; dec 2 1]] ["a"] 1 false = inl IndexError.
Proof. repeat split; vm_compute; reflexivity. Qed.

(** ** Ties *)





(** ** Rows that sum to zero *)

Lemma div_zero_not_finite x : isfinite (div x zero) = false.
Proof.
  destruct x as [a| | |]; try reflexivity.
  unfold div, zero. replace (Qc_eqb 0 0) with true by reflexivity.
  by repeat case_match.
Qed.

Lemma div_zero_zero : div zero zero = NaN.
Proof. reflexivity. Qed.

Lemma Qc_nonneg_sum_zero (a b : Qc) :
  (0 <= a)%Qc → (0 <= b)%Qc → (a + b)%Qc = 0%Qc → a = 0%Qc ∧ b = 0%Qc.
Proof.
  intros Ha Hb Hab. unfold Qcle in Ha, Hb. simpl in Ha, Hb.
  assert (a + b == 0)%Q as Hq.
  { rewrite <- (Qred_correct (a + b)).
    change (Qred (a + b)) with (this (a + b)%Qc). by rewrite Hab. }
  split; apply Qc_is_canon; simpl; change (Qred 0) with 0%Q in *; lra.
Qed.

Lemma sum_nonneg row :
  Forall (λ x, le zero x = true) row → le zero (sum row) = true.
Proof.
  induction 1 as [|x row Hx _ IH]; simpl; [done|].
  destruct x as [a| | |], (sum row) as [b| | |]; simpl in *; try done.
  apply Qc_leb_le in Hx, IH. apply Qc_leb_le.
  unfold Qcle in *. simpl in *. change (Qred 0) with 0%Q in *.
  rewrite Qred_correct. lra.
Qed.

(** Non-negative entries sum to zero only when all of them are zero. *)
Lemma sum_zero_nonneg row :
  Forall (λ x, le zero x = true) row → sum row = zero →
  Forall (λ x, x = zero) row.
Proof.
  induction 1 as [|x row Hx Hrow IH]; simpl; [done|]. intros Hsum.
  pose proof (sum_nonneg row Hrow) as Hs.
  destruct x as [a| | |], (sum row) as [b| | |]; simpl in Hx, Hs, Hsum; try done.
  assert ((a + b)%Qc = 0%Qc) as Hab by (unfold zero in Hsum; congruence).
  apply Qc_leb_le in Hx, Hs.
  destruct (Qc_nonneg_sum_zero a b Hx Hs Hab) as [-> ->].
  constructor; [done|]. by apply IH.
Qed.

Section degenerate.
Context `{Argsort}.

(** C2, as the code has it: the division is unguarded.  On a matrix of
    [numTerms] columns with a vocabulary of that length, [normalize = true]
    raises nothing; a row that sums to exactly 0 gets a chart like any
    other, with as many pairs as the slice keeps, and every weight of it is
    an infinity or NaN; all of them are NaN when the entries of the row
    are non-negative. *)
Theorem top_words_zero_row m names topN numTerms :
  has_columns m numTerms →
  length names = numTerms →
  ∃ charts,
    top_words m names topN true = inr charts ∧
    length charts = length m ∧
    ∀ k row, m !! k = Some row → sum row = zero →
      ∃ chart,
        charts !! k = Some chart ∧
        length (summary chart) = kept topN numTerms ∧
        Forall (λ w, isfinite w = false) chart.2 ∧
        (Forall (λ x, le zero x = true) row → Forall (λ w, w = NaN) chart.2).
Proof.
  intros Hm Hnames. eexists. split.
  { apply top_words_inr. eapply Forall_impl; [exact Hm|]. simpl. lia. }
  split; [by rewrite length_fmap, components_length|].
  intros k row Hrow Hsum. exists (chart_of names topN (normalize_row row)).
  assert (length row = numTerms) as Hlen.
  { unfold has_columns in Hm. rewrite Forall_forall in Hm.
    eapply Hm, list_elem_of_lookup_2, Hrow. }
  split.
  { by rewrite list_lookup_fmap, components_lookup, Hrow. }
  split.
  { destruct (chart_of_lengths names topN (normalize_row row)) as (_ & _ & ->).
    unfold normalize_row. by rewrite length_fmap, Hlen. }
  assert (∀ w, w ∈ (chart_of names topN (normalize_row row)).2 →
    ∃ x, x ∈ row ∧ w = div x zero) as Hw.
  { intros w (i & -> & Hi)%list_elem_of_fmap.
    apply top_features_ind_lt in Hi. unfold normalize_row in Hi.
    rewrite length_fmap in Hi.
    destruct (lookup_lt_is_Some_2 row i Hi) as [x Hx]. exists x.
    split; [by eapply list_elem_of_lookup_2|].
    unfold key, normalize_row. by rewrite list_lookup_fmap, Hx, Hsum. }
  split.
  - apply Forall_forall. intros w (x & _ & ->)%Hw. apply div_zero_not_finite.
  - intros Hnonneg. pose proof (sum_zero_nonneg row Hnonneg Hsum) as Hzero.
    rewrite Forall_forall in Hzero.
    apply Forall_forall. intros w (x & Hx & ->)%Hw.
    by rewrite (Hzero x Hx).
Qed.

End degenerate.

(** The all-zero row of four columns. *)
Lemma top_words_zero_row_witness :
  ∃ charts,
    @top_words Stable [[zero; zero; zero; zero]] ["a"; "b"; "c"; "d"] 2 true
      = inr charts ∧
    length charts = 1 ∧
    ∀ k row, [[zero; zero; zero; zero]] !! k = Some row → sum row = zero →
      ∃ chart,
        charts !! k = Some chart ∧
        length (summary chart) = 2 ∧
        Forall (λ w, isfinite w = false) chart.2 ∧
        (Forall (λ x, le zero x = true) row → Forall (λ w, w = NaN) chart.2).
Proof.
  apply (@top_words_zero_row Stable [[zero; zero; zero; zero]]
           ["a"; "b"; "c"; "d"] 2 4).
  - repeat constructor.
  - reflexivity.
Defined.

(** C2 as stated fails: normalising the all-zero row raises nothing and
    NaN weights are charted. *)
Lemma top_words_zero_row_no_error :
  sum [zero; zero; zero; zero] = zero ∧
  @top_words Stable [[zero; zero; zero; zero]] ["a"; "b"; "c"; "d"] 2 true
    = inr [(["d"; "c"], [NaN; NaN])].
Proof. split; by vm_compute. Qed.

(** ** Normalisation *)

#[export] Instance Qc_eq_decision : EqDecision Qc := Qc_eq_dec.
#[export] Instance float64_eq_decision : EqDecision float64.
Proof. solve_decision. Defined.

Lemma div_finite (a d : Qc) : d ≠ 0%Qc → div (Fin a) (Fin d) = Fin (a / d)%Qc.
Proof.
  intros Hd. unfold div. destruct (Qc_eqb d 0) eqn:Heq; [|done].
  by apply Qc_eqb_eq in Heq.
Qed.




(** ** The worked example *)

(** On an array without equal values every argsort returns the same
    permutation. *)
Lemma argsort_unique (A B : Argsort) (a : list float64) :
  NoDup a → @argsort A a = @argsort B a.
Proof.
  intros Hnd.
  apply (StronglySorted_unique_strong (key_le a));
    [|apply argsort_sorted..|by rewrite !argsort_perm].
  intros i j Hi%argsort_lt Hj%argsort_lt Hij Hji.
  pose proof (sort_le_antisym _ _ Hij Hji) as Hkey. unfold key in Hkey.
  destruct (lookup_lt_is_Some_2 a i Hi) as [x Hx].
  destruct (lookup_lt_is_Some_2 a j Hj) as [y Hy].
  rewrite Hx, Hy in Hkey. simpl in Hkey. subst y.
  by eapply NoDup_lookup.
Qed.

Section example.
Context `{Argsort}.

(** C7 (worked example): for the matrix [[0.1, 0.0, 0.4, 0.5]], the
    vocabulary a, b, c, d and [topN = 2], the extraction returns the pairs
    (d, 0.5), (c, 0.4) without normalisation, and the same with it, the row
    summing to 1 already. *)
Theorem top_words_worked_example :
  top_words [[dec 1 10; dec 0 1; dec 4 10; dec 5 10]] ["a"; "b"; "c"; "d"] 2 false
    = inr [(["d"; "c"], [dec 5 10; dec 4 10])] ∧
  top_words [[dec 1 10; dec 0 1; dec 4 10; dec 5 10]] ["a"; "b"; "c"; "d"] 2 true
    = inr [(["d"; "c"], [dec 5 10; dec 4 10])] ∧
  summary (["d"; "c"], [dec 5 10; dec 4 10])
    = [("d", dec 5 10); ("c", dec 4 10)] ∧
  sum [dec 1 10; dec 0 1; dec 4 10; dec 5 10] = one.
Proof.
  assert (components [[dec 1 10; dec 0 1; dec 4 10; dec 5 10]] true
          = [[dec 1 10; dec 0 1; dec 4 10; dec 5 10]]) as Hnorm.
  { by apply (bool_decide_unpack _); vm_compute. }
  assert (top_words [[dec 1 10; dec 0 1; dec 4 10; dec 5 10]]
            ["a"; "b"; "c"; "d"] 2 false
          = inr [(["d"; "c"], [dec 5 10; dec 4 10])]) as Hplain.
  { rewrite top_words_inr by (repeat constructor).
    unfold components, chart_of, top_features_ind. simpl fmap.
    rewrite (argsort_unique _ Stable)
      by (by apply (bool_decide_unpack _); vm_compute).
    by vm_compute. }
  split; [done|]. split.
  { unfold top_words in *. by rewrite Hnorm. }
  split; [done|]. by apply (bool_decide_unpack _); vm_compute.
Qed.

End example.

(** * The store is only extended *)

Module StoreFacts.
Import Store.

Section frame.
Variable σ0 : gmap loc obj.

(** Started in a store that holds every object of [σ0] unchanged, [c] leaves
    such a store, and what it returns satisfies [Q]. *)
Definition keeps {A} (c : M A) (Q : A → Prop) : Prop :=
  ∀ σ, σ0 ⊆ σ → σ0 ⊆ (c σ).1 ∧ ∀ x, (c σ).2 = inr x → Q x.

Lemma keeps_ret {A} (x : A) (Q : A → Prop) : Q x → keeps (mret x) Q.
Proof. intros HQ σ Hσ. split; [done|]. by intros ? [= <-]. Qed.

Lemma keeps_throw {A} (e : exn) (Q : A → Prop) : keeps (throw e) Q.
Proof. intros σ Hσ. by split. Qed.

Lemma keeps_lift {A} (r : result A) (Q : A → Prop) :
  (∀ x, r = inr x → Q x) → keeps (lift r) Q.
Proof. intros HQ σ Hσ. by split. Qed.

Lemma keeps_bind {A B} (c : M A) (k : A → M B) (Q : A → Prop) (R : B → Prop) :
  keeps c Q → (∀ x, Q x → keeps (k x) R) → keeps (c ≫= k) R.
Proof.
  intros Hc Hk σ Hσ. destruct (Hc σ Hσ) as [Hσ' HQ].
  unfold mbind, M_bind. destruct (c σ) as [σ' [e|x]]; simpl in *; [done|].
  by apply (Hk x); [apply HQ|].
Qed.

Lemma keeps_weaken {A} (c : M A) (Q R : A → Prop) :
  keeps c Q → (∀ x, Q x → R x) → keeps c R.
Proof. intros Hc HQR σ Hσ. destruct (Hc σ Hσ). split; auto. Qed.

(** A new object is none of the old ones. *)
Lemma keeps_alloc (o : obj) : keeps (alloc o) (λ l, σ0 !! l = None).
Proof.
  intros σ Hσ. unfold alloc. simpl.
  assert (σ0 !! fresh (dom σ) = None) as Hfresh.
  { eapply lookup_weaken_None; [|exact Hσ].
    apply not_elem_of_dom, is_fresh. }
  split; [by apply insert_subseteq_r|]. by intros ? [= <-].
Qed.

Lemma keeps_load (l : loc) : keeps (load l) (λ _, True).
Proof. intros σ Hσ. by split. Qed.

(** Drawing on an axes that is none of the old objects. *)
Lemma keeps_barh (ax : loc) labels widths :
  σ0 !! ax = None → keeps (barh ax labels widths) (λ _, True).
Proof.
  intros Hax. eapply keeps_bind; [apply keeps_load|]. intros o _.
  destruct o; try apply keeps_throw.
  intros σ Hσ. split; [by apply insert_subseteq_r|done].
Qed.

Lemma keeps_get_components_ model : keeps (get_components_ model) (λ _, True).
Proof.
  eapply keeps_bind; [apply keeps_load|]. intros o _.
  destruct o; (apply keeps_throw || by apply keeps_ret).
Qed.

Lemma keeps_load_array2 l : keeps (load_array2 l) (λ _, True).
Proof.
  eapply keeps_bind; [apply keeps_load|]. intros o _.
  destruct o; (apply keeps_throw || by apply keeps_ret).
Qed.

Lemma keeps_load_names l : keeps (load_names l) (λ _, True).
Proof.
  eapply keeps_bind; [apply keeps_load|]. intros o _.
  destruct o; (apply keeps_throw || by apply keeps_ret).
Qed.

Lemma keeps_alloc_axes k :
  keeps (alloc_axes k) (Forall (λ l, σ0 !! l = None)).
Proof.
  induction k as [|k IH]; simpl; [by apply keeps_ret|].
  eapply keeps_bind; [apply keeps_alloc|]. intros ax Hax.
  eapply keeps_bind; [apply IH|]. intros axs Haxs.
  apply keeps_ret. by constructor.
Qed.

Lemma keeps_subplots n_row n_col :
  keeps (subplots n_row n_col) (λ fa, Forall (λ l, σ0 !! l = None) fa.2).
Proof.
  unfold subplots. case_match; [apply keeps_throw|].
  eapply keeps_bind; [apply keeps_alloc_axes|]. intros axes Haxes.
  eapply keeps_bind; [apply keeps_alloc|]. intros fig _.
  by apply keeps_ret.
Qed.

Lemma keeps_flatten n_row n_col axes :
  Forall (λ l, σ0 !! l = None) axes →
  keeps (flatten n_row n_col axes) (Forall (λ l, σ0 !! l = None)).
Proof.
  intros Haxes. unfold flatten. case_match; [apply keeps_throw|].
  by apply keeps_ret.
Qed.

Section loop.
Context `{Argsort}.

Lemma keeps_plot_topic feature_names n_top_words axes topic_idx topic :
  Forall (λ l, σ0 !! l = None) axes →
  keeps (plot_topic feature_names n_top_words axes topic_idx topic) (λ _, True).
Proof.
  intros Haxes. unfold plot_topic.
  eapply keeps_bind; [apply keeps_alloc|]. intros _ _.
  eapply keeps_bind; [apply keeps_load_names|]. intros names _.
  eapply keeps_bind; [by apply (keeps_lift _ (λ _, True))|]. intros feats _.
  eapply keeps_bind; [apply keeps_alloc|]. intros _ _.
  eapply keeps_bind; [by apply (keeps_lift _ (λ _, True))|]. intros ws _.
  eapply keeps_bind; [apply keeps_alloc|]. intros _ _.
  eapply keeps_bind.
  { apply (keeps_lift _ (λ ax, σ0 !! ax = None)).
    intros ax Hax%getitem_inr. rewrite Forall_forall in Haxes.
    eapply Haxes, list_elem_of_lookup_2, Hax. }
  intros ax Hax. by apply keeps_barh.
Qed.

Lemma keeps_for_topics body topic_idx rows :
  (∀ i topic, keeps (body i topic) (λ _, True)) →
  keeps (for_topics body topic_idx rows) (λ _, True).
Proof.
  intros Hbody. revert topic_idx.
  induction rows as [|topic rows IH]; intros topic_idx; simpl.
  { by apply keeps_ret. }
  eapply keeps_bind; [apply Hbody|]. intros _ _. apply IH.
Qed.

Lemma keeps_plot_top_words model feature_names n_top_words n_row n_col normalize :
  keeps (plot_top_words model feature_names n_top_words n_row n_col normalize)
    (λ _, True).
Proof.
  unfold plot_top_words.
  eapply keeps_bind; [apply keeps_subplots|]. intros [fig axes] Haxes.
  eapply keeps_bind; [by apply keeps_flatten|]. intros axes' Haxes'.
  eapply keeps_bind; [apply keeps_get_components_|]. intros c _.
  eapply keeps_bind.
  { instantiate (1 := λ _, True). destruct normalize; [|by apply keeps_ret].
    eapply keeps_bind; [apply keeps_load_array2|]. intros m _.
    eapply keeps_bind; [apply keeps_alloc|]. intros _ _.
    eapply keeps_weaken; [apply keeps_alloc|done]. }
  intros c' _.
  eapply keeps_bind; [apply keeps_load_array2|]. intros rows _.
  eapply keeps_bind.
  { apply keeps_for_topics. intros i topic. by apply keeps_plot_topic. }
  intros _ _. by apply keeps_ret.
Qed.

End loop.
End frame.

(** C8 (frame): whatever the arguments, and whether the call returns or
    raises, every object of the caller's store is in the final store with
    the value it had; in particular the model, its [components_] matrix
    and the vocabulary, with [normalize = true] as well: the normalised
    matrix is a new object. *)
Theorem plot_top_words_frame `{Argsort} (σ : gmap loc obj)
  (model feature_names : loc) (n_top_words n_row n_col : Z) (normalize : bool) :
  (∀ l o,
     σ !! l = Some o →
     (plot_top_words model feature_names n_top_words n_row n_col normalize σ).1
       !! l = Some o) ∧
  (∀ c m names,
     σ !! model = Some (Model c) ∧
     σ !! c = Some (Array2 m) ∧
     σ !! feature_names = Some (StrList names) →
     (plot_top_words model feature_names n_top_words n_row n_col normalize σ).1
       !! model = Some (Model c) ∧
     (plot_top_words model feature_names n_top_words n_row n_col normalize σ).1
       !! c = Some (Array2 m) ∧
     (plot_top_words model feature_names n_top_words n_row n_col normalize σ).1
       !! feature_names = Some (StrList names)).
Proof.
  destruct (keeps_plot_top_words σ model feature_names n_top_words n_row n_col
              normalize σ) as [Hsub _]; [done|].
  assert (∀ l o, σ !! l = Some o →
    (plot_top_words model feature_names n_top_words n_row n_col normalize σ).1
      !! l = Some o) as Hkeep.
  { intros l o Hl. by eapply lookup_weaken. }
  split; [done|]. intros c m names (Hmodel & Hc & Hnames). auto.
Qed.

(** ** What the call draws *)

(** [c] returns from [σ], and the final store and the value satisfy [Q]. *)
Definition returns {A} (c : M A) (σ : gmap loc obj)
  (Q : gmap loc obj → A → Prop) : Prop :=
  ∃ σ' x, c σ = (σ', inr x) ∧ Q σ' x.

Lemma returns_ret {A} (x : A) σ Q : Q σ x → returns (mret x) σ Q.
Proof. intros HQ. by exists σ, x. Qed.

Lemma returns_lift {A} (r : result A) x σ Q :
  r = inr x → Q σ x → returns (lift r) σ Q.
Proof. intros -> HQ. by exists σ, x. Qed.

Lemma returns_bind {A B} (c : M A) (k : A → M B) σ Q :
  returns c σ (λ σ' x, returns (k x) σ' Q) → returns (c ≫= k) σ Q.
Proof.
  intros (σ' & x & Hc & σ'' & y & Hk & HQ). exists σ'', y.
  split; [|done]. unfold mbind, M_bind. by rewrite Hc.
Qed.

Lemma returns_alloc o σ Q :
  (∀ l, σ !! l = None → Q (<[l:=o]> σ) l) → returns (alloc o) σ Q.
Proof.
  intros HQ. eexists _, _. split; [reflexivity|].
  apply HQ, not_elem_of_dom, is_fresh.
Qed.

Lemma returns_load l o σ Q : σ !! l = Some o → Q σ o → returns (load l) σ Q.
Proof. intros Hl HQ. exists σ, o. unfold load. by rewrite Hl. Qed.

Lemma returns_barh ax b labels widths σ Q :
  σ !! ax = Some (Axes b) →
  Q (<[ax:=Axes (Some (labels, widths))]> σ) () →
  returns (barh ax labels widths) σ Q.
Proof.
  intros Hax HQ. apply returns_bind. eapply returns_load; [done|].
  by eexists _, _.
Qed.

Lemma returns_load_names l names σ Q :
  σ !! l = Some (StrList names) → Q σ names → returns (load_names l) σ Q.
Proof.
  intros Hl HQ. apply returns_bind. eapply returns_load; [done|].
  by apply returns_ret.
Qed.

Lemma returns_load_array2 l m σ Q :
  σ !! l = Some (Array2 m) → Q σ m → returns (load_array2 l) σ Q.
Proof.
  intros Hl HQ. apply returns_bind. eapply returns_load; [done|].
  by apply returns_ret.
Qed.

(** The axes of a new figure are distinct new objects, all blank. *)
Lemma returns_alloc_axes k σ :
  returns (alloc_axes k) σ (λ σ' axs,
    σ ⊆ σ' ∧ length axs = k ∧ NoDup axs ∧
    Forall (λ ax, σ !! ax = None ∧ σ' !! ax = Some (Axes None)) axs).
Proof.
  revert σ. induction k as [|k IH]; intros σ; simpl.
  { apply returns_ret. split; [done|]. split; [done|]. split; constructor. }
  apply returns_bind, returns_alloc. intros ax Hax.
  apply returns_bind.
  destruct (IH (<[ax:=Axes None]> σ)) as (σ' & axs & Hrun & Hσ & Hlen & Hnd & Hall).
  exists σ', axs. split; [done|]. apply returns_ret.
  assert (σ ⊆ σ') as Hsub.
  { etrans; [|exact Hσ]. by apply insert_subseteq. }
  rewrite Forall_forall in Hall.
  split; [done|]. split; [by rewrite <- Hlen|]. split.
  - constructor; [|done]. intros [Hnone _]%Hall.
    by rewrite lookup_insert_eq in Hnone.
  - constructor.
    + split; [done|]. eapply lookup_weaken; [|exact Hσ].
      by rewrite lookup_insert_eq.
    + apply Forall_forall. intros ax' Hax'. destruct (Hall ax' Hax') as [Hn Hs].
      split; [|done]. destruct (decide (ax = ax')) as [->|Hne]; [done|].
      by rewrite lookup_insert_ne in Hn.
Qed.

(** A new object, seen from the stores that extend the current one. *)
Lemma returns_alloc_ext o σ Q :
  (∀ σ' l, σ ⊆ σ' → σ !! l = None → σ' !! l = Some o → Q σ' l) →
  returns (alloc o) σ Q.
Proof.
  intros HQ. apply returns_alloc. intros l Hl.
  apply HQ; [by apply insert_subseteq|done|by rewrite lookup_insert_eq].
Qed.

Section draws.
Context `{Argsort}.

(** One turn of the loop draws the chart of its topic on its axes and
    changes no other object of the store. *)
Lemma returns_plot_topic σ feature_names names n axes k topic chart ax b :
  σ !! feature_names = Some (StrList names) →
  axes !! k = Some ax →
  σ !! ax = Some (Axes b) →
  top_words_topic names n topic = inr chart →
  returns (plot_topic feature_names n axes k topic) σ (λ σ' _,
    σ' !! ax = Some (Axes (Some chart)) ∧
    ∀ l o, l ≠ ax → σ !! l = Some o → σ' !! l = Some o).
Proof.
  intros Hnames Hk Hax Hchart. unfold top_words_topic in Hchart.
  cbv zeta in Hchart.
  destruct (top_features names _) as [|feats] eqn:Hfeats; [done|].
  destruct (weights topic _) as [|ws] eqn:Hws; [done|].
  unfold_result. injection Hchart as <-.
  unfold plot_topic.
  apply returns_bind, returns_alloc_ext. intros σ1 _ Hσ1 _ _.
  apply returns_bind.
  eapply returns_load_names; [by eapply lookup_weaken|].
  apply returns_bind. eapply returns_lift; [exact Hfeats|].
  apply returns_bind, returns_alloc_ext. intros σ2 _ Hσ2 _ _.
  apply returns_bind. eapply returns_lift; [exact Hws|].
  apply returns_bind, returns_alloc_ext. intros σ3 _ Hσ3 _ _.
  apply returns_bind. eapply returns_lift; [by apply getitem_inr|].
  assert (σ ⊆ σ3) as Hσ by (by repeat (etrans; [eassumption|])).
  eapply returns_barh; [by eapply lookup_weaken|].
  split; [by rewrite lookup_insert_eq|].
  intros l o Hl Hlo. rewrite lookup_insert_ne by done.
  by eapply lookup_weaken.
Qed.

(** The loop draws the chart of row [k + j] on axes [k + j], for every row
    it is given, and leaves the axes before [k] as they are. *)
Lemma returns_for_topics feature_names names n axes rows charts k σ :
  NoDup axes →
  Forall2 (λ topic chart, top_words_topic names n topic = inr chart) rows charts →
  k + length rows ≤ length axes →
  σ !! feature_names = Some (StrList names) →
  (∀ j ax, axes !! j = Some ax → ∃ b, σ !! ax = Some (Axes b)) →
  returns (for_topics (plot_topic feature_names n axes) k rows) σ (λ σ' _,
    (∀ j chart, charts !! j = Some chart →
       ∃ ax, axes !! (k + j) = Some ax ∧ σ' !! ax = Some (Axes (Some chart))) ∧
    (∀ j ax, j < k → axes !! j = Some ax → σ' !! ax = σ !! ax)).
Proof.
  intros Hnd Hcharts. revert k σ.
  induction Hcharts as [|topic chart rows charts Hchart _ IH];
    intros k σ Hlen Hnames Haxes; simpl.
  { apply returns_ret. by split. }
  simpl in Hlen.
  destruct (lookup_lt_is_Some_2 axes k) as [ax Hk]; [lia|].
  destruct (Haxes k ax Hk) as [b Hax].
  apply returns_bind.
  destruct (returns_plot_topic σ feature_names names n axes k topic chart ax b)
    as (σ1 & [] & Hrun & Hdrawn & Hrest); [done..|].
  exists σ1, (). split; [done|].
  assert (∀ j ax', j ≠ k → axes !! j = Some ax' → σ1 !! ax' = σ !! ax') as Hother.
  { intros j ax' Hj Hj'. destruct (Haxes j ax' Hj') as [b' Hb'].
    rewrite Hb'. apply Hrest; [|done]. intros ->.
    by apply Hj, (NoDup_lookup axes j k ax). }
  destruct (IH (S k) σ1) as (σ' & [] & Hloop & Hnew & Hold).
  - lia.
  - apply Hrest; [|done]. intros ->. congruence.
  - intros j ax' Hj. destruct (decide (j = k)) as [->|Hne].
    + assert (ax' = ax) as -> by congruence. eauto.
    + rewrite (Hother j ax' Hne Hj). by apply (Haxes j).
  - exists σ', (). split; [done|]. split.
    + intros [|j] chart' Hj; simpl in Hj.
      * injection Hj as <-. exists ax. rewrite Nat.add_0_r. split; [done|].
        by rewrite (Hold k ax) by (done || lia).
      * destruct (Hnew j chart' Hj) as (ax' & Hax' & Hσ').
        exists ax'. split; [|done]. by replace (k + S j) with (S k + j) by lia.
    + intros j ax' Hj Hj'. rewrite (Hold j ax') by (done || lia).
      apply (Hother j); [lia|done].
Qed.

Lemma returns_mono {A} (c : M A) σ (Q R : gmap loc obj → A → Prop) :
  returns c σ Q → (∀ σ' x, Q σ' x → R σ' x) → returns c σ R.
Proof. intros (σ' & x & Hc & HQ) HQR. exists σ', x. auto. Qed.

Lemma returns_subplots n_row n_col σ :
  (0 < n_row)%Z → (0 < n_col)%Z →
  returns (subplots n_row n_col) σ (λ σ' fa,
    σ ⊆ σ' ∧ length fa.2 = Z.to_nat (n_row * n_col) ∧ NoDup fa.2 ∧
    Forall (λ ax, σ' !! ax = Some (Axes None)) fa.2).
Proof.
  intros Hrow Hcol. unfold subplots.
  destruct (Z.leb_spec n_row 0), (Z.leb_spec n_col 0); try lia. simpl.
  apply returns_bind.
  eapply returns_mono; [apply returns_alloc_axes|].
  intros σ1 axes (Hσ1 & Hlen & Hnd & Hall). simpl.
  apply returns_bind, returns_alloc_ext. intros σ2 fig Hσ2 _ _.
  apply returns_ret. simpl. split; [by etrans|]. split; [done|]. split; [done|].
  eapply Forall_impl; [exact Hall|]. intros ax [_ Hax]. simpl.
  by eapply lookup_weaken.
Qed.

(** X6.  The link between the two layers: when the store holds the model, its
    matrix and the vocabulary, the grid has at least one axes per topic (and
    more than one cell), and the extraction on values returns [charts],
    the call returns and axes [k] of the figure holds chart [k]. *)
Theorem plot_top_words_draws σ model feature_names c m names
  n_top_words n_row n_col normalize charts :
  σ !! model = Some (Model c) →
  σ !! c = Some (Array2 m) →
  σ !! feature_names = Some (StrList names) →
  (0 < n_row)%Z → (0 < n_col)%Z → (n_row * n_col ≠ 1)%Z →
  (Z.of_nat (length m) ≤ n_row * n_col)%Z →
  top_words m names n_top_words normalize = inr charts →
  returns (plot_top_words model feature_names n_top_words n_row n_col normalize)
    σ (λ σ' fa,
      length fa.2 = Z.to_nat (n_row * n_col) ∧
      ∀ k chart, charts !! k = Some chart →
        ∃ ax, fa.2 !! k = Some ax ∧ σ' !! ax = Some (Axes (Some chart))).
Proof.
  intros Hmodel Hc Hnames Hrow Hcol Hcells Hfit Hcharts.
  apply for_each_inr in Hcharts. unfold plot_top_words.
  apply returns_bind.
  eapply returns_mono; [by apply returns_subplots|].
  intros σ1 [fig axes] (Hσ1 & Hlen & Hnd & Hblank). simpl in Hlen, Hnd, Hblank.
  apply returns_bind. unfold flatten.
  destruct (Z.eqb_spec (n_row * n_col) 1); [done|]. apply returns_ret.
  apply returns_bind. unfold get_components_.
  apply returns_bind. eapply returns_load; [by eapply lookup_weaken|].
  apply returns_ret. apply returns_bind.
  assert (returns
    (if normalize
     then m ← load_array2 c;
          _ ← alloc (Array1 (sum_axis1 m));
          alloc (Array2 (divide_column m (sum_axis1 m)))
     else mret c) σ1
    (λ σ' c', σ1 ⊆ σ' ∧ σ' !! c' = Some (Array2 (components m normalize))))
    as Hnorm.
  { destruct normalize.
    - apply returns_bind.
      eapply returns_load_array2; [by eapply lookup_weaken|].
      apply returns_bind, returns_alloc_ext. intros σ2 _ Hσ2 _ _.
      apply returns_alloc_ext. intros σ3 c' Hσ3 _ Hc'.
      split; [by etrans|done].
    - apply returns_ret. split; [done|]. by eapply lookup_weaken. }
  eapply returns_mono; [exact Hnorm|]. clear Hnorm.
  intros σ2 c' [Hσ2 Hc']. simpl.
  apply returns_bind. eapply returns_load_array2; [done|].
  apply returns_bind.
  rewrite Forall_forall in Hblank.
  eapply returns_mono.
  { apply (returns_for_topics feature_names names n_top_words axes
             (components m normalize) charts 0 σ2); [done|done| | |].
    - rewrite components_length. simpl. lia.
    - eapply lookup_weaken; [exact Hnames|]. by etrans.
    - intros j ax Hj. exists None. eapply lookup_weaken; [|exact Hσ2].
      eapply Hblank, list_elem_of_lookup_2, Hj. }
  intros σ3 [] [Hdrawn _]. simpl. apply returns_ret. simpl.
  split; [done|]. intros k chart Hk. by apply (Hdrawn k).
Qed.

End draws.

(** A store with a model of two topics over four words. *)
Definition example_store : gmap loc obj :=
  <[1%positive := Model 2%positive]>
    (<[2%positive := Array2 [[dec 1 10; dec 0 1; dec 4 10; dec 5 10];
                             [dec 1 1; dec 1 1; dec 0 1; dec 0 1]]]>
       (<[3%positive := StrList ["a"; "b"; "c"; "d"]]> ∅)).

(** On a grid of one row and two columns the two charts are drawn. *)
Example plot_top_words_draws_example :
  returns (@plot_top_words Stable 1%positive 3%positive 2 1 2 false)
    example_store (λ σ' fa,
      length fa.2 = 2 ∧
      ∀ k chart,
        [(["d"; "c"], [dec 5 10; dec 4 10]);
         (["b"; "a"], [dec 1 1; dec 1 1])] !! k = Some chart →
        ∃ ax, fa.2 !! k = Some ax ∧ σ' !! ax = Some (Axes (Some chart))).
Proof.
  eapply (@plot_top_words_draws Stable example_store 1%positive 3%positive
            2%positive _ ["a"; "b"; "c"; "d"] 2 1 2 false).
  - reflexivity.
  - reflexivity.
  - reflexivity.
  - lia.
  - lia.
  - lia.
  - simpl. lia.
  - by vm_compute.
Defined.

End StoreFacts.

(** * Further properties of the extraction *)

Section selection_more.
Context `{Argsort}.
Implicit Types (topic : list float64) (n : Z) (names : list string).

(** A column that is not selected sorts no later than any selected one. *)
Lemma top_features_ind_rest topic n i j :
  i ∈ top_features_ind topic n →
  j < length topic →
  j ∉ top_features_ind topic n →
  key_le topic j i.
Proof.
  rewrite top_features_ind_take. intros Hi Hj Hnot.
  pose proof (StronglySorted_reverse _ _ (argsort_sorted topic)) as Hs.
  rewrite <- (take_drop (kept n (length topic)) (reverse (argsort topic))) in Hs.
  apply (StronglySorted_app_1_elem_of _ _ _ i j) in Hs; [done|done|].
  assert (j ∈ reverse (argsort topic)) as Hin.
  { rewrite elem_of_reverse, argsort_perm, elem_of_seq. lia. }
  rewrite <- (take_drop (kept n (length topic)) (reverse (argsort topic))) in Hin.
  apply elem_of_app in Hin as [Hin|Hin]; [by destruct Hnot|done].
Qed.

(** The top [n] are the first [n] of the top [n']. *)
Lemma top_features_ind_prefix topic n n' :
  (0 ≤ n ≤ n')%Z →
  top_features_ind topic n = take (Z.to_nat n) (top_features_ind topic n').
Proof.
  intros Hn. rewrite !top_features_ind_take, take_take. f_equal.
  unfold kept. destruct (Z.ltb_spec n 0), (Z.ltb_spec n' 0); lia.
Qed.

(** X1.  The top-N are the N greatest: in every topic row no column left out
    of the selection weighs more than a selected one; a selected weight
    that is a number is at least every weight left out. *)
Theorem top_words_selects_greatest topic topN i j :
  i ∈ top_features_ind topic topN →
  j < length topic →
  j ∉ top_features_ind topic topN →
  lt (key topic i) (key topic j) = false ∧
  (isnan (key topic i) = false → le (key topic j) (key topic i) = true).
Proof.
  intros Hi Hj Hnot.
  pose proof (top_features_ind_rest topic topN i j Hi Hj Hnot) as Hle.
  unfold key_le in Hle. split.
  - by apply sort_le_not_lt.
  - intros Hnan. by rewrite <- sort_le_le.
Qed.

End selection_more.

(** In [[0.1, 0.0, 0.4, 0.5]] with [topN = 2]: column 3 is selected,
    column 0 is not. *)
Lemma top_words_selects_greatest_witness :
  lt (key [dec 1 10; dec 0 1; dec 4 10; dec 5 10] 3)
     (key [dec 1 10; dec 0 1; dec 4 10; dec 5 10] 0) = false ∧
  (isnan (key [dec 1 10; dec 0 1; dec 4 10; dec 5 10] 3) = false →
   le (key [dec 1 10; dec 0 1; dec 4 10; dec 5 10] 0)
      (key [dec 1 10; dec 0 1; dec 4 10; dec 5 10] 3) = true).
Proof.
  apply (@top_words_selects_greatest Stable
           [dec 1 10; dec 0 1; dec 4 10; dec 5 10] 2 3 0).
  - by apply (bool_decide_unpack _); vm_compute.
  - simpl. lia.
  - by apply (bool_decide_unpack _); vm_compute.
Defined.

(** ** Rows are charted independently, and shorter charts are prefixes *)

Lemma for_each_app {A B} (f : A → result B) (l1 l2 : list A) :
  for_each f (l1 ++ l2)
  = match for_each f l1 with
    | inl e => inl e
    | inr ys1 =>
        match for_each f l2 with
        | inl e => inl e
        | inr ys2 => inr (ys1 ++ ys2)
        end
    end.
Proof.
  induction l1 as [|x l1 IH]; simpl.
  { by destruct (for_each f l2). }
  destruct (f x) as [e|y]; [done|]. unfold_result. rewrite IH.
  destruct (for_each f l1); [done|]. by destruct (for_each f l2).
Qed.

Lemma components_app m1 m2 normalize :
  components (m1 ++ m2) normalize
  = components m1 normalize ++ components m2 normalize.
Proof.
  destruct normalize; [|done]. by rewrite !components_true, fmap_app.
Qed.

Section composition.
Context `{Argsort}.
Implicit Types (topic : list float64) (n : Z) (names : list string).

(** X2.  No topic depends on another: the charts of a matrix are the charts of
    its first rows followed by the charts of the rest, and the first
    exception, if any, is the one of the first rows. *)
Theorem top_words_app m1 m2 names n_top_words normalize :
  top_words (m1 ++ m2) names n_top_words normalize
  = match top_words m1 names n_top_words normalize with
    | inl e => inl e
    | inr charts1 =>
        match top_words m2 names n_top_words normalize with
        | inl e => inl e
        | inr charts2 => inr (charts1 ++ charts2)
        end
    end.
Proof. unfold top_words. by rewrite components_app, for_each_app. Qed.

Lemma top_features_take names ind feats k :
  top_features names ind = inr feats →
  top_features names (take k ind) = inr (take k feats).
Proof.
  unfold top_features. rewrite !for_each_inr. apply Forall2_take.
Qed.

Lemma top_words_topic_prefix names n n' topic chart :
  (0 ≤ n ≤ n')%Z →
  top_words_topic names n' topic = inr chart →
  top_words_topic names n topic
  = inr (take (Z.to_nat n) chart.1, take (Z.to_nat n) chart.2).
Proof.
  intros Hn. unfold top_words_topic. cbv zeta. rewrite !weights_inr.
  destruct (top_features names (top_features_ind topic n')) as [|feats] eqn:Hf;
    [done|].
  unfold_result. intros [= <-]. simpl.
  rewrite (top_features_ind_prefix topic n n') by done.
  rewrite (top_features_take _ _ feats) by done.
  by rewrite fmap_take.
Qed.

(** X3.  Asking for fewer words gives a prefix: when the call with [n'] words
    returns, the call with [0 <= n <= n'] words returns too, and each of its
    charts holds the first [n] labels and weights of the longer chart. *)
Theorem top_words_prefix m names n n' normalize charts :
  (0 ≤ n ≤ n')%Z →
  top_words m names n' normalize = inr charts →
  top_words m names n normalize
  = inr ((λ chart, (take (Z.to_nat n) chart.1, take (Z.to_nat n) chart.2))
           <$> charts).
Proof.
  intros Hn. unfold top_words. rewrite !for_each_inr. intros Hall2.
  apply Forall2_fmap_r. eapply Forall2_impl; [exact Hall2|].
  intros topic chart Hchart. by apply top_words_topic_prefix with n'.
Qed.

End composition.

(** Two words and four of [[0.1, 0.0, 0.4, 0.5]]. *)
Lemma top_words_prefix_witness :
  @top_words Stable [[dec 1 10; dec 0 1; dec 4 10; dec 5 10]]
    ["a"; "b"; "c"; "d"] 2 false
  = inr ((λ chart, (take (Z.to_nat 2) chart.1, take (Z.to_nat 2) chart.2))
           <$> [(["d"; "c"; "a"; "b"],
                 [dec 5 10; dec 4 10; dec 1 10; dec 0 1])]).
Proof.
  apply (@top_words_prefix Stable [[dec 1 10; dec 0 1; dec 4 10; dec 5 10]]
           ["a"; "b"; "c"; "d"] 2 4 false).
  - lia.
  - by vm_compute.
Defined.

(** ** What normalisation changes and what it keeps *)

Lemma Qc_div_le (a b t : Qc) : (0 < t)%Qc → Qc_leb (a / t) (b / t) = Qc_leb a b.
Proof.
  intros Ht.
  assert (t ≠ 0%Qc) as Hne by (intros ->; by apply (Qclt_not_eq 0 0)).
  assert (∀ c : Qc, (c / t * t)%Qc = c) as Hmul by (intros c; by field).
  apply eq_true_iff_eq. rewrite !Qc_leb_le. split.
  - intros Hle. rewrite <- (Hmul a), <- (Hmul b).
    apply Qcmult_le_compat_r; [done|]. by apply Qclt_le_weak.
  - intros Hle. apply (Qcmult_lt_0_le_reg_r _ _ t); [done|]. by rewrite !Hmul.
Qed.


Lemma key_normalize_row row i :
  key (normalize_row row) i = div (key row i) (sum row).
Proof.
  unfold key, normalize_row. rewrite list_lookup_fmap.
  by destruct (row !! i).
Qed.






#[export] Instance exn_eq_decision : EqDecision exn.
Proof. solve_decision. Defined.
#[export] Instance result_eq_decision {A} `{EqDecision A} : EqDecision (result A).
Proof. unfold result. apply _. Defined.

(** Non-negative entries with a real sum are real and at most the sum. *)
Lemma sum_bounds row t :
  Forall (λ x, le zero x = true) row → sum row = Fin t →
  Forall (λ x, ∃ a, x = Fin a ∧ (0 <= a)%Qc ∧ (a <= t)%Qc) row.
Proof.
  intros Hrow. revert t. induction Hrow as [|x row Hx Hrow IH]; intros t Hsum.
  { constructor. }
  simpl in Hsum. pose proof (sum_nonneg row Hrow) as Hs.
  destruct x as [a| | |], (sum row) as [b| | |]; simpl in Hx, Hs, Hsum; try done.
  assert (t = (a + b)%Qc) as -> by congruence.
  apply Qc_leb_le in Hx, Hs.
  assert ((a + 0)%Qc = a) as Ha0 by ring.
  assert ((0 + b)%Qc = b) as H0b by ring.
  constructor.
  - exists a. split; [done|]. split; [done|].
    rewrite <- Ha0 at 1. by apply Qcplus_le_compat; [apply Qcle_refl|].
  - eapply Forall_impl; [by apply IH|]. intros x (c & -> & Hc & Hcb).
    exists c. split; [done|]. split; [done|].
    eapply Qcle_trans; [exact Hcb|].
    rewrite <- H0b at 1. by apply Qcplus_le_compat; [|apply Qcle_refl].
Qed.

Section unit_interval.
Context `{Argsort}.

(** X5.  Normalised weights are shares: when the entries of every row are
    non-negative and the row sums to a positive number, every weight
    charted with [normalize = true] lies between 0 and 1. *)
Theorem normalized_weights_are_shares m names n_top_words charts :
  Forall (λ row, Forall (λ x, le zero x = true) row ∧
                 ∃ t, sum row = Fin t ∧ (0 < t)%Qc) m →
  top_words m names n_top_words true = inr charts →
  Forall (λ chart, Forall (λ w, le zero w = true ∧ le w one = true) chart.2)
    charts.
Proof.
  intros Hm. unfold top_words. rewrite components_true, for_each_inr.
  intros Hall. apply Forall_forall. intros chart Hchart.
  apply list_elem_of_lookup in Hchart as [k Hk].
  destruct (Forall2_lookup_r _ _ _ _ _ Hall Hk) as (row' & Hrow' & Hrun).
  apply list_lookup_fmap_Some in Hrow' as (row & -> & Hrow).
  rewrite Forall_forall in Hm.
  destruct (Hm row) as (Hnonneg & t & Hsum & Ht);
    [by eapply list_elem_of_lookup_2|].
  unfold top_words_topic in Hrun. cbv zeta in Hrun.
  rewrite weights_inr in Hrun.
  destruct (top_features names _) as [|feats]; [done|].
  unfold_result. injection Hrun as <-. simpl.
  apply Forall_forall. intros w (i & -> & Hi)%list_elem_of_fmap.
  apply top_features_ind_lt in Hi. unfold normalize_row in Hi.
  rewrite length_fmap in Hi.
  destruct (lookup_lt_is_Some_2 row i Hi) as [x Hx].
  pose proof (sum_bounds row t Hnonneg Hsum) as Hb.
  rewrite Forall_forall in Hb.
  destruct (Hb x) as (a & -> & Ha & Hat); [by eapply list_elem_of_lookup_2|].
  rewrite key_normalize_row, Hsum. unfold key. rewrite Hx.
  change (default NaN (Some (Fin a))) with (Fin a).
  assert (t ≠ 0%Qc) as Hne by (intros ->; by apply (Qclt_not_eq 0 0)).
  rewrite div_finite by done. unfold zero, one, le.
  assert ((0 / t)%Qc = 0%Qc) as H0 by (by field).
  assert ((t / t)%Qc = 1%Qc) as H1 by (by field).
  split.
  - rewrite <- H0 at 1. rewrite Qc_div_le by done. by apply Qc_leb_le.
  - rewrite <- H1. rewrite Qc_div_le by done. by apply Qc_leb_le.
Qed.

End unit_interval.

(** The row [[2, 2, 4]] charts the shares 1/2, 1/4 and 1/4. *)
Lemma normalized_weights_are_shares_witness :
  Forall (λ chart, Forall (λ w, le zero w = true ∧ le w one = true) chart.2)
    [(["c"; "b"; "a"], [dec 1 2; dec 1 4; dec 1 4])].
Proof.
  apply (@normalized_weights_are_shares Stable [[dec 2 1; dec 2 1; dec 4 1]]
           ["a"; "b"; "c"] 3).
  - repeat constructor.
    exists (Q2Qc 8). by split; [apply (bool_decide_unpack _); vm_compute|].
  - by apply (bool_decide_unpack _); vm_compute.
Defined.

(** * Further properties of the call on the store *)

Module StoreOutcome.
Import Store StoreFacts.

(** [c] raises [e] from [σ]. *)
Definition raises {A} (c : M A) (σ : gmap loc obj) (e : exn) : Prop :=
  (c σ).2 = inl e.

Lemma raises_bind {A B} (c : M A) (k : A → M B) σ e :
  returns c σ (λ σ' x, raises (k x) σ' e) → raises (c ≫= k) σ e.
Proof.
  intros (σ' & x & Hc & Hk). unfold raises, mbind, M_bind. by rewrite Hc.
Qed.

Lemma raises_bind_now {A B} (c : M A) (k : A → M B) σ e :
  raises c σ e → raises (c ≫= k) σ e.
Proof.
  unfold raises, mbind, M_bind. destruct (c σ) as [σ' [e'|x]]; simpl; [|done].
  by intros [= ->].
Qed.

Lemma raises_lift {A} (r : result A) σ e : r = inl e → raises (lift r) σ e.
Proof. by intros ->. Qed.

Section outcome.
Context `{Argsort}.

(** One turn of the loop raises when a label is missing, or when there is
    no axes left for the topic. *)
Lemma raises_plot_topic σ feature_names names n axes k topic :
  σ !! feature_names = Some (StrList names) →
  (∃ e, top_words_topic names n topic = inl e) ∨ axes !! k = None →
  raises (plot_topic feature_names n axes k topic) σ IndexError.
Proof.
  intros Hnames Hbad. unfold plot_topic.
  apply raises_bind, returns_alloc_ext. intros σ1 _ Hσ1 _ _.
  apply raises_bind.
  eapply returns_load_names; [by eapply lookup_weaken|].
  destruct (top_features names (top_features_ind topic n)) as [e|feats] eqn:Hfeats.
  { apply raises_bind_now, raises_lift.
    by apply top_features_inl in Hfeats as [-> _]. }
  apply raises_bind. eapply returns_lift; [done|].
  apply raises_bind, returns_alloc_ext. intros σ2 _ Hσ2 _ _.
  apply raises_bind. eapply returns_lift; [apply weights_inr|].
  apply raises_bind, returns_alloc_ext. intros σ3 _ Hσ3 _ _.
  apply raises_bind_now, raises_lift.
  destruct Hbad as [[e He]|Hk].
  - unfold top_words_topic in He. cbv zeta in He.
    rewrite Hfeats, weights_inr in He. done.
  - unfold getitem. by rewrite Hk.
Qed.

(** The loop from topic [k] on: either every row has its labels and its
    axes, the loop returns, each row is drawn on its axes and the other
    axes are left as they were; or the loop raises [IndexError]. *)
Lemma for_topics_outcome feature_names names n axes rows k σ :
  NoDup axes →
  k ≤ length axes →
  σ !! feature_names = Some (StrList names) →
  (∀ j ax, axes !! j = Some ax → ∃ b, σ !! ax = Some (Axes b)) →
  (∃ charts σ',
     Forall2 (λ topic chart, top_words_topic names n topic = inr chart)
       rows charts ∧
     k + length rows ≤ length axes ∧
     for_topics (plot_topic feature_names n axes) k rows σ = (σ', inr ()) ∧
     (∀ j chart, charts !! j = Some chart →
        ∃ ax, axes !! (k + j) = Some ax ∧ σ' !! ax = Some (Axes (Some chart))) ∧
     (∀ j ax, axes !! j = Some ax → j < k ∨ k + length rows ≤ j →
        σ' !! ax = σ !! ax))
  ∨ (raises (for_topics (plot_topic feature_names n axes) k rows) σ IndexError ∧
     ¬ ((∃ charts,
           Forall2 (λ topic chart, top_words_topic names n topic = inr chart)
             rows charts) ∧
        k + length rows ≤ length axes)).
Proof.
  intros Hnd. revert k σ.
  induction rows as [|topic rows IH]; intros k σ Hk Hnames Haxes.
  { left. exists [], σ. split; [constructor|]. split; [simpl; lia|].
    split; [done|]. by split. }
  simpl.
  destruct (top_words_topic names n topic) as [e|chart] eqn:Hchart.
  { right. split.
    - apply raises_bind_now. eapply raises_plot_topic; eauto.
    - intros [(charts & Hall) _]. inversion Hall; congruence. }
  destruct (axes !! k) as [ax|] eqn:Hax.
  2: { right. split.
    - apply raises_bind_now. eapply raises_plot_topic; eauto.
    - intros [_ Hlen]. apply lookup_ge_None in Hax. simpl in Hlen. lia. }
  destruct (Haxes k ax Hax) as [b Hb].
  destruct (returns_plot_topic σ feature_names names n axes k topic chart ax b)
    as (σ1 & [] & Hrun & Hdrawn & Hrest); [done..|].
  assert (∀ j ax', j ≠ k → axes !! j = Some ax' → σ1 !! ax' = σ !! ax') as Hother.
  { intros j ax' Hj Hj'. destruct (Haxes j ax' Hj') as [b' Hb'].
    rewrite Hb'. apply Hrest; [|done]. intros ->.
    by apply Hj, (NoDup_lookup axes j k ax). }
  destruct (IH (S k) σ1) as
    [(charts & σ' & Hall & Hlen & Hloop & Hnew & Hold)|[Hraise Hnot]].
  - apply lookup_lt_Some in Hax. lia.
  - apply Hrest; [|done]. intros ->. congruence.
  - intros j ax' Hj. destruct (decide (j = k)) as [->|Hne].
    + assert (ax' = ax) as -> by congruence. eauto.
    + rewrite (Hother j ax' Hne Hj). by apply (Haxes j).
  - left. exists (chart :: charts), σ'. split; [by constructor|].
    split; [simpl; lia|]. split.
    { unfold mbind, M_bind. by rewrite Hrun. }
    split.
    + intros [|j] chart' Hj; simpl in Hj.
      * injection Hj as <-. exists ax. rewrite Nat.add_0_r. split; [done|].
        by rewrite (Hold k ax) by (done || lia).
      * destruct (Hnew j chart' Hj) as (ax' & Hax' & Hσ').
        exists ax'. split; [|done]. by replace (k + S j) with (S k + j) by lia.
    + intros j ax' Hj Hout. simpl in Hout.
      rewrite (Hold j ax') by (done || lia). apply (Hother j); [lia|done].
  - right. split.
    + apply raises_bind. by exists σ1, ().
    + intros [(charts & Hall) Hlen]. apply Hnot. simpl in Hlen. split; [|lia].
      inversion Hall; subst. eauto.
Qed.

Lemma bind_run {A B} (c : M A) (k : A → M B) σ σ' x :
  c σ = (σ', inr x) → (c ≫= k) σ = k x σ'.
Proof. intros Hc. unfold mbind, M_bind. by rewrite Hc. Qed.

(** The store of a call: a model, its matrix and the vocabulary. *)
Definition call_store (σ : gmap loc obj) (model feature_names : loc)
  (m : list (list float64)) (names : list string) : Prop :=
  ∃ c, σ !! model = Some (Model c) ∧ σ !! c = Some (Array2 m) ∧
       σ !! feature_names = Some (StrList names).

(** A grid that [subplots] and [flatten] accept. *)
Definition grid (n_row n_col : Z) : Prop :=
  (0 < n_row)%Z ∧ (0 < n_col)%Z ∧ (n_row * n_col ≠ 1)%Z.

(** Up to the loop nothing can go wrong: the call reaches it with new,
    distinct, blank axes, one per cell, and the store otherwise as it
    was. *)
Lemma plot_top_words_reaches_loop σ model feature_names m names
  n_top_words n_row n_col normalize :
  call_store σ model feature_names m names →
  grid n_row n_col →
  ∃ σ2 fig axes,
    NoDup axes ∧
    length axes = Z.to_nat (n_row * n_col) ∧
    σ2 !! feature_names = Some (StrList names) ∧
    Forall (λ ax, σ2 !! ax = Some (Axes None)) axes ∧
    plot_top_words model feature_names n_top_words n_row n_col normalize σ
    = (for_topics (plot_topic feature_names n_top_words axes) 0
         (components m normalize) ≫= λ _, mret (fig, axes)) σ2.
Proof.
  intros (c & Hmodel & Hc & Hnames) (Hrow & Hcol & Hcells).
  destruct (returns_subplots n_row n_col σ Hrow Hcol)
    as (σ1 & [fig axes] & Hsub & Hσ1 & Hlen & Hnd & Hblank).
  simpl in Hlen, Hnd, Hblank.
  assert (returns
    (if normalize
     then m ← load_array2 c;
          _ ← alloc (Array1 (sum_axis1 m));
          alloc (Array2 (divide_column m (sum_axis1 m)))
     else mret c) σ1
    (λ σ' c', σ1 ⊆ σ' ∧ σ' !! c' = Some (Array2 (components m normalize))))
    as (σ2 & c' & Hnorm & Hσ2 & Hc').
  { destruct normalize.
    - apply returns_bind.
      eapply returns_load_array2; [by eapply lookup_weaken|].
      apply returns_bind, returns_alloc_ext. intros σ2 _ Hσ2 _ _.
      apply returns_alloc_ext. intros σ3 c' Hσ3 _ Hc'.
      split; [by etrans|done].
    - apply returns_ret. split; [done|]. by eapply lookup_weaken. }
  exists σ2, fig, axes. split; [done|]. split; [done|]. split.
  { eapply lookup_weaken; [exact Hnames|]. by etrans. }
  split.
  { eapply Forall_impl; [exact Hblank|]. intros ax Hax. simpl in *.
    eapply lookup_weaken; [exact Hax|exact Hσ2]. }
  unfold plot_top_words. rewrite (bind_run _ _ _ _ _ Hsub). simpl.
  rewrite (bind_run _ _ σ1 σ1 axes).
  2: { unfold flatten. by destruct (Z.eqb_spec (n_row * n_col) 1). }
  rewrite (bind_run _ _ σ1 σ1 c).
  2: { unfold get_components_, mbind, M_bind, load.
       by rewrite (lookup_weaken _ _ _ _ Hmodel Hσ1). }
  rewrite (bind_run _ _ _ _ _ Hnorm).
  rewrite (bind_run _ _ σ2 σ2 (components m normalize)); [done|].
  unfold load_array2, mbind, M_bind, load. by rewrite Hc'.
Qed.

(** X7.  When the call returns: with a model, its matrix and the vocabulary in
    the store and a grid of more than one cell, the call returns exactly
    when every label lookup of the extraction succeeds and the grid has at
    least one cell per topic; in every other case it raises
    [IndexError]. *)
Theorem plot_top_words_returns_iff σ model feature_names m names
  n_top_words n_row n_col normalize :
  call_store σ model feature_names m names →
  grid n_row n_col →
  ((∃ fa, (plot_top_words model feature_names n_top_words n_row n_col
             normalize σ).2 = inr fa) ↔
   (∃ charts, top_words m names n_top_words normalize = inr charts) ∧
   (Z.of_nat (length m) ≤ n_row * n_col)%Z) ∧
  (∀ e, (plot_top_words model feature_names n_top_words n_row n_col
           normalize σ).2 = inl e → e = IndexError).
Proof.
  intros Hstore Hgrid.
  destruct (plot_top_words_reaches_loop σ model feature_names m names
              n_top_words n_row n_col normalize Hstore Hgrid)
    as (σ2 & fig & axes & Hnd & Hlen & Hnames & Hblank & ->).
  rewrite Forall_forall in Hblank.
  destruct (for_topics_outcome feature_names names n_top_words axes
              (components m normalize) 0 σ2)
    as [(charts & σ' & Hall & Hfit & Hloop & _)|[Hraise Hnot]];
    [done|lia|done| |..].
  { intros j ax Hj. exists None. eapply Hblank, list_elem_of_lookup_2, Hj. }
  - rewrite (bind_run _ _ _ _ _ Hloop). simpl. split; [|done].
    split; [intros _|by eauto].
    split; [exists charts; by apply for_each_inr|].
    rewrite components_length in Hfit. simpl in Hfit.
    destruct Hgrid as (Hrow & Hcol & _).
    pose proof (Z.mul_pos_pos _ _ Hrow Hcol). lia.
  - unfold raises in Hraise. unfold mbind, M_bind.
    destruct (for_topics _ _ _ σ2) as [σ' [e|[]]]; simpl in *; [|done].
    injection Hraise as ->. split; [|by intros ? [= <-]].
    split; [by intros [? ?]|]. intros [[charts Hcharts] Hfit].
    destruct Hnot. split; [exists charts; by apply for_each_inr|].
    rewrite components_length. simpl. lia.
Qed.

(** X8.  Cells beyond the topics stay empty: when the call returns, the axes
    whose index is not below the number of topics hold no bars. *)
Theorem plot_top_words_blank_axes σ model feature_names m names
  n_top_words n_row n_col normalize σ' fig axes :
  call_store σ model feature_names m names →
  grid n_row n_col →
  plot_top_words model feature_names n_top_words n_row n_col normalize σ
    = (σ', inr (fig, axes)) →
  length axes = Z.to_nat (n_row * n_col) ∧
  ∀ k ax, length m ≤ k → axes !! k = Some ax → σ' !! ax = Some (Axes None).
Proof.
  intros Hstore Hgrid.
  destruct (plot_top_words_reaches_loop σ model feature_names m names
              n_top_words n_row n_col normalize Hstore Hgrid)
    as (σ2 & fig' & axes' & Hnd & Hlen & Hnames & Hblank & ->).
  rewrite Forall_forall in Hblank.
  destruct (for_topics_outcome feature_names names n_top_words axes'
              (components m normalize) 0 σ2)
    as [(charts & σ'' & Hall & Hfit & Hloop & _ & Hrest)|[Hraise Hnot]];
    [done|lia|done| |..].
  { intros j ax Hj. exists None. eapply Hblank, list_elem_of_lookup_2, Hj. }
  - rewrite (bind_run _ _ _ _ _ Hloop). simpl. intros [= <- <- <-].
    split; [done|]. intros k ax Hk Hax.
    rewrite (Hrest k ax Hax).
    + eapply Hblank, list_elem_of_lookup_2, Hax.
    + right. rewrite components_length. simpl. lia.
  - unfold raises in Hraise. unfold mbind, M_bind.
    destruct (for_topics _ _ _ σ2) as [? [e|[]]]; simpl in *; done.
Qed.

End outcome.

(** The example store on a grid of one row and three columns: after the
    two topics one axes is left. *)
Lemma plot_top_words_blank_axes_witness :
  length [4%positive; 5%positive; 6%positive] = Z.to_nat (1 * 3) ∧
  ∀ k ax,
    length [[dec 1 10; dec 0 1; dec 4 10; dec 5 10];
            [dec 1 1; dec 1 1; dec 0 1; dec 0 1]] ≤ k →
    [4%positive; 5%positive; 6%positive] !! k = Some ax →
    (@plot_top_words Stable 1%positive 3%positive 2 1 3 false example_store).1
      !! ax = Some (Axes None).
Proof.
  apply (@plot_top_words_blank_axes Stable example_store 1%positive 3%positive
           [[dec 1 10; dec 0 1; dec 4 10; dec 5 10];
            [dec 1 1; dec 1 1; dec 0 1; dec 0 1]]
           ["a"; "b"; "c"; "d"] 2 1 3 false _ 7%positive).
  - exists 2%positive. by repeat split.
  - unfold grid. lia.
  - by vm_compute.
Defined.

(** The example store on a grid of one row and two columns. *)
Lemma plot_top_words_returns_iff_witness :
  ((∃ fa, (@plot_top_words Stable 1%positive 3%positive 2 1 2 false
             example_store).2 = inr fa) ↔
   (∃ charts,
      @top_words Stable [[dec 1 10; dec 0 1; dec 4 10; dec 5 10];
                         [dec 1 1; dec 1 1; dec 0 1; dec 0 1]]
        ["a"; "b"; "c"; "d"] 2 false = inr charts) ∧
   (Z.of_nat 2 ≤ 1 * 2)%Z) ∧
  (∀ e, (@plot_top_words Stable 1%positive 3%positive 2 1 2 false
           example_store).2 = inl e → e = IndexError).
Proof.
  apply (@plot_top_words_returns_iff Stable example_store 1%positive
           3%positive
           [[dec 1 10; dec 0 1; dec 4 10; dec 5 10];
            [dec 1 1; dec 1 1; dec 0 1; dec 0 1]]
           ["a"; "b"; "c"; "d"] 2 1 2 false).
  - exists 2%positive. by repeat split.
  - unfold grid. lia.
Defined.

End StoreOutcome.

Module FeaturizerFacts.
Import Featurizer.

(** What [row += v] adds to each entry of a row of [d] entries. *)
Definition spread (v : list float64) (d : nat) : list float64 :=
  if decide (length v = d) then v else replicate d (default zero (head v)).

Lemma spread_length v d : length v = d ∨ length v = 1 → length (spread v d) = d.
Proof.
  unfold spread. destruct (decide (length v = d)); [done|].
  by rewrite length_replicate.
Qed.

Lemma fmap_add_replicate (y : float64) (row : list float64) :
  (λ x, add x y) <$> row = zip_with add row (replicate (length row) y).
Proof. induction row as [|x row IH]; simpl; [done|]. by rewrite <- IH. Qed.

Lemma iadd_inr row v row' :
  iadd row v = inr row' ↔
  (length v = length row ∨ length v = 1) ∧
  row' = zip_with add row (spread v (length row)).
Proof.
  unfold iadd, spread. destruct (decide (length v = length row)) as [Hlen|Hlen].
  { split; [intros [= <-]; auto | by intros [_ ->]]. }
  destruct v as [|y [|z v]]; simpl in *.
  - split; [done|]. intros [[?|?] _]; lia.
  - rewrite fmap_add_replicate. split; [intros [= <-]; auto | by intros [_ ->]].
  - split; [done|]. intros [[?|?] _]; lia.
Qed.

Lemma iadd_length row v row' : iadd row v = inr row' → length row' = length row.
Proof.
  intros [Hok ->]%iadd_inr. rewrite length_zip_with, spread_length by done. lia.
Qed.

Lemma accumulate_length wv row tokens row' :
  accumulate wv row tokens = inr row' → length row' = length row.
Proof.
  revert row. induction tokens as [|token tokens IH]; intros row; simpl.
  { by intros [= <-]. }
  destruct (get_vector wv token) as [|v]; [done|].
  destruct (iadd row v) as [|row1] eqn:Hadd; [done|].
  intros Hacc%IH. apply iadd_length in Hadd. lia.
Qed.

Lemma accumulate_known wv row tokens :
  Forall (λ token, ∃ v, wv !! token = Some v ∧ length v = length row) tokens →
  ∃ row', accumulate wv row tokens = inr row'.
Proof.
  intros Hall. revert row Hall.
  induction tokens as [|token tokens IH]; intros row Hall; simpl; [by eauto|].
  apply Forall_cons in Hall as [(v & Hv & Hlen) Hall].
  unfold get_vector. rewrite Hv.
  destruct (iadd row v) as [|row1] eqn:Hadd.
  { exfalso. unfold iadd in Hadd. by rewrite decide_True in Hadd. }
  apply IH. eapply Forall_impl; [exact Hall|]. intros t (v' & ? & ?).
  exists v'. split; [done|]. apply iadd_length in Hadd. lia.
Qed.

Section facts.
Context `{Tokenizer} `{Word2Vec}.

Lemma featurize_length wv d doc row :
  featurize wv d doc = inr row → length row = d.
Proof.
  unfold featurize. cbv zeta.
  destruct (accumulate wv (zeros d) _) as [|row1] eqn:Hacc; [done|].
  intros [= <-]. apply accumulate_length in Hacc.
  unfold idiv, zeros in *. by rewrite length_fmap, Hacc, length_replicate.
Qed.

(** The rows of the matrix are the rows of the documents, in order. *)
Lemma featurize_all_inr wv d to_train X :
  featurize_all wv d to_train = inr X ↔
  Forall2 (λ doc row, featurize wv d doc = inr row) to_train X.
Proof.
  revert X. induction to_train as [|doc to_train IH]; intros X; simpl.
  { split; [intros [= <-]; constructor | by inversion 1]. }
  destruct (featurize wv d doc) as [e|row] eqn:Hdoc.
  { split; [done | inversion 1; congruence]. }
  destruct (featurize_all wv d to_train) as [e|X'].
  - split; [done|]. inversion 1 as [|???? _ HX]; subst.
    by apply IH in HX.
  - split.
    + intros [= <-]. constructor; [done | by apply IH].
    + inversion 1 as [|???? Hrow HX]; subst. apply IH in HX. congruence.
Qed.

(** X9.  The shape of the matrix: when the call returns, the matrix has one row
    per document of [to_train] and [vector_size] entries per row. *)
Theorem featurizer_shape documents to_train vector_size window sg X :
  featurizer documents to_train vector_size window sg = inr X →
  length X = length to_train ∧ Forall (λ row, length row = vector_size) X.
Proof.
  unfold featurizer. cbv zeta. destruct (fit _ _ _ _ _) as [|wv]; [done|].
  intros Hall%featurize_all_inr. split.
  - symmetry. by eapply Forall2_length.
  - apply Forall_forall. intros row Hrow.
    apply list_elem_of_lookup in Hrow as [i Hi].
    destruct (Forall2_lookup_r _ _ _ _ _ Hall Hi) as (doc & _ & Hdoc).
    by eapply featurize_length.
Qed.

(** X10.  No missing word when the documents to featurize are among the
    training documents: if the training returns and every document of
    [to_train] occurs in [documents], the call returns; [min_count = 1]
    keeps every token. *)
Theorem featurizer_returns documents to_train vector_size window sg wv :
  fit (word_tokenize <$> documents) vector_size window 1 sg = inr wv →
  Forall (λ doc, doc ∈ documents) to_train →
  ∃ X, featurizer documents to_train vector_size window sg = inr X.
Proof.
  intros Hfit Hsub. unfold featurizer. cbv zeta. rewrite Hfit.
  induction Hsub as [|doc to_train Hdoc _ (X & HX)]; simpl; [by eauto|].
  rewrite HX.
  destruct (accumulate_known wv (zeros vector_size) (word_tokenize doc))
    as [row Hrow].
  { apply Forall_forall. intros token Htoken.
    destruct (fit_vocabulary _ _ _ _ wv token Hfit) as [v Hv].
    { apply list_elem_of_join. exists (word_tokenize doc).
      split; [done|]. by apply list_elem_of_fmap_2. }
    exists v. split; [done|].
    rewrite (fit_vector_size _ _ _ _ _ _ _ _ Hfit Hv).
    unfold zeros. by rewrite length_replicate. }
  unfold featurize. cbv zeta. rewrite Hrow. eauto.
Qed.

(** X11.  A document without tokens: its row is not zero but NaN in every entry
    (the sum of no vector divided by 0), and nothing is raised. *)
Theorem featurizer_empty_document documents to_train vector_size window sg
  X idx doc :
  featurizer documents to_train vector_size window sg = inr X →
  to_train !! idx = Some doc →
  word_tokenize doc = [] →
  X !! idx = Some (replicate vector_size NaN).
Proof.
  unfold featurizer. cbv zeta. destruct (fit _ _ _ _ _) as [|wv]; [done|].
  intros Hall%featurize_all_inr Hdoc Hempty.
  destruct (Forall2_lookup_l _ _ _ _ _ Hall Hdoc) as (row & -> & Hrow).
  f_equal. unfold featurize in Hrow. cbv zeta in Hrow.
  rewrite Hempty in Hrow. simpl in Hrow. injection Hrow as <-.
  unfold idiv, zeros. rewrite fmap_replicate. done.
Qed.

End facts.

(** *** Instances of the two libraries, for the examples *)

(** One token per character. *)
Definition letters : Tokenizer :=
  {| word_tokenize s := (λ c, String c EmptyString) <$> String.list_ascii_of_string s |}.

(** Every token gets the vector of ones. *)
Definition ones_fit (sentences : list (list string)) (vector_size : nat)
  (window min_count sg : Z) : exc + gmap string (list float64) :=
  inr (list_to_map ((λ token, (token, replicate vector_size one))
                      <$> mjoin sentences)).

Lemma ones_fit_vocabulary sentences vector_size window sg wv token :
  ones_fit sentences vector_size window 1 sg = inr wv →
  token ∈ mjoin sentences → is_Some (wv !! token).
Proof.
  intros [= <-] Htoken. apply not_eq_None_Some.
  intros Hnot%not_elem_of_list_to_map_2. apply Hnot.
  rewrite <- list_fmap_compose. apply list_elem_of_fmap. by exists token.
Qed.

Lemma ones_fit_vector_size sentences vector_size window min_count sg wv token v :
  ones_fit sentences vector_size window min_count sg = inr wv →
  wv !! token = Some v → length v = vector_size.
Proof.
  intros [= <-] Hv%elem_of_list_to_map_2.
  apply list_elem_of_fmap in Hv as (t & [= -> ->] & _).
  apply length_replicate.
Qed.

Definition ones : Word2Vec :=
  {| fit := ones_fit;
     fit_vocabulary := ones_fit_vocabulary;
     fit_vector_size := ones_fit_vector_size |}.

#[export] Instance exc_eq_decision : EqDecision exc.
Proof. solve_decision. Defined.

(** Two documents trained on, one featurized, two entries per vector. *)
Lemma featurizer_shape_witness :
  length [[one; one]] = length ["ab"] ∧
  Forall (λ row, length row = 2) [[one; one]].
Proof.
  apply (@featurizer_shape letters ones ["ab"; "c"] ["ab"] 2 6 0).
  by apply (bool_decide_unpack _); vm_compute.
Defined.

Lemma featurizer_returns_witness :
  ∃ X, @featurizer letters ones ["ab"; "c"] ["c"; "ab"] 2 6 0 = inr X.
Proof.
  eapply (@featurizer_returns letters ones ["ab"; "c"] ["c"; "ab"] 2 6 0).
  - reflexivity.
  - repeat constructor.
Defined.

(** The empty document. *)
Lemma featurizer_empty_document_witness :
  [[one; one]; [NaN; NaN]] !! 1 = Some (replicate 2 NaN).
Proof.
  apply (@featurizer_empty_document letters ones ["ab"] ["ab"; EmptyString]
           2 6 0 [[one; one]; [NaN; NaN]] 1 EmptyString).
  - by apply (bool_decide_unpack _); vm_compute.
  - reflexivity.
  - reflexivity.
Defined.

End FeaturizerFacts.

(** * Facts about the regular expressions *)

Module ReFacts.
Import Str Re.

(** A match continues with what is left of the text, and a pattern that
    is not nullable has consumed something by then. *)
Lemma rep_suffix (body : nat → list N → cont → option (list N)) :
  (∀ pos s k x, body pos s k = Some x →
     ∃ pos' rest, rest `suffix_of` s ∧ k pos' rest = Some x) →
  ∀ fuel min max pos s k x,
    rep body fuel min max pos s k = Some x →
    ∃ pos' rest, rest `suffix_of` s ∧ k pos' rest = Some x ∧
      (min ≠ 0 → max ≠ Some 0 → length rest < length s).
Proof.
  intros Hbody. induction fuel as [|fuel IH]; intros min max pos s k x Hrep.
  - destruct max as [[|n]|], min; simpl in Hrep; try done;
      exists pos, s; split_and!; done.
  - assert (Hturn :
      match body pos s (λ pos' s',
              if bool_decide (length s' < length s)
              then rep body fuel (pred min) (pred <$> max) pos' s' k
              else None) with
      | Some rest => Some rest
      | None => match min with 0 => k pos s | S _ => None end
      end = Some x →
      ∃ pos' rest, rest `suffix_of` s ∧ k pos' rest = Some x ∧
        (min ≠ 0 → max ≠ Some 0 → length rest < length s)).
    { destruct (body pos s _) as [y|] eqn:Hb.
      - intros [= ->].
        destruct (Hbody _ _ _ _ Hb) as (pos1 & rest1 & Hsuf1 & Hk).
        case_bool_decide as Hlt; [|done].
        destruct (IH _ _ _ _ _ _ Hk) as (pos2 & rest2 & Hsuf2 & Hk2 & _).
        exists pos2, rest2. split_and!; [by etrans|done|].
        intros _ _. apply suffix_length in Hsuf2. lia.
      - destruct min; [|done]. intros Hk. exists pos, s. by split_and!. }
    destruct max as [[|n]|]; simpl in Hrep; [|by apply Hturn..].
    exists pos, s. by split_and!.
Qed.

Lemma exec_suffix (r : regex) (pos : nat) (s : list N) (k : cont) (x : list N) :
  exec r pos s k = Some x →
  ∃ pos' rest, rest `suffix_of` s ∧ k pos' rest = Some x ∧
    (nullable r = false → length rest < length s).
Proof.
  revert pos s k x.
  induction r as [|p| |r1 IH1 r2 IH2|r1 IH1 r2 IH2|r IH min max];
    intros pos s k x Hexec; simpl in Hexec.
  - exists pos, s. by split_and!.
  - destruct s as [|c s]; [done|]. destruct (p c); [|done].
    exists (S pos), s. split_and!; [by apply suffix_cons_r|done|simpl; lia].
  - destruct pos; [|done]. exists 0, s. by split_and!.
  - destruct (IH1 _ _ _ _ Hexec) as (pos1 & rest1 & Hsuf1 & Hk1 & Hlt1).
    destruct (IH2 _ _ _ _ Hk1) as (pos2 & rest2 & Hsuf2 & Hk2 & Hlt2).
    exists pos2, rest2. split_and!; [by etrans|done|].
    simpl. intros [Hn|Hn]%andb_false_iff.
    + specialize (Hlt1 Hn). apply suffix_length in Hsuf2. lia.
    + specialize (Hlt2 Hn). apply suffix_length in Hsuf1. lia.
  - destruct (exec r1 pos s k) as [y|] eqn:H1.
    + injection Hexec as ->.
      destruct (IH1 _ _ _ _ H1) as (pos1 & rest1 & Hsuf1 & Hk1 & Hlt1).
      exists pos1, rest1. split_and!; [done..|].
      simpl. intros [Hn _]%orb_false_iff. auto.
    + destruct (IH2 _ _ _ _ Hexec) as (pos2 & rest2 & Hsuf2 & Hk2 & Hlt2).
      exists pos2, rest2. split_and!; [done..|].
      simpl. intros [_ Hn]%orb_false_iff. auto.
  - apply rep_suffix in Hexec as (pos1 & rest1 & Hsuf1 & Hk1 & Hlt1).
    + exists pos1, rest1. split_and!; [done..|].
      simpl. intros Hn. apply Hlt1; destruct min, max as [[|n]|]; done.
    + intros pos0 s0 k0 x0 H0.
      destruct (IH _ _ _ _ H0) as (pos1 & rest1 & ? & ? & _). eauto.
Qed.

Lemma match_at_suffix (r : regex) (pos : nat) (s rest : list N) :
  match_at r pos s = Some rest →
  rest `suffix_of` s ∧ (nullable r = false → length rest < length s).
Proof.
  intros (pos' & rest' & Hsuf & [= ->] & Hlt)%exec_suffix. done.
Qed.

(** A match only asks what follows about texts that are not longer. *)
Lemma rep_ext (body : nat → list N → cont → option (list N)) :
  (∀ pos s k1 k2,
     (∀ pos' s', length s' ≤ length s → k1 pos' s' = k2 pos' s') →
     body pos s k1 = body pos s k2) →
  ∀ fuel min max pos s k1 k2,
    (∀ pos' s', length s' ≤ length s → k1 pos' s' = k2 pos' s') →
    rep body fuel min max pos s k1 = rep body fuel min max pos s k2.
Proof.
  intros Hbody. induction fuel as [|fuel IH]; intros min max pos s k1 k2 Hk.
  - destruct max as [[|n]|], min; simpl; auto.
  - assert (Hturn :
      body pos s (λ pos' s',
        if bool_decide (length s' < length s)
        then rep body fuel (pred min) (pred <$> max) pos' s' k1 else None) =
      body pos s (λ pos' s',
        if bool_decide (length s' < length s)
        then rep body fuel (pred min) (pred <$> max) pos' s' k2 else None)).
    { apply Hbody. intros pos' s' Hle. case_bool_decide; [|done].
      apply IH. intros pos2 s2 Hle2. apply Hk. lia. }
    destruct max as [[|n]|]; simpl; simpl in Hturn; [by apply Hk| |];
      rewrite Hturn, (Hk pos s); done.
Qed.

Lemma exec_ext (r : regex) (pos : nat) (s : list N) (k1 k2 : cont) :
  (∀ pos' s', length s' ≤ length s → k1 pos' s' = k2 pos' s') →
  exec r pos s k1 = exec r pos s k2.
Proof.
  revert pos s k1 k2.
  induction r as [|p| |r1 IH1 r2 IH2|r1 IH1 r2 IH2|r IH min max];
    intros pos s k1 k2 Hk; simpl.
  - by apply Hk.
  - destruct s as [|c s]; [done|]. destruct (p c); [|done].
    apply Hk. simpl. lia.
  - destruct pos; [|done]. by apply Hk.
  - apply IH1. intros pos' s' Hle. apply IH2.
    intros pos2 s2 Hle2. apply Hk. lia.
  - by rewrite (IH1 _ _ k1 k2), (IH2 _ _ k1 k2).
  - by apply rep_ext.
Qed.

Lemma exec_none (r : regex) (pos : nat) (s : list N) :
  exec r pos s (λ _ _, None) = None.
Proof.
  destruct (exec r pos s _) as [x|] eqn:Hexec; [|done].
  by apply exec_suffix in Hexec as (? & ? & _ & ? & _).
Qed.

(** The turns that [rep] counts are enough: more fuel changes nothing. *)
Lemma rep_S (body : nat → list N → cont → option (list N)) (fuel min : nat)
  (max : option nat) (pos : nat) (s : list N) (k : cont) :
  rep body (S fuel) min max pos s k =
  match max with
  | Some 0 => k pos s
  | _ =>
      match body pos s (λ pos' s',
              if bool_decide (length s' < length s)
              then rep body fuel (pred min) (pred <$> max) pos' s' k
              else None) with
      | Some rest => Some rest
      | None => match min with 0 => k pos s | S _ => None end
      end
  end.
Proof. by destruct max as [[|n]|]. Qed.

Lemma rep_0 (body : nat → list N → cont → option (list N)) (min : nat)
  (max : option nat) (pos : nat) (s : list N) (k : cont) :
  rep body 0 min max pos s k =
  match max with
  | Some 0 => k pos s
  | _ => match min with 0 => k pos s | S _ => None end
  end.
Proof. by destruct max as [[|n]|]. Qed.

Lemma rep_more_fuel (r : regex) (fuel min : nat) (max : option nat)
  (pos : nat) (s : list N) (k : cont) :
  length s ≤ fuel →
  rep (exec r) (S fuel) min max pos s k = rep (exec r) fuel min max pos s k.
Proof.
  revert min max pos s k.
  induction fuel as [|fuel IH]; intros min max pos s k Hlen.
  - destruct s; [|simpl in Hlen; lia].
    rewrite rep_S, rep_0.
    rewrite (exec_ext r pos [] _ (λ _ _, None)), exec_none; [done|].
    intros pos' s' _. case_bool_decide as Hlt; [simpl in Hlt; lia|done].
  - rewrite (rep_S _ (S fuel)), (rep_S _ fuel).
    rewrite (exec_ext r pos s _ (λ pos' s',
      if bool_decide (length s' < length s)
      then rep (exec r) fuel (pred min) (pred <$> max) pos' s' k
      else None)); [done|].
    intros pos' s' _. case_bool_decide; [|done]. apply IH. lia.
Qed.

Lemma rep_enough_fuel (r : regex) (fuel min : nat) (max : option nat)
  (pos : nat) (s : list N) (k : cont) :
  length s ≤ fuel →
  rep (exec r) fuel min max pos s k = exec (Rep r min max) pos s k.
Proof.
  simpl. induction 1 as [|fuel Hle IH]; [done|].
  rewrite rep_more_fuel; done.
Qed.

Lemma exec_Set (p : N → bool) (pos : nat) (c : N) (s : list N) (k : cont) :
  exec (Set_ p) pos (c :: s) k = if p c then k (S pos) s else None.
Proof. done. Qed.

(** A repetition that need not take a turn matches where what follows
    does. *)
Lemma rep_optional (body : nat → list N → cont → option (list N))
  (fuel : nat) (max : option nat) (pos : nat) (s : list N) (k : cont) :
  is_Some (k pos s) → is_Some (rep body fuel 0 max pos s k).
Proof.
  intros Hk. destruct fuel; [rewrite rep_0|rewrite rep_S];
    destruct max as [[|n]|]; try done; by destruct (body _ _ _).
Qed.

(** The matcher finds only matches... *)
Lemma rep_sound (r : regex) :
  (∀ pos s k x, exec r pos s k = Some x →
     ∃ pos' rest, matches r pos s pos' rest ∧ k pos' rest = Some x) →
  ∀ fuel min max pos s k x,
    rep (exec r) fuel min max pos s k = Some x →
    ∃ pos' rest, matches (Rep r min max) pos s pos' rest ∧
      k pos' rest = Some x.
Proof.
  intros Hbody. induction fuel as [|fuel IH]; intros min max pos s k x.
  - rewrite rep_0. destruct max as [[|n]|], min; try done; intros Hk;
      exists pos, s; split; done || constructor.
  - rewrite rep_S.
    assert (Hturn : max ≠ Some 0 →
      match exec r pos s (λ pos' s',
              if bool_decide (length s' < length s)
              then rep (exec r) fuel (pred min) (pred <$> max) pos' s' k
              else None) with
      | Some rest => Some rest
      | None => match min with 0 => k pos s | S _ => None end
      end = Some x →
      ∃ pos' rest, matches (Rep r min max) pos s pos' rest ∧
        k pos' rest = Some x).
    { intros Hmax. destruct (exec r pos s _) as [y|] eqn:Hb.
      - intros [= ->].
        destruct (Hbody _ _ _ _ Hb) as (pos1 & s1 & Hm1 & Hk).
        case_bool_decide as Hlt; [|done].
        destruct (IH _ _ _ _ _ _ Hk) as (pos2 & s2 & Hm2 & Hk2).
        exists pos2, s2. split; [|done]. by eapply matches_Rep_turn.
      - destruct min; [|done]. intros Hk. exists pos, s.
        split; [constructor|done]. }
    destruct max as [[|n]|]; [|by apply Hturn..].
    intros Hk. exists pos, s. split; [constructor|done].
Qed.

Lemma exec_sound (r : regex) (pos : nat) (s : list N) (k : cont) (x : list N) :
  exec r pos s k = Some x →
  ∃ pos' rest, matches r pos s pos' rest ∧ k pos' rest = Some x.
Proof.
  revert pos s k x.
  induction r as [|p| |r1 IH1 r2 IH2|r1 IH1 r2 IH2|r IH min max];
    intros pos s k x Hexec; simpl in Hexec.
  - exists pos, s. split; [constructor|done].
  - destruct s as [|c s]; [done|]. destruct (p c) eqn:Hc; [|done].
    exists (S pos), s. split; [by constructor|done].
  - destruct pos; [|done]. exists 0, s. split; [constructor|done].
  - destruct (IH1 _ _ _ _ Hexec) as (pos1 & s1 & Hm1 & Hk1).
    destruct (IH2 _ _ _ _ Hk1) as (pos2 & s2 & Hm2 & Hk2).
    exists pos2, s2. split; [by econstructor|done].
  - destruct (exec r1 pos s k) as [y|] eqn:H1.
    + injection Hexec as ->.
      destruct (IH1 _ _ _ _ H1) as (pos1 & s1 & Hm1 & Hk1).
      exists pos1, s1. split; [by apply matches_Alt_l|done].
    + destruct (IH2 _ _ _ _ Hexec) as (pos2 & s2 & Hm2 & Hk2).
      exists pos2, s2. split; [by apply matches_Alt_r|done].
  - by apply rep_sound in Hexec.
Qed.

(** ... and finds one whenever there is one that what follows accepts. *)
Lemma exec_complete (r : regex) (pos : nat) (s : list N) (pos' : nat)
  (rest : list N) (k : cont) :
  matches r pos s pos' rest →
  is_Some (k pos' rest) → is_Some (exec r pos s k).
Proof.
  intros Hm. revert k.
  induction Hm as [pos s|p pos c s Hc|s
    |r1 r2 pos s pos1 s1 pos2 s2 _ IH1 _ IH2
    |r1 r2 pos s pos1 s1 _ IH|r1 r2 pos s pos2 s2 _ IH
    |r max pos s|r min pos s
    |r min max pos s pos1 s1 pos2 s2 Hmax _ IH1 Hlt _ IH2];
    intros k Hk.
  - done.
  - by rewrite exec_Set, Hc.
  - done.
  - simpl. apply IH1, IH2, Hk.
  - simpl. destruct (IH k Hk) as [x ->]. by eexists.
  - simpl. destruct (exec r1 pos s k); [by eexists|]. by apply IH.
  - by apply rep_optional.
  - simpl. destruct (length s); [rewrite rep_0|rewrite rep_S]; done.
  - change (exec (Rep r min max) pos s k)
      with (rep (exec r) (length s) min max pos s k).
    destruct (length s) as [|fuel] eqn:Hlen; [lia|]. rewrite rep_S.
    assert (Hturn : is_Some (exec r pos s (λ pos' s',
      if bool_decide (length s' < length s)
      then rep (exec r) fuel (pred min) (pred <$> max) pos' s' k
      else None))).
    { apply IH1. rewrite bool_decide_eq_true_2 by lia.
      rewrite rep_enough_fuel by lia. by apply IH2. }
    destruct Hturn as [x Hx].
    destruct max as [[|n]|]; [done|rewrite Hx; by eexists..].
Qed.

(** What is left after a match is an end of the text. *)
Lemma matches_suffix (r : regex) (pos : nat) (s : list N) (pos' : nat)
  (rest : list N) :
  matches r pos s pos' rest → rest `suffix_of` s.
Proof.
  induction 1; try done.
  - by apply suffix_cons_r.
  - by etrans.
  - by etrans.
Qed.

Lemma match_at_matches (r : regex) (pos : nat) (s rest : list N) :
  match_at r pos s = Some rest → ∃ pos', matches r pos s pos' rest.
Proof.
  intros (pos' & rest' & Hm & [= ->])%exec_sound. by exists pos'.
Qed.

End ReFacts.

(** * Facts about [re.sub] *)

Module SubFacts.
Import Str Re ReFacts.

Lemma sub_from_skip (r : regex) (repl : list N) (skip pos : nat) (s : list N) :
  skip ≤ length s →
  sub_from r repl pos skip s = sub_from r repl (pos + skip) 0 (drop skip s).
Proof.
  revert pos s. induction skip as [|skip IH]; intros pos s Hlen.
  - by rewrite Nat.add_0_r, drop_0.
  - destruct s as [|c s]; [simpl in Hlen; lia|].
    simpl in *. rewrite IH by lia. f_equal. lia.
Qed.

Lemma sub_from_cons (r : regex) (repl : list N) (pos : nat) (c : N) (s : list N) :
  sub_from r repl pos 0 (c :: s) =
  match match_at r pos (c :: s) with
  | Some rest =>
      match length (c :: s) - length rest with
      | 0 => c :: sub_from r repl (S pos) 0 s
      | S len => repl ++ sub_from r repl (S pos) len s
      end
  | None => c :: sub_from r repl (S pos) 0 s
  end.
Proof. done. Qed.

Lemma contains_app_foreign (a : N) (w l out : list N) :
  a ∉ l → contains (l ++ out) (a :: w) → contains out (a :: w).
Proof.
  induction l as [|b l IH]; [done|].
  intros [Hab Ha]%not_elem_of_cons (l1 & l2 & Hout).
  destruct l1 as [|c1 l1]; simpl in Hout.
  - by injection Hout as -> _.
  - injection Hout as _ Hout. apply IH; [done|]. by exists l1, l2.
Qed.

Section pieces.
Variables (r : regex) (repl : list N).
Hypothesis consumes : nullable r = false.

(** How [re.sub] cuts a text: characters where the pattern does not
    match, which are kept, and matches, which are replaced. *)
Inductive pieces : nat → list N → list N → Prop :=
  | pieces_nil pos : pieces pos [] []
  | pieces_copy pos c s out :
      match_at r pos (c :: s) = None →
      pieces (S pos) s out →
      pieces pos (c :: s) (c :: out)
  | pieces_match pos m rest out :
      match_at r pos (m ++ rest) = Some rest →
      m ≠ [] →
      pieces (pos + length m) rest out →
      pieces pos (m ++ rest) (repl ++ out).

Lemma sub_from_pieces (n : nat) (s : list N) (pos : nat) :
  length s ≤ n → pieces pos s (sub_from r repl pos 0 s).
Proof.
  revert s pos. induction n as [|n IH]; intros [|c s] pos Hlen;
    simpl in Hlen; try lia; try constructor.
  rewrite sub_from_cons.
  destruct (match_at r pos (c :: s)) as [rest|] eqn:Hmatch;
    [|constructor; [done|apply IH; lia]].
  destruct (match_at_suffix _ _ _ _ Hmatch) as [[m Hm] Hlt].
  specialize (Hlt consumes).
  assert (Hlen' : length (c :: s) - length rest = length m).
  { rewrite Hm, length_app. lia. }
  rewrite Hlen'. destruct m as [|c' m]; [simpl in Hm; subst rest; lia|].
  injection Hm as <- ->. simpl length. cbv iota.
  rewrite sub_from_skip by (rewrite length_app; lia).
  rewrite drop_app_length.
  replace (S pos + length m) with (pos + length (c :: m)) by (simpl; lia).
  apply (pieces_match pos (c :: m) rest); [done..|].
  apply IH. rewrite length_app in Hlen. lia.
Qed.

Lemma sub_pieces (s : list N) : pieces 0 s (sub r repl s).
Proof. by apply (sub_from_pieces (length s)). Qed.

(** What holds of the text and of the replacement holds of the result. *)
Lemma pieces_Forall (Q : N → Prop) (pos : nat) (s out : list N) :
  pieces pos s out → Forall Q repl → Forall Q s → Forall Q out.
Proof.
  intros Hp Hrepl. induction Hp as [|pos c s out _ _ IH|pos m rest out _ _ _ IH].
  - done.
  - intros [? ?]%Forall_cons. constructor; auto.
  - intros [_ ?]%Forall_app. apply Forall_app. auto.
Qed.

(** So does what holds of the replacement and of every character at
    which the pattern does not match. *)
Lemma pieces_rejected (Q : N → Prop) (pos : nat) (s out : list N) :
  pieces pos s out →
  Forall Q repl →
  (∀ pos c s, match_at r pos (c :: s) = None → Q c) →
  Forall Q out.
Proof.
  intros Hp Hrepl Hrej.
  induction Hp as [|pos c s out Hnone _ IH|pos m rest out _ _ _ IH].
  - done.
  - constructor; eauto.
  - apply Forall_app. auto.
Qed.

(** A word of the result that starts with a character foreign to the
    replacement, and in which the replacement does not start, stood in
    the text, at a place where the pattern does not match. *)
Lemma pieces_prefix (w : list N) (pos : nat) (s out : list N) :
  pieces pos s out →
  repl ≠ [] →
  Forall (λ c, head repl ≠ Some c) w →
  w `prefix_of` out → w `prefix_of` s.
Proof.
  intros Hp Hrepl. revert w.
  induction Hp as [|pos c s out _ _ IH|pos m rest out _ _ _ IH];
    intros w Hw Hpre.
  - done.
  - destruct w as [|a w]; [apply prefix_nil|].
    apply Forall_cons in Hw as [_ Hw].
    apply prefix_cons_inv_1 in Hpre as Ha. apply prefix_cons_inv_2 in Hpre.
    subst a. apply prefix_cons. auto.
  - destruct w as [|a w]; [apply prefix_nil|].
    apply Forall_cons in Hw as [Ha _].
    destruct repl as [|b repl']; [done|].
    apply prefix_cons_inv_1 in Hpre. by subst.
Qed.

Lemma pieces_contains (a : N) (w : list N) (pos : nat) (s out : list N) :
  pieces pos s out →
  repl ≠ [] →
  a ∉ repl →
  Forall (λ c, head repl ≠ Some c) w →
  contains out (a :: w) →
  ∃ s1 s2, s = s1 ++ (a :: w) ++ s2 ∧
    match_at r (pos + length s1) ((a :: w) ++ s2) = None.
Proof.
  intros Hp Hrepl Ha Hw.
  induction Hp as [|pos c s out Hnone Hp IH|pos m rest out _ _ _ IH];
    intros (l1 & l2 & Hout).
  - by destruct l1.
  - destruct l1 as [|c1 l1]; simpl in Hout.
    + injection Hout as -> ->.
      destruct (pieces_prefix w _ _ _ Hp Hrepl Hw) as [s2 ->];
        [by eexists|].
      exists [], s2. split; [done|]. by rewrite Nat.add_0_r.
    + injection Hout as <- ->.
      destruct IH as (s1 & s2 & -> & Hnone'); [by eexists _, _|].
      exists (c :: s1), s2. split; [done|].
      by replace (pos + length (c :: s1)) with (S pos + length s1)
        by (simpl; lia).
  - assert (contains out (a :: w)) as Hin.
    { apply (contains_app_foreign a w repl); [done|]. by exists l1, l2. }
    destruct (IH Hin) as (s1 & s2 & -> & Hnone').
    exists (m ++ s1), s2. split; [by rewrite <- !app_assoc|].
    by rewrite length_app, Nat.add_assoc.
Qed.

End pieces.

(** ** One or more characters of a class *)

Lemma drop_while_suffix (p : N → bool) (l : list N) :
  drop_while p l `suffix_of` l.
Proof.
  induction l as [|c l IH]; simpl; [done|].
  destruct (p c); [by apply suffix_cons_r|done].
Qed.

Lemma drop_while_head (p : N → bool) (l : list N) (c : N) :
  head (drop_while p l) = Some c → p c = false.
Proof.
  induction l as [|c' l IH]; simpl; [done|].
  destruct (p c') eqn:Hc'; [done|]. simpl. by intros [= <-].
Qed.

Lemma rep_set_star (p : N → bool) (fuel pos : nat) (s : list N) :
  length s ≤ fuel →
  rep (exec (Set_ p)) fuel 0 None pos s (λ _ rest, Some rest) =
  Some (drop_while p s).
Proof.
  revert pos s. induction fuel as [|fuel IH]; intros pos [|c s] Hlen;
    simpl in Hlen; try lia; try done.
  rewrite rep_S. simpl. destruct (p c); [|done].
  rewrite bool_decide_eq_true_2 by lia. rewrite IH by lia. done.
Qed.

Lemma match_at_plus (p : N → bool) (pos : nat) (s : list N) :
  match_at (Plus (Set_ p)) pos s =
  match s with
  | c :: s' => if p c then Some (drop_while p s') else None
  | [] => None
  end.
Proof.
  unfold match_at, Plus. destruct s as [|c s]; [done|].
  change (exec (Rep (Set_ p) 1 None) pos (c :: s) (λ _ rest, Some rest))
    with (rep (exec (Set_ p)) (S (length s)) 1 None pos (c :: s)
            (λ _ rest, Some rest)).
  rewrite rep_S, exec_Set. destruct (p c); [|done].
  rewrite bool_decide_eq_true_2 by (simpl; lia).
  change (pred 1) with 0. change (pred <$> None) with (@None nat).
  by rewrite rep_set_star.
Qed.

Lemma exec_Lit (w : string) (pos : nat) (s : list N) (k : cont) :
  exec (Lit w) pos (str w ++ s) k = k (pos + String.length w) s.
Proof.
  unfold Lit, str. revert pos. induction w as [|a w IH]; intros pos; simpl.
  - by rewrite Nat.add_0_r.
  - rewrite bool_decide_eq_true_2 by done. rewrite IH. f_equal. lia.
Qed.

(** ** Matches of literals and of runs of a class *)

Lemma matches_Lit (w : string) (pos : nat) (s : list N) :
  matches (Lit w) pos (str w ++ s) (pos + String.length w) s.
Proof.
  unfold Lit, str. revert pos. induction w as [|a w IH]; intros pos; simpl.
  - rewrite Nat.add_0_r. constructor.
  - eapply matches_Seq.
    + constructor. by apply bool_decide_eq_true_2.
    + replace (pos + S (String.length w)) with (S pos + String.length w) by lia.
      apply IH.
Qed.

Lemma matches_run (p : N → bool) (min pos : nat) (run s : list N) :
  min ≤ length run →
  Forall (λ c, p c = true) run →
  matches (Rep (Set_ p) min None) pos (run ++ s) (pos + length run) s.
Proof.
  revert min pos. induction run as [|c run IH]; intros min pos Hmin Hrun.
  - destruct min; [|simpl in Hmin; lia]. simpl. rewrite Nat.add_0_r.
    constructor.
  - apply Forall_cons in Hrun as [Hc Hrun].
    apply (matches_Rep_turn _ _ _ _ _ (S pos) (run ++ s)); [done| |simpl; lia|].
    + by constructor.
    + replace (pos + length (c :: run)) with (S pos + length run)
        by (simpl; lia).
      apply IH; [simpl in Hmin; lia|done].
Qed.

(** ** Texts in which a pattern does not match *)

Lemma sub_no_match (r : regex) (repl s : list N) :
  (∀ pos s', s' `suffix_of` s → match_at r pos s' = None) →
  sub r repl s = s.
Proof.
  intros Hnone. enough (Hpos : ∀ pos, sub_from r repl pos 0 s = s) by apply Hpos.
  induction s as [|c s IH]; intros pos; [done|].
  rewrite sub_from_cons, Hnone by done. f_equal.
  apply IH. intros pos' s' Hs'. apply Hnone. by apply suffix_cons_r.
Qed.

(** A pattern that needs a character the text does not have replaces
    nothing. *)
Lemma sub_needs (r : regex) (repl s : list N) (special : N → Prop) :
  (∀ pos s' rest, match_at r pos s' = Some rest → ∃ c, c ∈ s' ∧ special c) →
  Forall (λ c, ¬ special c) s →
  sub r repl s = s.
Proof.
  intros Hneeds Hs. apply sub_no_match. intros pos s' [l ->].
  destruct (match_at r pos s') as [rest|] eqn:Hm; [|done].
  destruct (Hneeds _ _ _ Hm) as (c & Hc & Hsp).
  rewrite Forall_forall in Hs. destruct (Hs c); [|done].
  apply elem_of_app. by right.
Qed.

(** ** What [re.sub] puts in and what it keeps *)

(** Texts whose neighbours are all related by [P]. *)
Fixpoint linked (P : N → N → Prop) (m : list N) : Prop :=
  match m with
  | x :: m' =>
      match m' with
      | y :: _ => P x y ∧ linked P m'
      | [] => True
      end
  | [] => True
  end.

Lemma linked_app (P : N → N → Prop) (l : list N) (x y : N) (l' : list N) :
  linked P (l ++ x :: y :: l') → P x y.
Proof.
  induction l as [|c l IH]; simpl; [by intros [? _]|].
  destruct l as [|d l]; simpl in *; intros [_ ?]; auto.
Qed.

Section keeps.
Variables (r : regex) (repl : list N).
Hypothesis consumes : nullable r = false.
Variables (F : N → Prop) (P : N → N → Prop).
Hypothesis first : ∀ pos c s rest, match_at r pos (c :: s) = Some rest → F c.
Hypothesis pairs :
  ∀ pos m rest, match_at r pos (m ++ rest) = Some rest → linked P m.

(** A word in which no match starts, and that starts the text, starts the
    result. *)
Lemma pieces_keeps_prefix (w : list N) (pos : nat) (s out : list N) :
  pieces r repl pos s out →
  Forall (λ c, ¬ F c) w →
  w `prefix_of` s → w `prefix_of` out.
Proof.
  intros Hp. revert w.
  induction Hp as [|pos c s out _ _ IH|pos m rest out Hm Hne _ IH];
    intros w Hw Hpre.
  - done.
  - destruct w as [|a w]; [apply prefix_nil|].
    apply Forall_cons in Hw as [_ Hw].
    apply prefix_cons_inv_1 in Hpre as Ha. apply prefix_cons_inv_2 in Hpre.
    subst a. apply prefix_cons. auto.
  - destruct w as [|a w]; [apply prefix_nil|].
    apply Forall_cons in Hw as [Ha _].
    destruct m as [|c m]; [done|].
    apply prefix_cons_inv_1 in Hpre as ->.
    destruct Ha. by apply (first pos c (m ++ rest) rest).
Qed.

(** A word after a space stays a word after a space, when the replacement
    ends with the space, no match starts in the word, and no match holds
    the space followed by the first character of the word. *)
Lemma pieces_keeps_spaced (sp a0 : N) (w : list N) (pos : nat) (s out : list N) :
  pieces r repl pos s out →
  last repl = Some sp →
  Forall (λ c, ¬ F c) (a0 :: w) →
  ¬ P sp a0 →
  contains s (sp :: a0 :: w) → contains out (sp :: a0 :: w).
Proof.
  intros Hp Hlast Hw Hpair.
  induction Hp as [|pos c s out Hnone Hp IH|pos m rest out Hm Hne Hp IH];
    intros (l1 & l2 & Hs).
  - by destruct l1.
  - destruct l1 as [|c1 l1]; simpl in Hs.
    + injection Hs as -> ->.
      destruct (pieces_keeps_prefix (a0 :: w) _ _ _ Hp Hw) as [k ->];
        [by eexists|].
      by exists [], k.
    + injection Hs as <- ->.
      destruct IH as (k1 & k2 & ->); [by eexists _, _|].
      by exists (c :: k1), k2.
  - apply app_eq_inv in Hs as [(k & -> & Hk)|(k & -> & ->)].
    + destruct k as [|x [|y k]].
      * simpl in Hk. subst rest.
        destruct IH as (k1 & k2 & ->); [by exists [], l2|].
        exists (repl ++ k1), k2. by rewrite <- !app_assoc.
      * simpl in Hk. injection Hk as <- <-.
        destruct (pieces_keeps_prefix (a0 :: w) _ _ _ Hp Hw) as [k ->];
          [by eexists|].
        apply last_Some in Hlast as [repl' ->].
        exists repl', k. by rewrite <- !app_assoc.
      * simpl in Hk. injection Hk as <- <- _.
        apply pairs in Hm. by apply linked_app in Hm.
    + destruct IH as (k1 & k2 & ->); [by exists k, l2|].
      exists (repl ++ k1), k2. by rewrite <- !app_assoc.
Qed.

(** Where the pattern matches somewhere, the replacement is put in. *)
Lemma pieces_marks (pos : nat) (s out : list N) (l1 s2 rest : list N) :
  pieces r repl pos s out →
  s = l1 ++ s2 →
  match_at r (pos + length l1) s2 = Some rest →
  contains out repl.
Proof.
  intros Hp. revert l1.
  induction Hp as [|pos c s out Hnone Hp IH|pos m rest' out Hm Hne Hp IH];
    intros l1 Hs Hmatch.
  - destruct l1, s2; try done.
    apply match_at_suffix in Hmatch as [_ Hlt].
    specialize (Hlt consumes). simpl in Hlt. lia.
  - destruct l1 as [|c1 l1]; simpl in Hs.
    + subst s2. rewrite Nat.add_0_r in Hmatch. congruence.
    + injection Hs as <- ->.
      destruct (IH l1) as (k1 & k2 & ->); [done| |].
      * by replace (S pos + length l1) with (pos + length (c :: l1))
          by (simpl; lia).
      * by exists (c :: k1), k2.
  - by exists [], out.
Qed.

End keeps.

Lemma linked_cons (P : N → N → Prop) (x : N) (m : list N) :
  (∀ y, head m = Some y → P x y) → linked P m → linked P (x :: m).
Proof. destruct m as [|y m]; simpl; auto. Qed.

Lemma Forall_linked (Q : N → Prop) (P : N → N → Prop) (m : list N) :
  (∀ x y, Q x → Q y → P x y) → Forall Q m → linked P m.
Proof.
  intros HQ. induction 1 as [|x m Hx Hm IH]; [done|].
  apply linked_cons; [|done]. destruct Hm; simpl; [done|].
  intros y [= <-]. auto.
Qed.

(** What a run of a class matches. *)
Lemma matches_run_inv (p : N → bool) (min pos : nat) (s : list N)
  (pos' : nat) (rest : list N) :
  matches (Rep (Set_ p) min None) pos s pos' rest →
  ∃ run, s = run ++ rest ∧ Forall (λ c, p c = true) run ∧ min ≤ length run.
Proof.
  remember (Rep (Set_ p) min None) as r eqn:Hr. intros Hm. revert min Hr.
  induction Hm as [| | | | | |r max pos s|r min' pos s
    |r min' max pos s pos1 s1 pos2 s2 Hmax Hbody _ Hlt _ IH];
    intros min Hr; try discriminate.
  - injection Hr as -> <- ->. exists []. by split_and!.
  - injection Hr as -> <- ->.
    inversion Hbody as [|p0 pos0 c s0 Hc| | | | | | |]; subst.
    destruct (IH (pred min') eq_refl) as (run & -> & Hrun & Hlen).
    exists (c :: run). split_and!; [done|by constructor|simpl; lia].
Qed.

Lemma sub_marks (r : regex) (repl s l1 s2 : list N) :
  nullable r = false →
  s = l1 ++ s2 →
  is_Some (match_at r (length l1) s2) →
  contains (sub r repl s) repl.
Proof.
  intros Hr Hs [rest Hm].
  by apply (pieces_marks r repl Hr 0 s _ l1 s2 rest (sub_pieces r repl Hr s)).
Qed.

End SubFacts.

(** * Facts about [preprocess] *)

Module PreprocessFacts.
Import Str Re Preprocess ReFacts SubFacts.
Import Stdlib.Strings.Ascii.

Lemma sub_contains (r : regex) (repl : list N) (a : N) (w s : list N) :
  nullable r = false →
  repl ≠ [] →
  a ∉ repl →
  Forall (λ c, head repl ≠ Some c) w →
  contains (sub r repl s) (a :: w) →
  ∃ s1 s2, s = s1 ++ (a :: w) ++ s2 ∧
    match_at r (length s1) ((a :: w) ++ s2) = None.
Proof.
  intros Hr Hrepl Ha Hw Hin.
  apply (pieces_contains r repl a w 0 s (sub r repl s)); try done.
  by apply sub_pieces.
Qed.

Lemma matches_Chr (c : ascii) (pos : nat) (s : list N) (pos' : nat)
  (rest : list N) :
  matches (Chr c) pos s pos' rest → ord c ∈ s.
Proof.
  unfold Chr. inversion 1 as [|p pos0 c0 s0 Hc| | | | | | |]; subst.
  apply bool_decide_eq_true_1 in Hc as ->. left.
Qed.

Section facts.
Context `{Unicode}.

(** *** [strip] *)

Lemma strip_contains (text : list N) : contains text (strip text).
Proof.
  unfold strip, lstrip.
  destruct (drop_while_suffix isspace text) as [l1 H1].
  destruct (drop_while_suffix isspace (reverse (drop_while isspace text)))
    as [l2 H2].
  apply (f_equal reverse) in H2.
  rewrite reverse_involutive, reverse_app in H2.
  exists l1, (reverse l2). by rewrite <- H2.
Qed.

Lemma strip_last (text : list N) (c : N) :
  last (strip text) = Some c → isspace c = false.
Proof. unfold strip. rewrite last_reverse. apply drop_while_head. Qed.

Lemma strip_head (text : list N) (c : N) :
  head (strip text) = Some c → isspace c = false.
Proof.
  unfold strip. rewrite head_reverse. unfold lstrip at 1.
  destruct (drop_while_suffix isspace (reverse (lstrip text))) as [l2 H2].
  intros Hlast. assert (Hlast' : last (reverse (lstrip text)) = Some c).
  { rewrite H2, last_app. by rewrite Hlast. }
  rewrite last_reverse in Hlast'. by apply drop_while_head in Hlast'.
Qed.

Lemma contains_trans (l1 l2 l3 : list N) :
  contains l1 l2 → contains l2 l3 → contains l1 l3.
Proof.
  intros (a1 & b1 & ->) (a2 & b2 & ->).
  exists (a1 ++ a2), (b2 ++ b1). by rewrite <- !app_assoc.
Qed.

Lemma contains_Forall (Q : N → Prop) (l1 l2 : list N) :
  contains l1 l2 → Forall Q l1 → Forall Q l2.
Proof. by intros (a & b & ->) [_ [? _]%Forall_app]%Forall_app. Qed.

(** *** The patterns *)

Lemma patterns_consume :
  nullable digit_pattern = false ∧ nullable hashtag_pattern = false ∧
  nullable user_pattern = false ∧ nullable blankspace_pattern = false ∧
  nullable BagOfWords.url_pattern = false ∧
  nullable Embeddings.url_pattern = false.
Proof. done. Qed.

(** No repetition of the patterns repeats something that may match
    nothing, so that every turn of [rep] consumes of itself. *)
Lemma patterns_repeat_consuming :
  consuming digit_pattern = true ∧ consuming hashtag_pattern = true ∧
  consuming user_pattern = true ∧ consuming blankspace_pattern = true ∧
  consuming BagOfWords.url_pattern = true ∧
  consuming Embeddings.url_pattern = true.
Proof. done. Qed.

Lemma match_at_user (pos : nat) (c : N) (s : list N) :
  word c = true →
  match_at user_pattern pos (ord "@" :: c :: s) = Some (drop_while word s).
Proof.
  intros Hc. unfold user_pattern.
  change (match_at (Seq (Chr "@") (Plus (Set_ word))) pos (ord "@" :: c :: s))
    with (match_at (Plus (Set_ word)) (S pos) (c :: s)).
  by rewrite match_at_plus, Hc.
Qed.

Lemma word_space : word (ord " ") = false.
Proof. unfold word. by rewrite isalnum_ascii. Qed.

(** *** The replacement of blank space *)

Lemma blankspace_rejected (pos : nat) (c : N) (s : list N) :
  match_at blankspace_pattern pos (c :: s) = None → isspace c = false.
Proof.
  unfold blankspace_pattern. rewrite match_at_plus. by destruct (isspace c).
Qed.

Lemma blankspace_head (pos : nat) (s out : list N) (b : N) :
  pieces blankspace_pattern (str " ") pos s out →
  (∀ c, head s = Some c → isspace c = false) →
  head out = Some b → isspace b = false.
Proof.
  intros Hp Hs. destruct Hp as [|pos c s out Hnone _|pos m rest out Hm Hne _].
  - done.
  - intros [= <-]. auto.
  - destruct m as [|c m]; [done|].
    unfold blankspace_pattern in Hm. rewrite match_at_plus in Hm.
    simpl in Hm. rewrite (Hs c) in Hm; done.
Qed.

Lemma blankspace_pieces (pos : nat) (s out : list N) :
  pieces blankspace_pattern (str " ") pos s out →
  Forall (λ c, isspace c = true → c = ord " ") out ∧
  (∀ l1 a b l2, out = l1 ++ a :: b :: l2 →
     isspace a = true → isspace b = false).
Proof.
  induction 1 as [|pos c s out Hnone Hp [IH1 IH2]
                  |pos m rest out Hm Hne Hp [IH1 IH2]].
  - split; [done|]. by intros [|??].
  - apply blankspace_rejected in Hnone. split.
    + constructor; [congruence|done].
    + intros [|c1 l1] a b l2; simpl.
      * intros [= -> ->]. congruence.
      * intros [= -> ->]. eauto.
  - split.
    + by constructor.
    + intros [|c1 l1] a b l2; simpl.
      * intros [= _ Hout] _. apply (blankspace_head _ _ _ b Hp).
        -- destruct m as [|c m]; [done|].
           unfold blankspace_pattern in Hm. rewrite match_at_plus in Hm.
           simpl in Hm. destruct (isspace c); [|done].
           injection Hm as Hrest. intros c' Hc'.
           apply (drop_while_head isspace (m ++ rest)). by rewrite Hrest.
        -- by rewrite Hout.
      * intros [= _ ->]. eauto.
Qed.

(** *** The steps after the URLs *)

Lemma placeholder_no_digit (s : string) :
  forallb (λ c, (c <? 128)%N && negb (between 48 57 c)) (str s) = true →
  Forall (λ c, isdecimal c = false) (str s).
Proof.
  intros Hs. apply Forall_forall. intros c Hc.
  rewrite forallb_forall in Hs. apply list_elem_of_In, Hs in Hc.
  apply andb_true_iff in Hc as [Hlt Hd].
  rewrite isdecimal_ascii by (by apply N.ltb_lt).
  by destruct (between 48 57 c).
Qed.

(** A word without blank space that starts with a character of no
    placeholder, and stands in the result, stood in the text. *)
Lemma after_urls_contains (a : N) (w text : list N) :
  a ∉ str " DIGIT HASHTAG USER " →
  Forall (λ c, c ≠ ord " ") w →
  contains (after_urls text) (a :: w) → contains text (a :: w).
Proof.
  intros Ha Hw Hin.
  assert (Hhead : ∀ repl' : list N,
    Forall (λ c, head (ord " " :: repl') ≠ Some c) w).
  { intros repl'. eapply Forall_impl; [exact Hw|].
    intros c Hc [= ?]. by apply Hc. }
  assert (Hstep : ∀ r repl s,
    nullable r = false → repl ⊆ str " DIGIT HASHTAG USER " →
    head repl = Some (ord " ") →
    contains (sub r repl s) (a :: w) → contains s (a :: w)).
  { intros r repl s Hr Hsub Hhd Hc.
    apply sub_contains in Hc as (s1 & s2 & -> & _); [by exists s1, s2|done|..].
    - by destruct repl.
    - intros Hel. apply Ha. by apply Hsub.
    - destruct repl as [|b repl']; [done|]. injection Hhd as ->. apply Hhead. }
  unfold after_urls in Hin.
  apply (contains_trans _ _ _ (strip_contains _)) in Hin.
  apply Hstep in Hin; [|done|by apply (bool_decide_unpack _)|done].
  apply Hstep in Hin; [|done|by apply (bool_decide_unpack _)|done].
  apply Hstep in Hin; [|done|by apply (bool_decide_unpack _)|done].
  apply Hstep in Hin; [|done|by apply (bool_decide_unpack _)|done].
  done.
Qed.

(** *** The URLs of the embedding notebooks *)

Lemma url_tail (pos : nat) (s : list N) :
  is_Some (exec
    (Seq (Lit "://")
       (Seq (Star (Set_ any_but_newline))
          (Star (Set_ (λ c, bool_decide (c = 13%N) || bool_decide (c = 10%N))))))
    pos (str "://" ++ s) (λ _ rest, Some rest)).
Proof.
  change (exec (Seq (Lit "://") ?r) pos (str "://" ++ s) ?k)
    with (exec (Lit "://") pos (str "://" ++ s) (λ pos' s', exec r pos' s' k)).
  rewrite exec_Lit. apply rep_optional, rep_optional. by eexists.
Qed.

Lemma match_at_http (pos : nat) (s : list N) :
  is_Some (match_at Embeddings.url_pattern pos (str "http://" ++ s)).
Proof.
  unfold match_at, Embeddings.url_pattern.
  change (str "http://" ++ s) with (str "http" ++ (str "://" ++ s)).
  change (exec (Seq (Lit "http") ?r) pos ?t ?k)
    with (exec (Lit "http") pos t (λ pos' s', exec r pos' s' k)).
  rewrite exec_Lit.
  change (exec (Seq (Opt (Chr "s")) ?r) ?p (str "://" ++ s) ?k)
    with (rep (exec (Chr "s")) (S (length (drop 1 (str "://") ++ s))) 0
            (Some 1) p (str "://" ++ s) (λ pos' s', exec r pos' s' k)).
  rewrite rep_S.
  change (str "://" ++ s) with (ord ":" :: (drop 1 (str "://") ++ s)) at 1.
  unfold Chr at 1. rewrite exec_Set.
  rewrite bool_decide_eq_false_2 by done.
  apply url_tail.
Qed.

Lemma match_at_https (pos : nat) (s : list N) :
  is_Some (match_at Embeddings.url_pattern pos (str "https://" ++ s)).
Proof.
  unfold match_at, Embeddings.url_pattern.
  change (str "https://" ++ s) with (str "http" ++ (ord "s" :: (str "://" ++ s))).
  change (exec (Seq (Lit "http") ?r) pos ?t ?k)
    with (exec (Lit "http") pos t (λ pos' s', exec r pos' s' k)).
  rewrite exec_Lit.
  change (exec (Seq (Opt (Chr "s")) ?r) ?p ?t ?k)
    with (rep (exec (Chr "s")) (S (length (str "://" ++ s))) 0
            (Some 1) p t (λ pos' s', exec r pos' s' k)).
  rewrite rep_S. unfold Chr at 1. rewrite exec_Set.
  rewrite bool_decide_eq_true_2 by done.
  rewrite bool_decide_eq_true_2 by (simpl; lia).
  change (pred <$> Some 1) with (Some 0).
  assert (Hdone : ∀ body fuel min p t (k : cont),
    rep body fuel min (Some 0) p t k = k p t) by by intros ? [|?].
  rewrite Hdone. destruct (url_tail (S (pos + String.length "http")) s) as [x ->].
  by eexists.
Qed.

(** *** The two versions of [preprocess] *)

(** X12.  In what either [preprocess] returns, blank space is single
    spaces between other characters: every whitespace character is a
    space, no two of them are adjacent, and the text neither starts nor
    ends with one. *)
Theorem preprocess_single_spaced (text : list N) :
  single_spaced (BagOfWords.preprocess text) ∧
  single_spaced (Embeddings.preprocess text).
Proof.
  assert (Hafter : ∀ text, single_spaced (after_urls text)).
  { clear text. intros text.
    unfold after_urls.
    set (text4 := sub user_pattern _ _).
    destruct (blankspace_pieces 0 text4 (sub blankspace_pattern (str " ") text4))
      as [Hall Hadj]; [by apply sub_pieces|].
    destruct (strip_contains (sub blankspace_pattern (str " ") text4))
      as (l1 & l2 & Hstrip).
    split_and!.
    - apply (contains_Forall _ _ _ (strip_contains _) Hall).
    - intros k1 a b k2 Hout. apply (Hadj (l1 ++ k1) a b (k2 ++ l2)).
      rewrite Hstrip at 1. rewrite Hout. by rewrite <- !app_assoc.
    - apply strip_head.
    - apply strip_last. }
  split; apply Hafter.
Qed.

(** X13.  What either [preprocess] returns holds no decimal digit, of
    any script: every run of them has become the placeholder DIGIT. *)
Theorem preprocess_no_digit (text : list N) :
  Forall (λ c, isdecimal c = false) (BagOfWords.preprocess text) ∧
  Forall (λ c, isdecimal c = false) (Embeddings.preprocess text).
Proof.
  assert (Hafter : ∀ text, Forall (λ c, isdecimal c = false) (after_urls text)).
  { clear text. intros text.
    unfold after_urls.
    apply (contains_Forall _ _ _ (strip_contains _)).
    apply (pieces_Forall blankspace_pattern (str " ") _ 0 _ _
             (sub_pieces blankspace_pattern (str " ") eq_refl _));
      [by apply placeholder_no_digit|].
    apply (pieces_Forall user_pattern (str " USER ") _ 0 _ _
             (sub_pieces user_pattern (str " USER ") eq_refl _));
      [by apply placeholder_no_digit|].
    apply (pieces_Forall hashtag_pattern (str " HASHTAG ") _ 0 _ _
             (sub_pieces hashtag_pattern (str " HASHTAG ") eq_refl _));
      [by apply placeholder_no_digit|].
    apply (pieces_rejected digit_pattern (str " DIGIT ") _ 0 _ _
             (sub_pieces digit_pattern (str " DIGIT ") eq_refl _));
      [by apply placeholder_no_digit|].
    intros pos c s. unfold digit_pattern. rewrite match_at_plus.
    by destruct (isdecimal c). }
  split; apply Hafter.
Qed.

(** X14.  In what either [preprocess] returns, no [@] is followed by a
    word character: every handle has become the placeholder USER. *)
Theorem preprocess_no_handle (text : list N) :
  (∀ l1 c l2,
     BagOfWords.preprocess text = l1 ++ ord "@" :: c :: l2 → word c = false) ∧
  (∀ l1 c l2,
     Embeddings.preprocess text = l1 ++ ord "@" :: c :: l2 → word c = false).
Proof.
  assert (Hafter : ∀ text l1 c l2,
    after_urls text = l1 ++ ord "@" :: c :: l2 → word c = false).
  { clear text. intros text l1 c l2.
    intros Hout. destruct (word c) eqn:Hc; [exfalso|done].
    assert (Hsp : c ≠ ord " ").
    { intros ->. by rewrite word_space in Hc. }
    assert (Hin : contains (after_urls text) (ord "@" :: [c])) by by exists l1, l2.
    unfold after_urls in Hin.
    apply (contains_trans _ _ _ (strip_contains _)) in Hin.
    apply sub_contains in Hin as (s1 & s2 & Hin & _); [|done|done|..].
    - assert (Hin' : contains (sub user_pattern (str " USER ")
         (sub hashtag_pattern (str " HASHTAG ")
            (sub digit_pattern (str " DIGIT ") text))) (ord "@" :: [c]))
        by by exists s1, s2.
      apply sub_contains in Hin' as (s3 & s4 & _ & Hnone); [|done|done|..].
      + simpl in Hnone. by rewrite match_at_user in Hnone.
      + by apply (bool_decide_unpack _).
      + repeat constructor. intros [= ?]. by apply Hsp.
    - by apply (bool_decide_unpack _).
    - repeat constructor. intros [= ?]. by apply Hsp. }
  split; intros l1 c l2; apply Hafter.
Qed.

(** X15.  What the [preprocess] of the embedding notebooks returns
    contains neither [http://] nor [https://]: each occurrence has become
    the placeholder URL, together with the rest of its line. *)
Theorem preprocess_no_link (text : list N) :
  ¬ contains (Embeddings.preprocess text) (str "http://") ∧
  ¬ contains (Embeddings.preprocess text) (str "https://").
Proof.
  assert (Hstep : ∀ w,
    Forall (λ c, c ≠ ord " ") w →
    (∀ pos s, is_Some (match_at Embeddings.url_pattern pos
                         ((ord "h" :: w) ++ s))) →
    ¬ contains (Embeddings.preprocess text) (ord "h" :: w)).
  { intros w Hw Hmatch Hin. unfold Embeddings.preprocess in Hin.
    apply after_urls_contains in Hin; [|by apply (bool_decide_unpack _)|done].
    apply sub_contains in Hin as (s1 & s2 & _ & Hnone);
      [|done|done|by apply (bool_decide_unpack _)|].
    - destruct (Hmatch (length s1) s2) as [x Hx]. congruence.
    - eapply Forall_impl; [exact Hw|]. intros c Hc [= ?]. by apply Hc. }
  split.
  - apply (Hstep (drop 1 (str "http://"))).
    + repeat constructor; done.
    + intros pos s. apply (match_at_http pos s).
  - apply (Hstep (drop 1 (str "https://"))).
    + repeat constructor; done.
    + intros pos s. apply (match_at_https pos s).
Qed.

(** *** The URLs of the bag-of-words solutions *)

Lemma host_char_space (c : N) : BagOfWords.host_char c = true → c ≠ ord " ".
Proof.
  intros Hc ->. unfold BagOfWords.host_char in Hc. by rewrite word_space in Hc.
Qed.

Lemma last_char_space (c : N) : BagOfWords.last_char c = true → c ≠ ord " ".
Proof.
  intros Hc ->. unfold BagOfWords.last_char in Hc. by rewrite word_space in Hc.
Qed.

Lemma matches_scheme (scheme : string) (pos : nat) (s : list N) :
  scheme ∈ ["http"; "ftp"; "https"] →
  matches (Alt (Lit "http") (Alt (Lit "ftp") (Lit "https"))) pos
    (str scheme ++ s) (pos + String.length scheme) s.
Proof.
  intros Hs. repeat apply elem_of_cons in Hs as [->|Hs].
  - apply matches_Alt_l, matches_Lit.
  - apply matches_Alt_r, matches_Alt_l, matches_Lit.
  - apply matches_Alt_r, matches_Alt_r, matches_Lit.
  - by apply elem_of_nil in Hs.
Qed.

Lemma match_at_url (scheme : string) (host domain : list N) (l : N)
  (pos : nat) (s : list N) :
  scheme ∈ ["http"; "ftp"; "https"] →
  host ≠ [] → Forall (λ c, BagOfWords.host_char c = true) host →
  domain ≠ [] → Forall (λ c, BagOfWords.host_char c = true) domain →
  BagOfWords.last_char l = true →
  is_Some (match_at BagOfWords.url_pattern pos
    (str scheme ++ str "://" ++ host ++ [ord "."] ++ domain ++ [l] ++ s)).
Proof.
  intros Hscheme Hhost Hhost' Hdomain Hdomain' Hl.
  apply (exec_complete _ _ _
    (pos + String.length scheme + 3 + length host + 1 + length domain + 1) s);
    [|by eexists].
  unfold BagOfWords.url_pattern.
  eapply matches_Seq; [by apply matches_scheme|].
  eapply matches_Seq; [apply (matches_Lit "://")|].
  eapply matches_Seq; [eapply matches_Seq|eapply matches_Seq].
  - apply matches_run; [by destruct host; simpl; [|lia]|done].
  - eapply matches_Rep_turn; [done| | |apply matches_Rep_stop].
    + eapply matches_Seq; [by constructor|].
      apply (matches_run _ 1 _ domain);
        [by destruct domain; simpl; [|lia]|done].
    + simpl. rewrite length_app. simpl. lia.
  - apply matches_Rep_stop.
  - replace (pos + String.length scheme + 3 + length host + 1 + length domain + 1)
      with (S (S (pos + String.length scheme + String.length "://" + length host)
                + length domain)) by (simpl; lia).
    by constructor.
Qed.

(** X16.  What the [preprocess] of the bag-of-words solutions returns
    contains no [http://], [ftp://] or [https://] followed by a host
    name, a dot, and at least two more characters of an address (one of
    a name, one that may end an address): each has become the placeholder
    URL. *)
Theorem preprocess_no_url (text : list N) (scheme : string)
  (host domain : list N) (l : N) :
  scheme ∈ ["http"; "ftp"; "https"] →
  host ≠ [] → Forall (λ c, BagOfWords.host_char c = true) host →
  domain ≠ [] → Forall (λ c, BagOfWords.host_char c = true) domain →
  BagOfWords.last_char l = true →
  ¬ contains (BagOfWords.preprocess text)
      (str scheme ++ str "://" ++ host ++ [ord "."] ++ domain ++ [l]).
Proof.
  intros Hscheme Hhost Hhost' Hdomain Hdomain' Hl Hin.
  assert (Hurl : ∃ a w,
    str scheme ++ str "://" ++ host ++ [ord "."] ++ domain ++ [l] = a :: w ∧
    (a ∉ str " DIGIT HASHTAG USER ") ∧ (a ∉ str " URL ") ∧
    Forall (λ c, c ≠ ord " ") w).
  { assert (Htail : Forall (λ c, c ≠ ord " ")
      (host ++ [ord "."] ++ domain ++ [l])).
    { apply Forall_app. split; [|constructor; [done|apply Forall_app; split]].
      - eapply Forall_impl; [exact Hhost'|]. apply host_char_space.
      - eapply Forall_impl; [exact Hdomain'|]. apply host_char_space.
      - constructor; [by apply last_char_space|done]. }
    repeat apply elem_of_cons in Hscheme as [->|Hscheme];
      [..|by apply elem_of_nil in Hscheme];
      eexists _, _; (split; [reflexivity|]);
      (split; [by apply (bool_decide_unpack _)|]);
      (split; [by apply (bool_decide_unpack _)|]);
      repeat (constructor; [done|]); exact Htail. }
  destruct Hurl as (a & w & Heq & Ha & Ha' & Hw). rewrite Heq in Hin.
  unfold BagOfWords.preprocess in Hin.
  apply after_urls_contains in Hin; [|done..].
  apply sub_contains in Hin as (s1 & s2 & _ & Hnone); [|done..|].
  - rewrite <- Heq, <- !app_assoc in Hnone.
    destruct (match_at_url scheme host domain l (length s1) s2) as [x Hx];
      try done.
    congruence.
  - eapply Forall_impl; [exact Hw|]. intros c Hc [= ?]. by apply Hc.
Qed.

(** X17.  Either [preprocess] only lower-cases, deletes and puts in
    placeholders: every character of what it returns is a character of
    the lower-cased text or of a placeholder (a space or a capital letter
    of URL, DIGIT, HASHTAG, USER). *)
Theorem preprocess_alphabet (text : list N) :
  Forall (λ c, c ∈ lower text ∨ c ∈ str " URL DIGIT HASHTAG USER ")
    (BagOfWords.preprocess text) ∧
  Forall (λ c, c ∈ lower text ∨ c ∈ str " URL DIGIT HASHTAG USER ")
    (Embeddings.preprocess text).
Proof.
  set (Q := λ c : N, c ∈ lower text ∨ c ∈ str " URL DIGIT HASHTAG USER ").
  assert (Hstep : ∀ r repl s,
    nullable r = false → repl ⊆ str " URL DIGIT HASHTAG USER " →
    Forall Q s → Forall Q (sub r repl s)).
  { intros r repl s Hr Hrepl Hs.
    apply (pieces_Forall r repl Q 0 s _ (sub_pieces r repl Hr s)); [|done].
    apply Forall_forall. intros c Hc. right. by apply Hrepl. }
  assert (Hafter : ∀ s, Forall Q s → Forall Q (after_urls s)).
  { intros s Hs. unfold after_urls.
    apply (contains_Forall _ _ _ (strip_contains _)).
    repeat (apply Hstep; [done|by apply (bool_decide_unpack _)|]).
    done. }
  assert (Hlower : Forall Q (lower text)).
  { apply Forall_forall. intros c Hc. by left. }
  split; apply Hafter, Hstep; done || by apply (bool_decide_unpack _).
Qed.

(** *** Plain text *)

Lemma digit_pattern_needs (pos : nat) (s rest : list N) :
  match_at digit_pattern pos s = Some rest →
  ∃ c, c ∈ s ∧ isdecimal c = true.
Proof.
  unfold digit_pattern. rewrite match_at_plus.
  destruct s as [|c s]; [done|]. destruct (isdecimal c) eqn:Hc; [|done].
  intros _. exists c. split; [left|done].
Qed.

Lemma user_pattern_needs (pos : nat) (s rest : list N) :
  match_at user_pattern pos s = Some rest → ord "@" ∈ s.
Proof.
  intros [pos' Hm]%match_at_matches. unfold user_pattern in Hm.
  inversion Hm as [| | |r1 r2 pos0 s0 pos1 s1 pos2 s2 H1 H2| | | | |]; subst.
  by apply matches_Chr in H1.
Qed.

Lemma hashtag_pattern_needs (pos : nat) (s rest : list N) :
  match_at hashtag_pattern pos s = Some rest →
  ord "?" ∈ s ∨ ord "#" ∈ s.
Proof.
  intros [pos' Hm]%match_at_matches. unfold hashtag_pattern in Hm.
  inversion Hm as [| | |r1 r2 pos0 s0 pos1 s1 pos2 s2 H1 H2| | | | |]; subst.
  apply matches_suffix in H1 as [l1 ->].
  inversion H2 as [| | |r1 r2 pos0 s0 pos3 s3 pos4 s4 H3 H4| | | | |]; subst.
  inversion H3 as [| | | | | | | |r min max pos0 s0 pos5 s5 pos6 s6 _ H5 _ _];
    subst.
  inversion H5 as [|p pos0 c0 s0 Hc| | | | | | |]; subst.
  apply bool_decide_eq_true_1 in Hc.
  repeat apply elem_of_cons in Hc as [->|Hc].
  - left. apply elem_of_app. right. left.
  - left. apply elem_of_app. right. left.
  - left. apply elem_of_app. right. left.
  - right. apply elem_of_app. right. left.
  - by apply elem_of_nil in Hc.
Qed.

Lemma matches_Lit_colon (pos : nat) (s : list N) (pos' : nat) (rest : list N) :
  matches (Lit "://") pos s pos' rest → ord ":" ∈ s.
Proof.
  inversion 1 as [| | |r1 r2 pos0 s0 pos1 s1 pos2 s2 H1 H2| | | | |]; subst.
  by apply matches_Chr in H1.
Qed.

Lemma bag_url_pattern_needs (pos : nat) (s rest : list N) :
  match_at BagOfWords.url_pattern pos s = Some rest → ord ":" ∈ s.
Proof.
  intros [pos' Hm]%match_at_matches. unfold BagOfWords.url_pattern in Hm.
  inversion Hm as [| | |r1 r2 pos0 s0 pos1 s1 pos2 s2 H1 H2| | | | |]; subst.
  apply matches_suffix in H1 as [l1 ->].
  inversion H2 as [| | |r1 r2 pos0 s0 pos3 s3 pos4 s4 H3 H4| | | | |]; subst.
  apply matches_Lit_colon in H3. apply elem_of_app. by right.
Qed.

Lemma emb_url_pattern_needs (pos : nat) (s rest : list N) :
  match_at Embeddings.url_pattern pos s = Some rest → ord ":" ∈ s.
Proof.
  intros [pos' Hm]%match_at_matches. unfold Embeddings.url_pattern in Hm.
  inversion Hm as [| | |r1 r2 pos0 s0 pos1 s1 pos2 s2 H1 H2| | | | |]; subst.
  apply matches_suffix in H1 as [l1 ->].
  inversion H2 as [| | |r1 r2 pos0 s0 pos3 s3 pos4 s4 H3 H4| | | | |]; subst.
  apply matches_suffix in H3 as [l2 ->].
  inversion H4 as [| | |r1 r2 pos0 s0 pos5 s5 pos6 s6 H5 H6| | | | |]; subst.
  apply matches_Lit_colon in H5. rewrite !elem_of_app. auto.
Qed.

Lemma sub_blankspace_single_spaced (s : list N) :
  Forall (λ c, isspace c = true → c = ord " ") s →
  (∀ l1 a b l2, s = l1 ++ a :: b :: l2 →
     isspace a = true → isspace b = false) →
  sub blankspace_pattern (str " ") s = s.
Proof.
  intros Hall Hadj.
  enough (Hpos : ∀ pos, sub_from blankspace_pattern (str " ") pos 0 s = s)
    by apply Hpos.
  induction s as [|c s IH]; intros pos; [done|].
  apply Forall_cons in Hall as [Hc Hall].
  assert (IH' : ∀ pos, sub_from blankspace_pattern (str " ") pos 0 s = s).
  { apply IH; [done|].
    intros l1 a b l2 ->. by apply (Hadj (c :: l1) a b l2). }
  rewrite sub_from_cons. unfold blankspace_pattern at 1.
  rewrite match_at_plus. destruct (isspace c) eqn:Hsp; [|by rewrite IH'].
  assert (drop_while isspace s = s) as ->.
  { destruct s as [|b s]; [done|]. simpl.
    by rewrite (Hadj [] c b s). }
  replace (length (c :: s) - length s) with 1 by (simpl; lia).
  rewrite (Hc eq_refl). simpl. by rewrite IH'.
Qed.

Lemma lstrip_id (s : list N) :
  (∀ c, head s = Some c → isspace c = false) → lstrip s = s.
Proof.
  destruct s as [|c s]; [done|]. intros Hc. unfold lstrip. simpl.
  by rewrite (Hc c).
Qed.

Lemma strip_id (s : list N) :
  (∀ c, head s = Some c → isspace c = false) →
  (∀ c, last s = Some c → isspace c = false) →
  strip s = s.
Proof.
  intros Hhead Hlast. unfold strip. rewrite (lstrip_id s) by done.
  rewrite lstrip_id, reverse_involutive; [done|].
  intros c. rewrite head_reverse. apply Hlast.
Qed.

(** A check of the second part of [single_spaced], for examples. *)
Fixpoint no_double_space (s : list N) : bool :=
  match s with
  | a :: s' =>
      match s' with
      | b :: _ => negb (isspace a && isspace b) && no_double_space s'
      | [] => true
      end
  | [] => true
  end.

Lemma no_double_space_spec (s : list N) :
  no_double_space s = true →
  ∀ l1 a b l2, s = l1 ++ a :: b :: l2 → isspace a = true → isspace b = false.
Proof.
  induction s as [|c s IH]; intros Hs l1 a b l2 Heq Ha.
  { by destruct l1. }
  destruct s as [|d s]; [by destruct l1 as [|? [|??]]|].
  simpl in Hs. apply andb_true_iff in Hs as [Hcd Hs].
  destruct l1 as [|c1 l1]; simpl in Heq.
  - injection Heq as -> -> _. rewrite Ha in Hcd. by destruct (isspace b).
  - injection Heq as _ Heq. by apply (IH Hs l1 a b l2).
Qed.

(** X18.  Plain text is only lower-cased: when the lower-cased text
    holds no decimal digit and none of [:], [@], [#], [?], and its blank
    space is single spaces between other characters, either [preprocess]
    returns the lower-cased text unchanged. *)
Theorem preprocess_plain (text : list N) :
  Forall (λ c, isdecimal c = false ∧ c ∉ str ":@#?") (lower text) →
  single_spaced (lower text) →
  BagOfWords.preprocess text = lower text ∧
  Embeddings.preprocess text = lower text.
Proof.
  intros Hplain (Hall & Hadj & Hhead & Hlast).
  assert (Hnot : ∀ a : ascii, ord a ∈ str ":@#?" →
    Forall (λ c, ¬ c = ord a) (lower text)).
  { intros a Ha. eapply Forall_impl; [exact Hplain|].
    intros c [_ Hc] ->. done. }
  assert (Hafter : after_urls (lower text) = lower text).
  { unfold after_urls.
    rewrite (sub_needs digit_pattern _ _ (λ c, isdecimal c = true)).
    - rewrite (sub_needs hashtag_pattern _ _
                 (λ c, c = ord "?" ∨ c = ord "#")).
      + rewrite (sub_needs user_pattern _ _ (λ c, c = ord "@")).
        * rewrite sub_blankspace_single_spaced by done. by apply strip_id.
        * intros pos s' rest Hm%user_pattern_needs. eauto.
        * apply Hnot. by apply (bool_decide_unpack _).
      + intros pos s' rest [Hm|Hm]%hashtag_pattern_needs; eauto.
      + eapply Forall_impl; [exact Hplain|].
        intros c [_ Hc] [->| ->]; apply Hc; by apply (bool_decide_unpack _).
    - apply digit_pattern_needs.
    - eapply Forall_impl; [exact Hplain|]. intros c [Hc _]. congruence. }
  split.
  - unfold BagOfWords.preprocess.
    rewrite (sub_needs BagOfWords.url_pattern _ _ (λ c, c = ord ":")); [done|..].
    + intros pos s' rest Hm%bag_url_pattern_needs. eauto.
    + apply Hnot. by apply (bool_decide_unpack _).
  - unfold Embeddings.preprocess.
    rewrite (sub_needs Embeddings.url_pattern _ _ (λ c, c = ord ":")); [done|..].
    + intros pos s' rest Hm%emb_url_pattern_needs. eauto.
    + apply Hnot. by apply (bool_decide_unpack _).
Qed.

End facts.

(** *** What the patterns match *)

(** The characters [[???#]] of the hashtag pattern. *)
Definition hashtag_mark (c : N) : bool := one_of "???#" c.

Section shapes.
Context `{Unicode}.

Lemma plus_first (p : N → bool) (pos : nat) (c : N) (s rest : list N) :
  match_at (Plus (Set_ p)) pos (c :: s) = Some rest → p c = true.
Proof. rewrite match_at_plus. by destruct (p c). Qed.

Lemma plus_pairs (p : N → bool) (pos : nat) (m rest : list N) :
  match_at (Plus (Set_ p)) pos (m ++ rest) = Some rest →
  linked (λ x y, p x = true ∧ p y = true) m.
Proof.
  intros [pos' Hm]%match_at_matches.
  apply matches_run_inv in Hm as (run & Hs & Hrun & _).
  apply app_inv_tail in Hs as ->.
  by apply (Forall_linked (λ c, p c = true)).
Qed.

Lemma user_shape (pos : nat) (s rest : list N) :
  match_at user_pattern pos s = Some rest →
  ∃ run, s = ord "@" :: run ++ rest ∧ Forall (λ c, word c = true) run.
Proof.
  intros [pos' Hm]%match_at_matches. unfold user_pattern in Hm.
  inversion Hm as [| | |r1 r2 pos0 s0 pos1 s1 pos2 s2 H1 H2| | | | |]; subst.
  inversion H1 as [|p0 pos0 c0 s0 Hc| | | | | | |]; subst.
  apply bool_decide_eq_true_1 in Hc as ->.
  apply matches_run_inv in H2 as (run & -> & Hrun & _). by exists run.
Qed.

Lemma user_first (pos : nat) (c : N) (s rest : list N) :
  match_at user_pattern pos (c :: s) = Some rest → c = ord "@".
Proof. by intros (run & [= -> _] & _)%user_shape. Qed.

Lemma user_pairs (pos : nat) (m rest : list N) :
  match_at user_pattern pos (m ++ rest) = Some rest →
  linked (λ x y, x = ord "@" ∨ word x = true) m.
Proof.
  intros (run & Hs & Hrun)%user_shape.
  change (ord "@" :: run ++ rest) with ((ord "@" :: run) ++ rest) in Hs.
  apply app_inv_tail in Hs as ->.
  apply linked_cons; [by left|].
  apply (Forall_linked (λ c, word c = true)); [|done]. by right.
Qed.

Lemma hashtag_shape (pos : nat) (s rest : list N) :
  match_at hashtag_pattern pos s = Some rest →
  ∃ pre h run,
    s = pre ++ h :: run ++ rest ∧
    (pre = [] ∨ ∃ ws, pre = [ws] ∧ isspace ws = true) ∧
    hashtag_mark h = true ∧ Forall (λ c, word c = true) run.
Proof.
  intros [pos' Hm]%match_at_matches. unfold hashtag_pattern in Hm.
  inversion Hm as [| | |r1 r2 pos0 s0 pos1 s1 pos2 s2 H1 H2| | | | |]; subst.
  inversion H2 as [| | |r1 r2 pos0 s0 pos3 s3 pos4 s4 H3 H4| | | | |]; subst.
  apply matches_run_inv in H4 as (run & -> & Hrun & _).
  assert (∃ h, s1 = h :: run ++ rest ∧ hashtag_mark h = true) as (h & -> & Hh).
  { inversion H3 as [| | | | | | |
      |r min max pos0 s0 pos5 s5 pos6 s6 _ H5 _ H6]; subst.
    inversion H5 as [|p0 pos0 c s0 Hc| | | | | | |]; subst.
    exists c. split; [|done]. f_equal.
    inversion H6 as [| | | | | |r max pos0 s0|r min pos0 s0
      |r min max pos0 s0 pos7 s7 pos8 s8 Hmax]; subst; done. }
  inversion H1 as [| | | |r1 r2 pos0 s0 pos5 s5 H5|r1 r2 pos0 s0 pos5 s5 H5
                   | | |]; subst.
  - inversion H5; subst. exists [], h, run. split_and!; auto.
  - inversion H5 as [|p0 pos0 c s0 Hc| | | | | | |]; subst.
    exists [c], h, run. split_and!; eauto.
Qed.

Lemma hashtag_first (pos : nat) (c : N) (s rest : list N) :
  match_at hashtag_pattern pos (c :: s) = Some rest →
  isspace c = true ∨ hashtag_mark c = true.
Proof.
  intros (pre & h & run & Hs & [->|(ws & -> & Hws)] & Hh & _)%hashtag_shape;
    simpl in Hs; injection Hs as -> _; auto.
Qed.

Lemma hashtag_pairs (pos : nat) (m rest : list N) :
  match_at hashtag_pattern pos (m ++ rest) = Some rest →
  linked (λ x y, hashtag_mark y = true ∨
                 (hashtag_mark x = true ∨ word x = true)) m.
Proof.
  intros (pre & h & run & Hs & Hpre & Hh & Hrun)%hashtag_shape.
  change (pre ++ h :: run ++ rest) with (pre ++ (h :: run) ++ rest) in Hs.
  rewrite app_assoc in Hs. apply app_inv_tail in Hs as ->.
  assert (linked (λ x y, hashtag_mark y = true ∨
                         (hashtag_mark x = true ∨ word x = true)) (h :: run)).
  { apply linked_cons; [auto|].
    apply (Forall_linked (λ c, word c = true)); [|done]. auto. }
  destruct Hpre as [->|(ws & -> & _)]; [done|].
  apply linked_cons; [|done]. intros y [= <-]. auto.
Qed.

End shapes.

(** *** Placeholders stay *)

Lemma contains_reverse (s w : list N) :
  contains s w → contains (reverse s) (reverse w).
Proof.
  intros (l1 & l2 & ->). exists (reverse l2), (reverse l1).
  by rewrite !reverse_app, <- !app_assoc.
Qed.

Lemma contains_tail (s : list N) (c : N) (w : list N) :
  contains s (c :: w) → contains s w.
Proof.
  intros (l1 & l2 & ->). exists (l1 ++ [c]), l2. by rewrite <- !app_assoc.
Qed.

Lemma contains_init (s w1 w2 : list N) :
  contains s (w1 ++ w2) → contains s w1.
Proof.
  intros (l1 & l2 & ->). exists l1, (w2 ++ l2). by rewrite <- !app_assoc.
Qed.

Lemma drop_while_keeps (p : N → bool) (s w : list N) :
  (∀ c, head w = Some c → p c = false) →
  contains s w → contains (drop_while p s) w.
Proof.
  intros Hw (l1 & l2 & ->). induction l1 as [|c l1 IH]; simpl.
  - destruct w as [|a w]; [by exists [], (drop_while p l2)|].
    simpl. rewrite (Hw a) by done. by exists [], l2.
  - destruct (p c); [done|]. by exists (c :: l1), l2.
Qed.

Section stays.
Context `{Unicode}.

(** Characters that none of the patterns after the URLs can start with,
    such as the letters of the placeholders. *)
Definition plain_char (c : N) : Prop :=
  isdecimal c = false ∧ isspace c = false ∧ hashtag_mark c = false ∧
  c ≠ ord "@".

Lemma placeholder_plain (s : string) :
  forallb (λ c, (c <? 128)%N && negb (between 48 57 c) &&
                negb (between 9 13 c || between 28 32 c) &&
                negb (hashtag_mark c) && negb (bool_decide (c = ord "@")))
    (str s) = true →
  Forall plain_char (str s).
Proof.
  intros Hs. apply Forall_forall. intros c Hc.
  rewrite forallb_forall in Hs. apply list_elem_of_In, Hs in Hc.
  repeat apply andb_true_iff in Hc as [Hc ?].
  apply N.ltb_lt in Hc. unfold plain_char.
  rewrite isdecimal_ascii, isspace_ascii by done.
  split_and!; try by apply negb_true_iff.
  intros ->. done.
Qed.

Lemma strip_keeps (s w : list N) :
  (∀ c, head w = Some c → isspace c = false) →
  (∀ c, last w = Some c → isspace c = false) →
  contains s w → contains (strip s) w.
Proof.
  intros Hhead Hlast Hin. unfold strip, lstrip.
  rewrite <- (reverse_involutive w). apply contains_reverse.
  apply drop_while_keeps.
  { intros c. rewrite head_reverse. apply Hlast. }
  apply contains_reverse. by apply drop_while_keeps.
Qed.

Lemma space_not_decimal : isdecimal (ord " ") = false.
Proof. by rewrite isdecimal_ascii. Qed.

Lemma digits_keep (a0 : N) (w s : list N) :
  Forall plain_char (a0 :: w) →
  contains s (ord " " :: a0 :: w) →
  contains (sub digit_pattern (str " DIGIT ") s) (ord " " :: a0 :: w).
Proof.
  intros Hw.
  apply (pieces_keeps_spaced digit_pattern (str " DIGIT ")
           (λ c, isdecimal c = true)
           (λ x y, isdecimal x = true ∧ isdecimal y = true)
           (plus_first isdecimal) (plus_pairs isdecimal) _ _ _ 0 s);
    [by apply sub_pieces|done| |].
  - eapply Forall_impl; [exact Hw|]. intros c (Hc & _). congruence.
  - intros [Hsp _]. by rewrite space_not_decimal in Hsp.
Qed.

Lemma hashtags_keep (a0 : N) (w s : list N) :
  Forall plain_char (a0 :: w) →
  contains s (ord " " :: a0 :: w) →
  contains (sub hashtag_pattern (str " HASHTAG ") s) (ord " " :: a0 :: w).
Proof.
  intros Hw.
  apply (pieces_keeps_spaced hashtag_pattern (str " HASHTAG ")
           (λ c, isspace c = true ∨ hashtag_mark c = true)
           (λ x y, hashtag_mark y = true ∨
                   (hashtag_mark x = true ∨ word x = true))
           hashtag_first hashtag_pairs _ _ _ 0 s);
    [by apply sub_pieces|done| |].
  - eapply Forall_impl; [exact Hw|].
    intros c (_ & Hc1 & Hc2 & _) [?|?]; congruence.
  - apply Forall_cons in Hw as [(_ & _ & Ha0 & _) _].
    intros [?|[?|Hsp]]; [congruence|done|].
    by rewrite word_space in Hsp.
Qed.

Lemma users_keep (a0 : N) (w s : list N) :
  Forall plain_char (a0 :: w) →
  contains s (ord " " :: a0 :: w) →
  contains (sub user_pattern (str " USER ") s) (ord " " :: a0 :: w).
Proof.
  intros Hw.
  apply (pieces_keeps_spaced user_pattern (str " USER ")
           (λ c, c = ord "@") (λ x y, x = ord "@" ∨ word x = true)
           user_first user_pairs _ _ _ 0 s);
    [by apply sub_pieces|done| |].
  - eapply Forall_impl; [exact Hw|]. by intros c (_ & _ & _ & Hc).
  - intros [?|Hsp]; [done|]. by rewrite word_space in Hsp.
Qed.

Lemma blanks_keep (a0 : N) (w s : list N) :
  Forall plain_char (a0 :: w) →
  contains s (ord " " :: a0 :: w) →
  contains (sub blankspace_pattern (str " ") s) (ord " " :: a0 :: w).
Proof.
  intros Hw.
  apply (pieces_keeps_spaced blankspace_pattern (str " ")
           (λ c, isspace c = true)
           (λ x y, isspace x = true ∧ isspace y = true)
           (plus_first isspace) (plus_pairs isspace) _ _ _ 0 s);
    [by apply sub_pieces|done| |].
  - eapply Forall_impl; [exact Hw|]. intros c (_ & Hc & _). congruence.
  - apply Forall_cons in Hw as [(_ & Ha0 & _) _]. intros [_ ?]. congruence.
Qed.

Lemma plain_word_strip (w s : list N) :
  Forall plain_char w → contains s w → contains (strip s) w.
Proof.
  intros Hw. apply strip_keeps; intros c Hc.
  - apply head_Some_elem_of in Hc.
    rewrite Forall_forall in Hw. by destruct (Hw c Hc) as (_ & ? & _).
  - apply last_Some_elem_of in Hc.
    rewrite Forall_forall in Hw. by destruct (Hw c Hc) as (_ & ? & _).
Qed.

(** A placeholder put in stays to the end. *)
Lemma url_placeholder_stays (s : list N) :
  contains s (str " URL ") → contains (after_urls s) (str "URL").
Proof.
  intros Hin. unfold after_urls.
  assert (Hw : Forall plain_char (str "URL")) by by apply placeholder_plain.
  apply (plain_word_strip _ _ Hw), (contains_tail _ (ord " ")).
  apply (blanks_keep (ord "U") (str "RL")), (users_keep (ord "U") (str "RL")),
    (hashtags_keep (ord "U") (str "RL")), (digits_keep (ord "U") (str "RL"));
    try done.
  by apply (contains_init _ _ [ord " "]).
Qed.

Lemma digit_placeholder_stays (s : list N) :
  contains s (str " DIGIT ") →
  contains (strip (sub blankspace_pattern (str " ")
    (sub user_pattern (str " USER ")
       (sub hashtag_pattern (str " HASHTAG ") s)))) (str "DIGIT").
Proof.
  intros Hin.
  assert (Hw : Forall plain_char (str "DIGIT")) by by apply placeholder_plain.
  apply (plain_word_strip _ _ Hw), (contains_tail _ (ord " ")).
  apply (blanks_keep (ord "D") (str "IGIT")),
    (users_keep (ord "D") (str "IGIT")),
    (hashtags_keep (ord "D") (str "IGIT")); try done.
  by apply (contains_init _ _ [ord " "]).
Qed.

Lemma hashtag_placeholder_stays (s : list N) :
  contains s (str " HASHTAG ") →
  contains (strip (sub blankspace_pattern (str " ")
    (sub user_pattern (str " USER ") s))) (str "HASHTAG").
Proof.
  intros Hin.
  assert (Hw : Forall plain_char (str "HASHTAG")) by by apply placeholder_plain.
  apply (plain_word_strip _ _ Hw), (contains_tail _ (ord " ")).
  apply (blanks_keep (ord "H") (str "ASHTAG")),
    (users_keep (ord "H") (str "ASHTAG")); try done.
  by apply (contains_init _ _ [ord " "]).
Qed.

Lemma user_placeholder_stays (s : list N) :
  contains s (str " USER ") →
  contains (strip (sub blankspace_pattern (str " ") s)) (str "USER").
Proof.
  intros Hin.
  assert (Hw : Forall plain_char (str "USER")) by by apply placeholder_plain.
  apply (plain_word_strip _ _ Hw), (contains_tail _ (ord " ")).
  apply (blanks_keep (ord "U") (str "SER")); try done.
  by apply (contains_init _ _ [ord " "]).
Qed.

End stays.

(** *** What becomes a placeholder *)

Section placeholders.
Context `{Unicode}.

Lemma match_at_hashtag_start (h c : N) (s : list N) :
  hashtag_mark h = true → word c = true →
  is_Some (match_at hashtag_pattern 0 (h :: c :: s)).
Proof.
  intros Hh Hc. apply (exec_complete _ _ _ 2 s); [|by eexists].
  unfold hashtag_pattern.
  eapply matches_Seq; [apply matches_Alt_l, matches_Bol|].
  eapply matches_Seq.
  - eapply matches_Rep_turn; [done|by constructor|simpl; lia|].
    apply matches_Rep_stop.
  - apply (matches_run word 1 1 [c] s); [done|by constructor].
Qed.

Lemma match_at_hashtag_space (pos : nat) (ws h c : N) (s : list N) :
  isspace ws = true → hashtag_mark h = true → word c = true →
  is_Some (match_at hashtag_pattern pos (ws :: h :: c :: s)).
Proof.
  intros Hws Hh Hc. apply (exec_complete _ _ _ (S (S pos) + 1) s); [|by eexists].
  unfold hashtag_pattern.
  eapply matches_Seq; [by apply matches_Alt_r, matches_Set|].
  eapply matches_Seq.
  - eapply matches_Rep_turn; [done|by constructor|simpl; lia|].
    apply matches_Rep_stop.
  - apply (matches_run word 1 (S (S pos)) [c] s); [done|by constructor].
Qed.

(** X19.  Digits become DIGIT: when the lower-cased text holds no [:]
    (so that no URL is found) and holds a decimal digit, what either
    [preprocess] returns contains the placeholder DIGIT. *)
Theorem preprocess_marks_digits (text : list N) (c : N) :
  ord ":" ∉ lower text →
  c ∈ lower text → isdecimal c = true →
  contains (BagOfWords.preprocess text) (str "DIGIT") ∧
  contains (Embeddings.preprocess text) (str "DIGIT").
Proof.
  intros Hcolon Hc Hdec.
  assert (Hno : Forall (λ c, ¬ c = ord ":") (lower text)).
  { apply Forall_forall. by intros ? ? ->. }
  assert (Hafter : contains (after_urls (lower text)) (str "DIGIT")).
  { unfold after_urls. apply digit_placeholder_stays.
    apply list_elem_of_split in Hc as (l1 & l2 & Hs).
    apply (sub_marks digit_pattern _ _ l1 (c :: l2)); [done..|].
    unfold digit_pattern. rewrite match_at_plus, Hdec. by eexists. }
  split.
  - unfold BagOfWords.preprocess.
    rewrite (sub_needs BagOfWords.url_pattern _ _ (λ c, c = ord ":"));
      [done| |done].
    intros pos s' rest Hm%bag_url_pattern_needs. eauto.
  - unfold Embeddings.preprocess.
    rewrite (sub_needs Embeddings.url_pattern _ _ (λ c, c = ord ":"));
      [done| |done].
    intros pos s' rest Hm%emb_url_pattern_needs. eauto.
Qed.

(** X20.  Links become URL in the embedding notebooks: when the
    lower-cased text contains [http://] or [https://], what their
    [preprocess] returns contains the placeholder URL. *)
Theorem preprocess_marks_links (text : list N) :
  contains (lower text) (str "http://") ∨
  contains (lower text) (str "https://") →
  contains (Embeddings.preprocess text) (str "URL").
Proof.
  intros Hin. unfold Embeddings.preprocess. apply url_placeholder_stays.
  destruct Hin as [(l1 & l2 & Hs)|(l1 & l2 & Hs)].
  - apply (sub_marks Embeddings.url_pattern _ _ l1 (str "http://" ++ l2));
      [done..|]. apply match_at_http.
  - apply (sub_marks Embeddings.url_pattern _ _ l1 (str "https://" ++ l2));
      [done..|]. apply match_at_https.
Qed.

(** X21.  Addresses become URL in the bag-of-words solutions: when the
    lower-cased text contains [http://], [ftp://] or [https://] followed
    by a host name, a dot, a name and one more character that may end an
    address, what their [preprocess] returns contains the placeholder
    URL. *)
Theorem preprocess_marks_urls (text : list N) (scheme : string)
  (host domain : list N) (l : N) :
  scheme ∈ ["http"; "ftp"; "https"] →
  host ≠ [] → Forall (λ c, BagOfWords.host_char c = true) host →
  domain ≠ [] → Forall (λ c, BagOfWords.host_char c = true) domain →
  BagOfWords.last_char l = true →
  contains (lower text)
    (str scheme ++ str "://" ++ host ++ [ord "."] ++ domain ++ [l]) →
  contains (BagOfWords.preprocess text) (str "URL").
Proof.
  intros Hscheme Hhost Hhost' Hdomain Hdomain' Hl (l1 & l2 & Hs).
  unfold BagOfWords.preprocess. apply url_placeholder_stays.
  apply (sub_marks BagOfWords.url_pattern _ _ l1
           (str scheme ++ str "://" ++ host ++ [ord "."] ++ domain ++ [l] ++ l2));
    [done| |by apply match_at_url].
  by rewrite Hs, <- !app_assoc.
Qed.

(** X22.  Handles become USER: when the lower-cased text holds no
    decimal digit and none of [:], [#], [?], and contains [@] followed by
    a word character, what either [preprocess] returns contains the
    placeholder USER. *)
Theorem preprocess_marks_handles (text : list N) (c : N) :
  Forall (λ c, isdecimal c = false ∧ c ∉ str ":#?") (lower text) →
  contains (lower text) [ord "@"; c] → word c = true →
  contains (BagOfWords.preprocess text) (str "USER") ∧
  contains (Embeddings.preprocess text) (str "USER").
Proof.
  intros Hplain (l1 & l2 & Hs) Hc.
  assert (Hnot : ∀ a : ascii, ord a ∈ str ":#?" →
    Forall (λ c, ¬ c = ord a) (lower text)).
  { intros a Ha. eapply Forall_impl; [exact Hplain|].
    intros ? [_ Hx] ->. done. }
  assert (Hafter : contains (after_urls (lower text)) (str "USER")).
  { unfold after_urls.
    rewrite (sub_needs digit_pattern _ _ (λ c, isdecimal c = true));
      [|apply digit_pattern_needs|].
    2: { eapply Forall_impl; [exact Hplain|]. intros ? [Hx _]. congruence. }
    rewrite (sub_needs hashtag_pattern _ _ (λ c, c = ord "?" ∨ c = ord "#")).
    2: { intros pos s' rest [Hm|Hm]%hashtag_pattern_needs; eauto. }
    2: { eapply Forall_impl; [exact Hplain|].
         intros ? [_ Hx] [->| ->]; apply Hx; by apply (bool_decide_unpack _). }
    apply user_placeholder_stays.
    apply (sub_marks user_pattern _ _ l1 (ord "@" :: c :: l2)); [done..|].
    rewrite match_at_user by done. by eexists. }
  split.
  - unfold BagOfWords.preprocess.
    rewrite (sub_needs BagOfWords.url_pattern _ _ (λ c, c = ord ":")); [done|..].
    + intros pos s' rest Hm%bag_url_pattern_needs. eauto.
    + apply Hnot. by apply (bool_decide_unpack _).
  - unfold Embeddings.preprocess.
    rewrite (sub_needs Embeddings.url_pattern _ _ (λ c, c = ord ":")); [done|..].
    + intros pos s' rest Hm%emb_url_pattern_needs. eauto.
    + apply Hnot. by apply (bool_decide_unpack _).
Qed.

(** X23.  Hashtags become HASHTAG, and so do words after a question
    mark: when the lower-cased text holds no decimal digit and no [:],
    and [#] or [?] followed by a word character stands at its start or
    after a whitespace character, what either [preprocess] returns
    contains the placeholder HASHTAG. *)
Theorem preprocess_marks_hashtags (text : list N) (h c : N) :
  Forall (λ c, isdecimal c = false ∧ c ≠ ord ":") (lower text) →
  h ∈ str "#?" → word c = true →
  [h; c] `prefix_of` lower text ∨
    (∃ ws, isspace ws = true ∧ contains (lower text) [ws; h; c]) →
  contains (BagOfWords.preprocess text) (str "HASHTAG") ∧
  contains (Embeddings.preprocess text) (str "HASHTAG").
Proof.
  intros Hplain Hh Hc Hin.
  assert (Hmark : hashtag_mark h = true).
  { repeat apply elem_of_cons in Hh as [->|Hh]; try done.
    by apply elem_of_nil in Hh. }
  assert (Hafter : contains (after_urls (lower text)) (str "HASHTAG")).
  { unfold after_urls.
    rewrite (sub_needs digit_pattern _ _ (λ c, isdecimal c = true));
      [|apply digit_pattern_needs|].
    2: { eapply Forall_impl; [exact Hplain|]. intros ? [Hx _]. congruence. }
    apply hashtag_placeholder_stays.
    destruct Hin as [[l2 Hs]|(ws & Hws & l1 & l2 & Hs)].
    - apply (sub_marks hashtag_pattern _ _ [] (h :: c :: l2)); [done..|].
      by apply match_at_hashtag_start.
    - apply (sub_marks hashtag_pattern _ _ l1 (ws :: h :: c :: l2)); [done..|].
      by apply match_at_hashtag_space. }
  assert (Hno : Forall (λ c, ¬ c = ord ":") (lower text)).
  { eapply Forall_impl; [exact Hplain|]. by intros ? [_ ?]. }
  split.
  - unfold BagOfWords.preprocess.
    rewrite (sub_needs BagOfWords.url_pattern _ _ (λ c, c = ord ":"));
      [done| |done].
    intros pos s' rest Hm%bag_url_pattern_needs. eauto.
  - unfold Embeddings.preprocess.
    rewrite (sub_needs Embeddings.url_pattern _ _ (λ c, c = ord ":"));
      [done| |done].
    intros pos s' rest Hm%emb_url_pattern_needs. eauto.
Qed.

End placeholders.

(** The tables restricted to ASCII, for examples. *)
Definition ascii_lower (c : N) : N :=
  if between 65 90 c then (c + 32)%N else c.

#[export] Instance basic : Unicode := {|
  isalnum c := between 48 57 c || between 65 90 c || between 97 122 c;
  isdecimal c := between 48 57 c;
  isspace c := between 9 13 c || between 28 32 c;
  lower text := ascii_lower <$> text;
  isdecimal_ascii _ _ := eq_refl;
  isalnum_ascii _ _ := eq_refl;
  isspace_ascii _ _ := eq_refl
|}.

Lemma preprocess_no_handle_witness :
  BagOfWords.preprocess (str "a@ b") = str "a@ b" ∧ word (ord " ") = false.
Proof.
  split; [by vm_compute|].
  apply (proj1 (preprocess_no_handle (str "a@ b")) (str "a") (ord " ") (str "b")).
  by vm_compute.
Defined.

Lemma preprocess_no_url_witness :
  BagOfWords.preprocess (str "see http://a.bc") = str "see URL" ∧
  ¬ contains (BagOfWords.preprocess (str "see http://a.bc"))
      (str "http://a.bc").
Proof.
  split; [by vm_compute|].
  apply (preprocess_no_url (str "see http://a.bc") "http"
           (str "a") (str "b") (ord "c")); try done.
  - by apply (bool_decide_unpack _).
  - by repeat constructor.
  - by repeat constructor.
Defined.

Lemma preprocess_plain_witness :
  lower (str "Hello World") = str "hello world" ∧
  BagOfWords.preprocess (str "Hello World") = lower (str "Hello World") ∧
  Embeddings.preprocess (str "Hello World") = lower (str "Hello World").
Proof.
  split; [by vm_compute|].
  apply (preprocess_plain (str "Hello World")).
  - by apply (bool_decide_unpack _).
  - split_and!.
    + by apply (bool_decide_unpack _).
    + by apply no_double_space_spec.
    + by intros c [= <-].
    + by intros c [= <-].
Defined.

Lemma preprocess_marks_digits_witness :
  contains (BagOfWords.preprocess (str "a1")) (str "DIGIT") ∧
  contains (Embeddings.preprocess (str "a1")) (str "DIGIT").
Proof.
  apply (preprocess_marks_digits (str "a1") (ord "1")).
  - by apply (bool_decide_unpack _).
  - by apply (bool_decide_unpack _).
  - reflexivity.
Defined.

Lemma preprocess_marks_links_witness :
  Embeddings.preprocess (str "see https://x") = str "see URL" ∧
  contains (Embeddings.preprocess (str "see https://x")) (str "URL").
Proof.
  split; [by vm_compute|].
  apply (preprocess_marks_links (str "see https://x")).
  right. by exists (str "see "), (str "x").
Defined.

Lemma preprocess_marks_urls_witness :
  contains (BagOfWords.preprocess (str "see http://a.bc")) (str "URL").
Proof.
  apply (preprocess_marks_urls (str "see http://a.bc") "http"
           (str "a") (str "b") (ord "c")); try done.
  - by apply (bool_decide_unpack _).
  - by repeat constructor.
  - by repeat constructor.
  - by exists (str "see "), [].
Defined.

Lemma preprocess_marks_handles_witness :
  contains (BagOfWords.preprocess (str "hi @bob")) (str "USER") ∧
  contains (Embeddings.preprocess (str "hi @bob")) (str "USER").
Proof.
  apply (preprocess_marks_handles (str "hi @bob") (ord "b")).
  - by apply (bool_decide_unpack _).
  - by exists (str "hi "), (str "ob").
  - reflexivity.
Defined.

Lemma preprocess_marks_hashtags_witness :
  BagOfWords.preprocess (str "so ?what") = str "so HASHTAG" ∧
  contains (BagOfWords.preprocess (str "so ?what")) (str "HASHTAG") ∧
  contains (Embeddings.preprocess (str "so ?what")) (str "HASHTAG").
Proof.
  split; [by vm_compute|].
  apply (preprocess_marks_hashtags (str "so ?what") (ord "?") (ord "w")).
  - by apply (bool_decide_unpack _).
  - by apply (bool_decide_unpack _).
  - reflexivity.
  - right. exists (ord " "). split; [reflexivity|].
    by exists (str "so"), (str "hat").
Defined.

End PreprocessFacts.
